(** * A red-black tree with parent pointers and a shared sentinel

    Shallow embedding of the Go package [rbtree] (node.go, rbtree.go,
    iterator, sub_iterator.go, sub-tree view) and the verification of its
    specification.

    The Go code is pointer based: nodes carry [left], [right] and [parent]
    links, absent children are the package-level sentinel [tNil], and the
    fix-up loops walk up through the parent links.  The embedding keeps that
    shape.  Nodes live in a store [gmap addr node]; two addresses are
    distinguished: [goNil], the Go nil pointer, which is never allocated
    (following it panics), and [tNil], the sentinel, whose own links are Go
    nil exactly as in [var tNil = &node{black, nil, nil, nil, nil}].
    Every [for] loop is a [Fixpoint] on a fuel argument; running out of fuel
    is a result of its own, distinct from a panic. *)

From Stdlib Require Import ZArith List Lia Bool Sorting.Sorted Permutation.
From stdpp Require Import base option list gmap sets sorting.

Open Scope Z_scope.

(** ** Data model *)

(** [type color byte] with [red = iota], [black]. *)
Inductive color := red | black.

Global Instance color_eq_dec : EqDecision color.
Proof. solve_decision. Defined.

(** Pointers to nodes (and to [rbTree] objects). *)
Definition addr := nat.

(** The Go nil pointer: never in the store. *)
Definition goNil : addr := 0%nat.

(** [var tNil = &node{black, nil, nil, nil, nil}]. *)
Definition tNil : addr := 1%nat.

(** [type node struct { color; item; left, right, parent *node }].
    The field for the colour is [n_color] since [color] names the type, and
    the link fields carry the same prefix.  [n_item] is [None] for the Go nil
    interface value. *)
Record node (Item : Type) := mkNode {
  n_color : color;
  n_item : option Item;
  n_left : addr;
  n_right : addr;
  n_parent : addr
}.
Arguments mkNode {Item}.
Arguments n_color {Item}.
Arguments n_item {Item}.
Arguments n_left {Item}.
Arguments n_right {Item}.
Arguments n_parent {Item}.

(** The contents of the sentinel when the package is initialised. *)
Definition tNil_node {Item} : node Item := mkNode black None goNil goNil goNil.

(** [type rbTree struct { root *node; length int }] together with the node
    store it works on and the allocator's next free address: the state that
    the methods with receiver [rb *rbTree] read and write. *)
Record store (Item : Type) := mkStore {
  root : addr;
  length : Z;
  cells : gmap addr (node Item);
  next : addr
}.
Arguments mkStore {Item}.
Arguments root {Item}.
Arguments length {Item}.
Arguments cells {Item}.
Arguments next {Item}.

(** Go's [int] is taken to be 64 bits wide; [length++] and [length--] wrap. *)
Definition wrap_int (z : Z) : Z := (z + 2 ^ 63) mod 2 ^ 64 - 2 ^ 63.

(** Outcome of running a piece of code. *)
Inductive result (A : Type) :=
| Ok (a : A)
| Panic
| OutOfFuel.
Arguments Ok {A}.
Arguments Panic {A}.
Arguments OutOfFuel {A}.

(** [var ErrorFromGreaterThanToKey], [var ErrorOutOfSubTreeRange]. *)
Inductive error := ErrorFromGreaterThanToKey | ErrorOutOfSubTreeRange.

(** [type state byte] of the iterator. *)
Inductive state := deferencable | beforeFirst | pastRear.

Global Instance state_eq_dec : EqDecision state.
Proof. solve_decision. Defined.

(** [type iterator struct { node *node; state state }]. *)
Record iterator := mkIterator { it_node : addr; it_state : state }.

(** [type subIterator struct { iterator *iterator; toKey Item }]; the inner
    iterator has one owner, so it is held by value. *)
Record subIterator (Item : Type) := mkSubIterator {
  si_iterator : iterator;
  si_toKey : Item
}.
Arguments mkSubIterator {Item}.
Arguments si_iterator {Item}.
Arguments si_toKey {Item}.

(** [type subTree struct { tree *rbTree; fromKey, toKey Item }]: [st_tree] is
    the address of the backing [rbTree] object. *)
Record subTree (Item : Type) := mkSubTree {
  st_tree : addr;
  fromKey : Item;
  toKey : Item
}.
Arguments mkSubTree {Item}.
Arguments st_tree {Item}.
Arguments fromKey {Item}.
Arguments toKey {Item}.

(** The two implementations of the interface [Tree]. *)
Inductive Tree (Item : Type) :=
| TreeRb (rb : addr)
| TreeSub (st : subTree Item).
Arguments TreeRb {Item}.
Arguments TreeSub {Item}.

(** The two implementations of the interface [Iterator]. *)
Inductive Iterator (Item : Type) :=
| IterPlain (it : iterator)
| IterSub (sit : subIterator Item).
Arguments IterPlain {Item}.
Arguments IterSub {Item}.

(** [type rbTree struct] as an object in memory, and the whole memory: the
    [rbTree] objects, the nodes, the allocator. *)
Record rbTree := mkRbTree { t_root : addr; t_length : Z }.

Record world (Item : Type) := mkWorld {
  trees : gmap addr rbTree;
  w_cells : gmap addr (node Item);
  w_next : addr
}.
Arguments mkWorld {Item}.
Arguments trees {Item}.
Arguments w_cells {Item}.
Arguments w_next {Item}.

(** ** The monads *)

(** Code that only reads the node store. *)
Definition R (Item A : Type) := gmap addr (node Item) → result A.

(** Code that reads and writes the receiver and the node store. *)
Definition M (Item A : Type) := store Item → result (A * store Item).

Definition ret {Item A} (a : A) : M Item A := λ s, Ok (a, s).

Definition bind {Item A B} (m : M Item A) (k : A → M Item B) : M Item B :=
  λ s, match m s with
       | Ok (a, s') => k a s'
       | Panic => Panic
       | OutOfFuel => OutOfFuel
       end.

Definition rbind {A B} (r : result A) (k : A → result B) : result B :=
  match r with
  | Ok a => k a
  | Panic => Panic
  | OutOfFuel => OutOfFuel
  end.

Notation "'do' x <- m ; k" := (bind m (λ x, k))
  (at level 10, x name, m at level 100, k at level 200).
Notation "m ;; k" := (bind m (λ _, k))
  (at level 100, k at level 200, right associativity).
Notation "'rdo' x <- m ; k" := (rbind m (λ x, k))
  (at level 10, x name, m at level 100, k at level 200).

Definition panic {Item A} : M Item A := λ _, Panic.
Definition out_of_fuel {Item A} : M Item A := λ _, OutOfFuel.

(** Run read-only code inside [M]. *)
Definition liftR {Item A} (r : R Item A) : M Item A :=
  λ s, match r (cells s) with
       | Ok a => Ok (a, s)
       | Panic => Panic
       | OutOfFuel => OutOfFuel
       end.

(** [p.f] as an r-value: a nil or dangling pointer panics. *)
Definition deref {Item} (h : gmap addr (node Item)) (p : addr) : result (node Item) :=
  match h !! p with
  | Some n => Ok n
  | None => Panic
  end.

Definition load {Item A} (f : node Item → A) (p : addr) : M Item A :=
  λ s, match cells s !! p with
       | Some n => Ok (f n, s)
       | None => Panic
       end.

(** [p.f = v]. *)
Definition modify {Item} (f : node Item → node Item) (p : addr) : M Item unit :=
  λ s, match cells s !! p with
       | Some n => Ok (tt, mkStore (root s) (length s) (<[p := f n]> (cells s)) (next s))
       | None => Panic
       end.

Definition set_color {Item} (p : addr) (c : color) : M Item unit :=
  modify (λ n, mkNode c (n_item n) (n_left n) (n_right n) (n_parent n)) p.
Definition set_item {Item} (p : addr) (i : option Item) : M Item unit :=
  modify (λ n, mkNode (n_color n) i (n_left n) (n_right n) (n_parent n)) p.
Definition set_left {Item} (p : addr) (v : addr) : M Item unit :=
  modify (λ n, mkNode (n_color n) (n_item n) v (n_right n) (n_parent n)) p.
Definition set_right {Item} (p : addr) (v : addr) : M Item unit :=
  modify (λ n, mkNode (n_color n) (n_item n) (n_left n) v (n_parent n)) p.
Definition set_parent {Item} (p : addr) (v : addr) : M Item unit :=
  modify (λ n, mkNode (n_color n) (n_item n) (n_left n) (n_right n) v) p.

(** [rb.root], [rb.root = v], [rb.length]. *)
Definition get_root {Item} : M Item addr := λ s, Ok (root s, s).
Definition set_root {Item} (v : addr) : M Item unit :=
  λ s, Ok (tt, mkStore v (length s) (cells s) (next s)).
Definition get_length {Item} : M Item Z := λ s, Ok (length s, s).
Definition set_length {Item} (v : Z) : M Item unit :=
  λ s, Ok (tt, mkStore (root s) v (cells s) (next s)).

(** [&node{...}]: a fresh address. *)
Definition alloc {Item} (n : node Item) : M Item addr :=
  λ s, Ok (next s, mkStore (root s) (length s) (<[next s := n]> (cells s)) (S (next s))).

(** ** The code *)

Section Code.
Context {Item : Type}.

(** [Less] of the interface [Item].  A call on the nil interface value
    panics, and so does the comparison against nil (for [IntItem] and
    [StringItem] the type assertion [other.(IntItem)] fails). *)
Variable less : Item → Item → bool.

Definition Less (a b : option Item) : result bool :=
  match a, b with
  | Some x, Some y => Ok (less x y)
  | _, _ => Panic
  end.

Abbreviation heap := (gmap addr (node Item)).

(** *** node.go *)

(** [func (nd *node) min() *node] *)
Fixpoint node_min (fuel : nat) (n : addr) (h : heap) : result addr :=
  match fuel with
  | O => OutOfFuel
  | S f =>
    rdo nd <- deref h n;
    if decide (n_left nd ≠ tNil) then node_min f (n_left nd) h else Ok n
  end.

(** [func (nd *node) max() *node] *)
Fixpoint node_max (fuel : nat) (n : addr) (h : heap) : result addr :=
  match fuel with
  | O => OutOfFuel
  | S f =>
    rdo nd <- deref h n;
    if decide (n_right nd ≠ tNil) then node_max f (n_right nd) h else Ok n
  end.

(** The inner loop of [ceiling]:
    [for parent != tNil && ch == parent.right { ch = parent; parent = parent.parent }] *)
Fixpoint ceiling_climb (fuel : nat) (ch parent : addr) (h : heap) : result addr :=
  match fuel with
  | O => OutOfFuel
  | S f =>
    if decide (parent ≠ tNil) then
      rdo pn <- deref h parent;
      if decide (ch = n_right pn)
      then ceiling_climb f parent (n_parent pn) h
      else Ok parent
    else Ok parent
  end.

(** The loop [for p != tNil] of [ceiling]; [fuel0] is the budget of the
    inner loop. *)
Fixpoint ceiling_loop (fuel0 fuel : nat) (p : addr) (item : Item) (h : heap)
  : result addr :=
  match fuel with
  | O => OutOfFuel
  | S f =>
    if decide (p ≠ tNil) then
      rdo pn <- deref h p;
      rdo lt <- Less (Some item) (n_item pn);
      if lt then
        if decide (n_left pn ≠ tNil) then ceiling_loop fuel0 f (n_left pn) item h
        else Ok p
      else
        rdo gt <- Less (n_item pn) (Some item);
        if gt then
          if decide (n_right pn ≠ tNil) then ceiling_loop fuel0 f (n_right pn) item h
          else ceiling_climb fuel0 p (n_parent pn) h
        else Ok p
    else Ok tNil
  end.

(** [func (nd *node) ceiling(item Item) *node] *)
Definition node_ceiling (fuel : nat) (nd : addr) (item : Item) (h : heap) : result addr :=
  ceiling_loop fuel fuel nd item h.

(** The inner loop of [floor]:
    [for parent != tNil && ch == parent.left { ch = parent; parent = parent.parent }] *)
Fixpoint floor_climb (fuel : nat) (ch parent : addr) (h : heap) : result addr :=
  match fuel with
  | O => OutOfFuel
  | S f =>
    if decide (parent ≠ tNil) then
      rdo pn <- deref h parent;
      if decide (ch = n_left pn)
      then floor_climb f parent (n_parent pn) h
      else Ok parent
    else Ok parent
  end.

Fixpoint floor_loop (fuel0 fuel : nat) (p : addr) (item : Item) (h : heap)
  : result addr :=
  match fuel with
  | O => OutOfFuel
  | S f =>
    if decide (p ≠ tNil) then
      rdo pn <- deref h p;
      rdo gt <- Less (n_item pn) (Some item);
      if gt then
        if decide (n_right pn ≠ tNil) then floor_loop fuel0 f (n_right pn) item h
        else Ok p
      else
        rdo lt <- Less (Some item) (n_item pn);
        if lt then
          if decide (n_left pn ≠ tNil) then floor_loop fuel0 f (n_left pn) item h
          else floor_climb fuel0 p (n_parent pn) h
        else Ok p
    else Ok tNil
  end.

(** [func (nd *node) floor(item Item) *node] *)
Definition node_floor (fuel : nat) (nd : addr) (item : Item) (h : heap) : result addr :=
  floor_loop fuel fuel nd item h.

(** *** rbtree.go *)

(** The loop of [find], on the pair [(x, y)]. *)
Fixpoint find_loop (fuel : nat) (x y : addr) (item : option Item) (h : heap)
  : result (addr * addr) :=
  match fuel with
  | O => OutOfFuel
  | S f =>
    if decide (x ≠ tNil) then
      rdo xn <- deref h x;
      rdo lt <- Less item (n_item xn);
      if lt then find_loop f (n_left xn) x item h
      else
        rdo gt <- Less (n_item xn) item;
        if gt then find_loop f (n_right xn) x item h
        else Ok (x, y)
    else Ok (x, y)
  end.

(** [func (rb *rbTree) find(item Item)], returning the pair of nodes [x, y]. *)
Definition find (fuel : nat) (item : option Item) : M Item (addr * addr) :=
  do r <- get_root;
  liftR (find_loop fuel r tNil item).

(** [func (rb *rbTree) leftRotate(x *node)] *)
Definition leftRotate (x : addr) : M Item unit :=
  do y <- load n_right x;
  (do yl <- load n_left y; set_right x yl);;
  (do yl <- load n_left y;
   if decide (yl ≠ tNil) then (do yl' <- load n_left y; set_parent yl' x) else ret tt);;
  (do xp <- load n_parent x; set_parent y xp);;
  (do xp <- load n_parent x;
   if decide (xp = tNil) then set_root y
   else
     do xp1 <- load n_parent x;
     do xpl <- load n_left xp1;
     if decide (x = xpl)
     then (do xp2 <- load n_parent x; set_left xp2 y)
     else (do xp2 <- load n_parent x; set_right xp2 y));;
  set_left y x;;
  set_parent x y.

(** [func (rb *rbTree) rightRotate(y *node)] *)
Definition rightRotate (y : addr) : M Item unit :=
  do x <- load n_left y;
  (do xr <- load n_right x; set_left y xr);;
  (do xr <- load n_right x;
   if decide (xr ≠ tNil) then (do xr' <- load n_right x; set_parent xr' y) else ret tt);;
  (do yp <- load n_parent y; set_parent x yp);;
  (do yp <- load n_parent y;
   if decide (yp = tNil) then set_root x
   else
     do yp1 <- load n_parent y;
     do ypl <- load n_left yp1;
     if decide (y = ypl)
     then (do yp2 <- load n_parent y; set_left yp2 x)
     else (do yp2 <- load n_parent y; set_right yp2 x));;
  set_right x y;;
  set_parent y x.

(** [z.parent.parent] *)
Definition grandparent (z : addr) : M Item addr :=
  do p <- load n_parent z; load n_parent p.

(** [func (rb *rbTree) insertFixup(z *node)] *)
Fixpoint insertFixup (fuel : nat) (z : addr) : M Item unit :=
  match fuel with
  | O => out_of_fuel
  | S f =>
    do pc <- (do p <- load n_parent z; load n_color p);
    if decide (pc = red) then
      do p <- load n_parent z;
      do gl <- (do g <- grandparent z; load n_left g);
      if decide (p = gl) then
        do y <- (do g <- grandparent z; load n_right g);
        do yc <- load n_color y;
        if decide (yc = red) then
          (do p <- load n_parent z; set_color p black);;
          set_color y black;;
          (do g <- grandparent z; set_color g red);;
          do g <- grandparent z;
          insertFixup f g
        else
          do z' <- (do pr <- (do p <- load n_parent z; load n_right p);
                    if decide (z = pr)
                    then (do p <- load n_parent z; leftRotate p;; ret p)
                    else ret z);
          (do p <- load n_parent z'; set_color p black);;
          (do g <- grandparent z'; set_color g red);;
          (do g <- grandparent z'; rightRotate g);;
          insertFixup f z'
      else
        do y <- (do g <- grandparent z; load n_left g);
        do yc <- load n_color y;
        if decide (yc = red) then
          (do p <- load n_parent z; set_color p black);;
          set_color y black;;
          (do g <- grandparent z; set_color g red);;
          do g <- grandparent z;
          insertFixup f g
        else
          do z' <- (do pl <- (do p <- load n_parent z; load n_left p);
                    if decide (z = pl)
                    then (do p <- load n_parent z; rightRotate p;; ret p)
                    else ret z);
          (do p <- load n_parent z'; set_color p black);;
          (do g <- grandparent z'; set_color g red);;
          (do g <- grandparent z'; leftRotate g);;
          insertFixup f z'
    else
      do r <- get_root; set_color r black
  end.

(** [func (rb *rbTree) insert(z *node) *node] *)
Definition insert (fuel : nat) (z : addr) : M Item addr :=
  do xy <- (do zi <- load n_item z; find fuel zi);
  let x := xy.1 in
  let y := xy.2 in
  if decide (x ≠ tNil) then
    (do zi <- load n_item z; set_item x zi);;
    ret x
  else
    set_parent z y;;
    (if decide (y = tNil) then set_root z
     else
       do lt <- (do zi <- load n_item z; do yi <- load n_item y; liftR (λ _, Less zi yi));
       if lt then set_left y z else set_right y z);;
    set_color z red;;
    set_left z tNil;;
    set_right z tNil;;
    insertFixup fuel z;;
    ret z.

(** [func (rb *rbTree) transplant(u, v *node)] *)
Definition transplant (u v : addr) : M Item unit :=
  (do up <- load n_parent u;
   if decide (up = tNil) then set_root v
   else
     do upl <- (do up1 <- load n_parent u; load n_left up1);
     if decide (u = upl)
     then (do up2 <- load n_parent u; set_left up2 v)
     else (do up2 <- load n_parent u; set_right up2 v));;
  do up <- load n_parent u; set_parent v up.

(** [func (rb *rbTree) removeFixup(x *node)] *)
Fixpoint removeFixup (fuel : nat) (x : addr) : M Item unit :=
  match fuel with
  | O => out_of_fuel
  | S f =>
    do r <- get_root;
    do go <- (if decide (x ≠ r)
              then (do c <- load n_color x; ret (bool_decide (c = black)))
              else ret false);
    if go : bool then
      do xpl <- (do xp <- load n_parent x; load n_left xp);
      if decide (x = xpl) then
        do w0 <- (do xp <- load n_parent x; load n_right xp);
        do wc <- load n_color w0;
        do w <- (if decide (wc = red) then
                   set_color w0 black;;
                   (do xp <- load n_parent x; set_color xp red);;
                   (do xp <- load n_parent x; leftRotate xp);;
                   (do xp <- load n_parent x; load n_right xp)
                 else ret w0);
        do both <- (do wlc <- (do wl <- load n_left w; load n_color wl);
                    if decide (wlc = black)
                    then (do wrc <- (do wr <- load n_right w; load n_color wr);
                          ret (bool_decide (wrc = black)))
                    else ret false);
        if both : bool then
          set_color w red;;
          do xp <- load n_parent x;
          removeFixup f xp
        else
          do x' <- (do wrc <- (do wr <- load n_right w; load n_color wr);
                    if decide (wrc = black) then
                      (do wl <- load n_left w; set_color wl black);;
                      set_color w red;;
                      rightRotate w;;
                      load n_parent x
                    else ret x);
          (do c <- (do xp <- load n_parent x'; load n_color xp); set_color w c);;
          (do xp <- load n_parent x'; set_color xp black);;
          (do wr <- load n_right w; set_color wr black);;
          (do xp <- load n_parent x'; leftRotate xp);;
          do r' <- get_root;
          removeFixup f r'
      else
        do w0 <- (do xp <- load n_parent x; load n_left xp);
        do wc <- load n_color w0;
        do w <- (if decide (wc = red) then
                   set_color w0 black;;
                   (do xp <- load n_parent x; set_color xp red);;
                   (do xp <- load n_parent x; rightRotate xp);;
                   (do xp <- load n_parent x; load n_left xp)
                 else ret w0);
        do both <- (do wrc <- (do wr <- load n_right w; load n_color wr);
                    if decide (wrc = black)
                    then (do wlc <- (do wl <- load n_left w; load n_color wl);
                          ret (bool_decide (wlc = black)))
                    else ret false);
        if both : bool then
          set_color w red;;
          do xp <- load n_parent x;
          removeFixup f xp
        else
          do x' <- (do wlc <- (do wl <- load n_left w; load n_color wl);
                    if decide (wlc = black) then
                      (do wr <- load n_right w; set_color wr black);;
                      set_color w red;;
                      leftRotate w;;
                      load n_parent x
                    else ret x);
          (do c <- (do xp <- load n_parent x'; load n_color xp); set_color w c);;
          (do xp <- load n_parent x'; set_color xp black);;
          (do wl <- load n_left w; set_color wl black);;
          (do xp <- load n_parent x'; rightRotate xp);;
          do r' <- get_root;
          removeFixup f r'
    else
      set_color x black
  end.

(** [func (rb *rbTree) remove(z *node)] *)
Definition remove (fuel : nat) (z : addr) : M Item unit :=
  do yColor0 <- load n_color z;
  do zl <- load n_left z;
  do xc <-
    (if decide (zl = tNil) then
       do x <- load n_right z;
       (do zr <- load n_right z; transplant z zr);;
       ret (x, yColor0)
     else
       do zr <- load n_right z;
       if decide (zr = tNil) then
         do x <- load n_left z;
         (do zl' <- load n_left z; transplant z zl');;
         ret (x, yColor0)
       else
         do y <- (do zr' <- load n_right z; liftR (node_min fuel zr'));
         do yColor <- load n_color y;
         do x <- load n_right y;
         (do yp <- load n_parent y;
          if decide (yp = z) then set_parent x y
          else
            (do yr <- load n_right y; transplant y yr);;
            (do zr' <- load n_right z; set_right y zr');;
            (do yr <- load n_right y; set_parent yr y));;
         transplant z y;;
         (do zl' <- load n_left z; set_left y zl');;
         (do yl <- load n_left y; set_parent yl y);;
         (do zc <- load n_color z; set_color y zc);;
         ret (x, yColor));
  if decide (xc.2 = black) then removeFixup fuel xc.1 else ret tt.

(** [func (rb *rbTree) Len() int] *)
Definition rbTree_Len : M Item Z := get_length.

(** [func (rb *rbTree) Insert(item Item) (bool, error)] *)
Definition rbTree_Insert (fuel : nat) (item : Item) : M Item (bool * option error) :=
  do z <- alloc (mkNode red (Some item) tNil tNil tNil);
  do res <- insert fuel z;
  do result <- (if decide (res = z)
                then (do n <- get_length; set_length (wrap_int (n + 1)));; ret true
                else ret false);
  ret (result, None).

(** The loop of the tests that fills a tree:
    [for _, item := range seq { tree.Insert(item) }]. *)
Fixpoint insert_all (fuel : nat) (seq : list Item) : M Item unit :=
  match seq with
  | [] => ret tt
  | item :: rest => rbTree_Insert fuel item;; insert_all fuel rest
  end.

(** [func (rb *rbTree) Remove(item Item) (bool, error)] *)
Definition rbTree_Remove (fuel : nat) (item : Item) : M Item (bool * option error) :=
  do zy <- find fuel (Some item);
  let z := zy.1 in
  if decide (z = tNil) then ret (false, None)
  else
    remove fuel z;;
    (do n <- get_length; set_length (wrap_int (n - 1)));;
    ret (true, None).

(** [func (rb *rbTree) Find(item Item) Item] *)
Definition rbTree_Find (fuel : nat) (item : Item) : M Item (option Item) :=
  do xy <- find fuel (Some item);
  let x := xy.1 in
  if decide (x = tNil) then ret None
  else load n_item x.

(** [func (rb *rbTree) Min() Item] *)
Definition rbTree_Min (fuel : nat) : M Item (option Item) :=
  do n <- (do r <- get_root; liftR (node_min fuel r));
  load n_item n.

(** [func (rb *rbTree) Max() Item] *)
Definition rbTree_Max (fuel : nat) : M Item (option Item) :=
  do n <- (do r <- get_root; liftR (node_max fuel r));
  load n_item n.

(** [func (rb *rbTree) NewIterator() Iterator] *)
Definition rbTree_NewIterator (fuel : nat) : M Item (Iterator Item) :=
  do n <- rbTree_Len;
  if decide (n = 0) then ret (IterPlain (mkIterator tNil beforeFirst))
  else
    do m <- (do r <- get_root; liftR (node_min fuel r));
    ret (IterPlain (mkIterator m beforeFirst)).

(** [func (rb *rbTree) SubTree(fromKey, toKey Item) (Tree, error)], for the
    receiver at address [rb]. *)
Definition rbTree_SubTree (rb : addr) (fromKey toKey : Item)
  : option (Tree Item) * option error :=
  if less toKey fromKey then (None, Some ErrorFromGreaterThanToKey)
  else (Some (TreeSub (mkSubTree rb fromKey toKey)), None).

(** *** iterator *)

(** [func (it *iterator) IsValid() bool] *)
Definition iterator_IsValid (it : iterator) : bool :=
  bool_decide (it_state it = deferencable).

(** The loop [for y.parent != tNil && y.right == x { x, y = y, y.parent }]
    of [Next], on the pair [(x, y)]. *)
Fixpoint next_climb (fuel : nat) (x y : addr) (h : heap) : result (addr * addr) :=
  match fuel with
  | O => OutOfFuel
  | S f =>
    rdo yn <- deref h y;
    if decide (n_parent yn ≠ tNil) then
      if decide (n_right yn = x) then next_climb f y (n_parent yn) h
      else Ok (x, y)
    else Ok (x, y)
  end.

(** [func (it *iterator) Next() Item]: the item and the iterator after the
    call. *)
Definition iterator_Next (fuel : nat) (it : iterator) (h : heap)
  : result (option Item * iterator) :=
  if bool_decide (it_state it = pastRear) || bool_decide (it_node it = tNil)
  then Ok (None, it)
  else if decide (it_state it = beforeFirst) then
    rdo n <- deref h (it_node it);
    Ok (n_item n, mkIterator (it_node it) deferencable)
  else
    rdo n <- deref h (it_node it);
    if decide (n_right n ≠ tNil) then
      rdo m <- node_min fuel (n_right n) h;
      rdo mn <- deref h m;
      Ok (n_item mn, mkIterator m (it_state it))
    else
      let x := it_node it in
      rdo xy <- next_climb fuel x (n_parent n) h;
      let x' := xy.1 in
      let y := xy.2 in
      rdo yn <- deref h y;
      if decide (n_right yn = x') then Ok (None, mkIterator y pastRear)
      else Ok (n_item yn, mkIterator y (it_state it)).

(** [func (it *iterator) Get() Item] *)
Definition iterator_Get (it : iterator) (h : heap) : result (option Item) :=
  if negb (iterator_IsValid it) then Ok None
  else rdo n <- deref h (it_node it); Ok (n_item n).

(** *** sub_iterator.go *)

(** [func (it *subIterator) IsValid() bool]; [node != nil] compares with the
    Go nil pointer, [node.item != nil] with the nil interface value. *)
Definition subIterator_IsValid (sit : subIterator Item) (h : heap) : result bool :=
  let nd := it_node (si_iterator sit) in
  if iterator_IsValid (si_iterator sit) && bool_decide (nd ≠ goNil) then
    rdo n <- deref h nd;
    match n_item n with
    | None => Ok false
    | Some i => Ok (negb (less (si_toKey sit) i))
    end
  else Ok false.

(** [func (it *subIterator) Next() Item] *)
Definition subIterator_Next (fuel : nat) (sit : subIterator Item) (h : heap)
  : result (option Item * subIterator Item) :=
  if decide (it_state (si_iterator sit) = pastRear) then Ok (None, sit)
  else
    rdo r <- iterator_Next fuel (si_iterator sit) h;
    let item := r.1 in
    let it' := r.2 in
    match item with
    | Some i =>
      if less (si_toKey sit) i
      then Ok (None, mkSubIterator (mkIterator (it_node it') pastRear) (si_toKey sit))
      else Ok (item, mkSubIterator it' (si_toKey sit))
    | None => Ok (item, mkSubIterator it' (si_toKey sit))
    end.

(** [func (it *subIterator) Get() Item] *)
Definition subIterator_Get (sit : subIterator Item) (h : heap) : result (option Item) :=
  rdo v <- subIterator_IsValid sit h;
  if negb v then Ok None
  else rdo n <- deref h (it_node (si_iterator sit)); Ok (n_item n).

(** Dispatch of [Next] through the interface [Iterator]. *)
Definition Iterator_Next (fuel : nat) (it : Iterator Item) (h : heap)
  : result (option Item * Iterator Item) :=
  match it with
  | IterPlain i => rdo r <- iterator_Next fuel i h; Ok (r.1, IterPlain r.2)
  | IterSub si => rdo r <- subIterator_Next fuel si h; Ok (r.1, IterSub r.2)
  end.

(** The client loop of the tests ([assertEqualIntDataset]): call [Next]
    until it yields nil, collecting the items.  [fuel0] is the budget of
    each call of [Next]. *)
Fixpoint iterate_loop (fuel0 fuel : nat) (it : Iterator Item) (h : heap)
  : result (list Item) :=
  match fuel with
  | O => OutOfFuel
  | S f =>
    rdo r <- Iterator_Next fuel0 it h;
    match r.1 with
    | None => Ok []
    | Some i => rdo l <- iterate_loop fuel0 f r.2 h; Ok (i :: l)
    end
  end.

Definition iterate (fuel : nat) (it : Iterator Item) (h : heap) : result (list Item) :=
  iterate_loop fuel fuel it h.

(** The traversal of a tree by [assertEqualIntDataset]: [NewIterator], then
    the loop. *)
Definition rbTree_items (fuel : nat) : M Item (list Item) :=
  do it <- rbTree_NewIterator fuel;
  liftR (iterate fuel it).

(** *** The memory of the program, [New], and calls on an [rbTree] object *)

(** [func New() Tree] *)
Definition New (w : world Item) : addr * world Item :=
  (w_next w,
   mkWorld (<[w_next w := mkRbTree tNil 0]> (trees w)) (w_cells w) (S (w_next w))).

(** A method call [rb.m(...)] on the object at address [rb]. *)
Definition on_tree {A} (rb : addr) (m : M Item A) (w : world Item)
  : result (A * world Item) :=
  match trees w !! rb with
  | None => Panic
  | Some t =>
    match m (mkStore (t_root t) (t_length t) (w_cells w) (w_next w)) with
    | Ok (a, s) =>
      Ok (a, mkWorld (<[rb := mkRbTree (root s) (length s)]> (trees w)) (cells s) (next s))
    | Panic => Panic
    | OutOfFuel => OutOfFuel
    end
  end.

(** What the methods of the object at [rb] see of the memory. *)
Definition view (rb : addr) (w : world Item) : option (store Item) :=
  t ← trees w !! rb;
  Some (mkStore (t_root t) (t_length t) (w_cells w) (w_next w)).

(** *** The sub-tree view *)

(** [func (st *subTree) inRange(item Item) bool] *)
Definition subTree_inRange (st : subTree Item) (item : Item) : bool :=
  negb (less item (fromKey st)) && negb (less (toKey st) item).

(** [func (st *subTree) Insert(item Item) (bool, error)] *)
Definition subTree_Insert (fuel : nat) (st : subTree Item) (item : Item)
  (w : world Item) : result ((bool * option error) * world Item) :=
  if negb (subTree_inRange st item) then Ok ((false, Some ErrorOutOfSubTreeRange), w)
  else on_tree (st_tree st) (rbTree_Insert fuel item) w.

(** [func (st *subTree) Remove(item Item) (bool, error)] *)
Definition subTree_Remove (fuel : nat) (st : subTree Item) (item : Item)
  (w : world Item) : result ((bool * option error) * world Item) :=
  if negb (subTree_inRange st item) then Ok ((false, Some ErrorOutOfSubTreeRange), w)
  else on_tree (st_tree st) (rbTree_Remove fuel item) w.

(** [func (st *subTree) Find(item Item) Item] *)
Definition subTree_Find (fuel : nat) (st : subTree Item) (item : Item)
  (w : world Item) : result (option Item * world Item) :=
  if negb (subTree_inRange st item) then Ok (None, w)
  else on_tree (st_tree st) (rbTree_Find fuel item) w.

(** [func (st *subTree) Min() Item] *)
Definition subTree_Min (fuel : nat) (st : subTree Item) (w : world Item)
  : result (option Item * world Item) :=
  on_tree (st_tree st)
    (do nd <- (do r <- get_root; liftR (node_ceiling fuel r (fromKey st)));
     if decide (nd = tNil) then ret None
     else load n_item nd) w.

(** [func (st *subTree) Max() Item] *)
Definition subTree_Max (fuel : nat) (st : subTree Item) (w : world Item)
  : result (option Item * world Item) :=
  on_tree (st_tree st)
    (do nd <- (do r <- get_root; liftR (node_floor fuel r (toKey st)));
     if decide (nd = tNil) then ret None
     else load n_item nd) w.

(** [func (st *subTree) NewIterator() Iterator] *)
Definition subTree_NewIterator (fuel : nat) (st : subTree Item) (w : world Item)
  : result (Iterator Item * world Item) :=
  on_tree (st_tree st)
    (do nd <- (do r <- get_root; liftR (node_ceiling fuel r (fromKey st)));
     ret (IterSub (mkSubIterator (mkIterator nd beforeFirst) (toKey st)))) w.

(** The traversal of a view by [assertEqualIntDataset]. *)
Definition subTree_items (fuel : nat) (st : subTree Item) (w : world Item)
  : result (list Item * world Item) :=
  rdo iw <- subTree_NewIterator fuel st w;
  rdo l <- iterate fuel iw.1 (w_cells iw.2);
  Ok (l, iw.2).

(** The loop [for iterator.Next() != nil { size++ }] of [subTree.Len];
    [fuel0] is the budget of each call of [Next]. *)
Fixpoint Len_loop (fuel0 fuel : nat) (it : Iterator Item) (size : Z) (h : heap)
  : result Z :=
  match fuel with
  | O => OutOfFuel
  | S f =>
    rdo r <- Iterator_Next fuel0 it h;
    match r.1 with
    | None => Ok size
    | Some _ => Len_loop fuel0 f r.2 (wrap_int (size + 1)) h
    end
  end.

(** [func (st *subTree) Len() int] *)
Definition subTree_Len (fuel : nat) (st : subTree Item) (w : world Item)
  : result (Z * world Item) :=
  rdo iw <- subTree_NewIterator fuel st w;
  rdo n <- Len_loop fuel fuel iw.1 0 (w_cells iw.2);
  Ok (n, iw.2).

(** [func (st *subTree) SubTree(fromKey, toKey Item) (Tree, error)] *)
Definition subTree_SubTree (st : subTree Item) (fromKey toKey : Item)
  : option (Tree Item) * option error :=
  if negb (subTree_inRange st fromKey) || negb (subTree_inRange st toKey)
  then (None, Some ErrorOutOfSubTreeRange)
  else rbTree_SubTree (st_tree st) fromKey toKey.

End Code.

(** The memory when the program starts: the sentinel only. *)
Definition world0 {Item} : world Item :=
  mkWorld ∅ {[ tNil := tNil_node ]} 2%nat.

(** [type IntItem int] with [Less] the order of the integers. *)
Definition IntItem := Z.
Definition IntItem_Less (a b : IntItem) : bool := Z.ltb a b.

(** ** The scenarios of the tests *)

(** [tree := New()] as the first statement of a test: the address of the
    tree, the memory, and the store the methods of the tree work on. *)
Definition rb1 : addr := (New (Item:=IntItem) world0).1.
Definition world1 : world IntItem := (New world0).2.
Definition store1 : store IntItem := mkStore tNil 0 {[ tNil := tNil_node ]} 3%nat.

(** The sequences the tests insert: [TestInsert], [TestRemove] and
    [TestLength] use the first, the other tests the second. *)
Definition seq6 : list IntItem := [41; 38; 31; 12; 19; 8].
Definition seq18 : list IntItem :=
  [41; 38; 31; 12; 19; 8; 9; 32; 6; 100; 2; -1; 57; 23; 21; 0; 0; 1].

(** The store and the memory after the loop that inserts [seq]. *)
Definition store_of (seq : list IntItem) : store IntItem :=
  match insert_all IntItem_Less 50 seq store1 with
  | Ok (_, s) => s
  | _ => store1
  end.

Definition world_of (seq : list IntItem) : world IntItem :=
  match on_tree rb1 (insert_all IntItem_Less 50 seq) world1 with
  | Ok (_, w) => w
  | _ => world1
  end.

(** ** The abstraction: the tree a store holds *)

Section Abstraction.
Context {Item : Type}.
Variable less : Item → Item → bool.

Abbreviation heap := (gmap addr (node Item)).

(** A binary tree whose nodes remember the address they live at. *)
Inductive tree :=
| Leaf
| Nd (c : color) (l : tree) (a : addr) (k : Item) (r : tree).

(** The pointer that stands for a tree: the sentinel for the empty one. *)
Definition ptr (t : tree) : addr :=
  match t with Leaf => tNil | Nd _ _ a _ _ => a end.

Definition tcolor (t : tree) : color :=
  match t with Leaf => black | Nd c _ _ _ _ => c end.

Fixpoint inorder (t : tree) : list Item :=
  match t with
  | Leaf => []
  | Nd _ l _ k r => inorder l ++ k :: inorder r
  end.

Fixpoint addrs (t : tree) : list addr :=
  match t with
  | Leaf => []
  | Nd _ l a _ r => addrs l ++ a :: addrs r
  end.

Fixpoint size (t : tree) : nat :=
  match t with
  | Leaf => 0
  | Nd _ l _ _ r => S (size l + size r)
  end.

(** [rep h par t]: the store [h] holds the tree [t] below a node at [par]:
    every node of [t] is the cell at its address, with the links to its
    children and to its parent. *)
Fixpoint rep (h : heap) (par : addr) (t : tree) : Prop :=
  match t with
  | Leaf => True
  | Nd c l a k r =>
    h !! a = Some (mkNode c (Some k) (ptr l) (ptr r) par) ∧ rep h a l ∧ rep h a r
  end.

(** One step of a path from a node up to the root: the parent, and the
    sibling subtree.  [FL]: the path comes from the left child. *)
Inductive frame :=
| FL (c : color) (a : addr) (k : Item) (r : tree)
| FR (c : color) (l : tree) (a : addr) (k : Item).

Definition fill (f : frame) (t : tree) : tree :=
  match f with
  | FL c a k r => Nd c t a k r
  | FR c l a k => Nd c l a k t
  end.

Definition faddr (f : frame) : addr :=
  match f with FL _ a _ _ => a | FR _ _ a _ => a end.

Definition fcolor (f : frame) : color :=
  match f with FL c _ _ _ => c | FR c _ _ _ => c end.

Definition fsib (f : frame) : tree :=
  match f with FL _ _ _ r => r | FR _ l _ _ => l end.

(** The tree around a subtree: the path from it to the root, nearest frame
    first. *)
Fixpoint plug (cs : list frame) (t : tree) : tree :=
  match cs with
  | [] => t
  | f :: cs' => plug cs' (fill f t)
  end.

(** The parent pointer of the subtree in the hole. *)
Definition cpar (cs : list frame) : addr :=
  match cs with [] => tNil | f :: _ => faddr f end.

(** The items before and after the hole, in order. *)
Fixpoint ctx_before (cs : list frame) : list Item :=
  match cs with
  | [] => []
  | FL _ _ _ _ :: cs' => ctx_before cs'
  | FR _ l _ k :: cs' => ctx_before cs' ++ inorder l ++ [k]
  end.

Fixpoint ctx_after (cs : list frame) : list Item :=
  match cs with
  | [] => []
  | FL _ _ k r :: cs' => k :: inorder r ++ ctx_after cs'
  | FR _ _ _ _ :: cs' => ctx_after cs'
  end.

Fixpoint ctx_addrs (cs : list frame) : list addr :=
  match cs with
  | [] => []
  | f :: cs' => faddr f :: addrs (fsib f) ++ ctx_addrs cs'
  end.

Fixpoint ctx_size (cs : list frame) : nat :=
  match cs with
  | [] => 0
  | f :: cs' => S (size (fsib f) + ctx_size cs')
  end.

(** The sentinel as the code relies on it: black, without an item, and with
    child links that are the Go nil pointer.  Its parent link is scratch
    space of [transplant] and [remove]. *)
Definition sentinel (h : heap) : Prop :=
  ∃ p, h !! tNil = Some (mkNode black None goNil goNil p).

(** [lt a b]: [a.Less(b)]. *)
Definition lt (a b : Item) : Prop := less a b = true.

(** Neither is less than the other: the items are equal for the tree. *)
Definition eqv (a b : Item) : Prop := less a b = false ∧ less b a = false.

(** The store holds the tree [t] as the tree of the receiver. *)
Record Rh (s : store Item) (t : tree) : Prop := mkRh {
  Rh_sentinel : sentinel (cells s);
  Rh_goNil : cells s !! goNil = None;
  Rh_alloc : map_Forall (λ a _, (a < next s)%nat) (cells s);
  Rh_root : root s = ptr t;
  Rh_rep : rep (cells s) tNil t;
  Rh_nodup : NoDup (addrs t)
}.

(** The red-black properties of the spec: no red node has a red child, and
    every path to a leaf has [n] black nodes. *)
Fixpoint no_red_red (t : tree) : Prop :=
  match t with
  | Leaf => True
  | Nd c l _ _ r =>
    (c = red → tcolor l = black ∧ tcolor r = black) ∧ no_red_red l ∧ no_red_red r
  end.

Fixpoint black_height (n : nat) (t : tree) : Prop :=
  match t with
  | Leaf => n = 0%nat
  | Nd red l _ _ r => black_height n l ∧ black_height n r
  | Nd black l _ _ r =>
    match n with
    | O => False
    | S m => black_height m l ∧ black_height m r
    end
  end.

(** Strictly ascending for [Less]. *)
Definition ascending (l : list Item) : Prop := StronglySorted lt l.

(** The invariant of a tree object: its store holds a search tree with a
    black root, and [length] counts the nodes. *)
Record Inv (s : store Item) (t : tree) : Prop := mkInv {
  Inv_Rh : Rh s t;
  Inv_length : length s = wrap_int (Z.of_nat (size t));
  Inv_bst : ascending (inorder t);
  Inv_root_black : tcolor t = black
}.

(** The red-black invariants of the spec, for the tree a store holds. *)
Definition red_black (t : tree) : Prop :=
  tcolor t = black ∧ no_red_red t ∧ (∃ n, black_height n t) ∧ ascending (inorder t).

(** The position [find] stops at: the path taken from the root, and the
    subtree there, a leaf when no item is equal to [key]. *)
Fixpoint descend (key : Item) (cs : list frame) (t : tree) : list frame * tree :=
  match t with
  | Leaf => (cs, Leaf)
  | Nd c l a k r =>
    if less key k then descend key (FL c a k r :: cs) l
    else if less k key then descend key (FR c l a k :: cs) r
    else (cs, t)
  end.

Definition blacken (t : tree) : tree :=
  match t with
  | Leaf => Leaf
  | Nd _ l a k r => Nd black l a k r
  end.

(** What [insertFixup] makes of the tree [plug cs z], started at the root of
    [z]: the cases of the loop, on the two frames above [z]. *)
Fixpoint ins_fix (cs : list frame) (z : tree) : tree :=
  match cs with
  | [] => blacken z
  | f1 :: cs1 =>
    match fcolor f1 with
    | black => blacken (plug cs z)
    | red =>
      match cs1 with
      | [] => blacken (plug cs z)
      | f2 :: cs2 =>
        match f2 with
        | FL cg g kg u =>
          match tcolor u with
          | red => ins_fix cs2 (Nd red (blacken (fill f1 z)) g kg (blacken u))
          | black =>
            match f1 with
            | FL _ p kp rp =>
              blacken (plug cs2 (Nd black z p kp (Nd red rp g kg u)))
            | FR _ lp p kp =>
              match z with
              | Leaf => blacken (plug cs z)
              | Nd _ zl za zk zr =>
                blacken (plug cs2 (Nd black (Nd red lp p kp zl) za zk (Nd red zr g kg u)))
              end
            end
          end
        | FR cg u g kg =>
          match tcolor u with
          | red => ins_fix cs2 (Nd red (blacken u) g kg (blacken (fill f1 z)))
          | black =>
            match f1 with
            | FR _ lp p kp =>
              blacken (plug cs2 (Nd black (Nd red u g kg lp) p kp z))
            | FL _ p kp rp =>
              match z with
              | Leaf => blacken (plug cs z)
              | Nd _ zl za zk zr =>
                blacken (plug cs2 (Nd black (Nd red u g kg zl) za zk (Nd red zr p kp rp)))
              end
            end
          end
        end
      end
    end
  end.

End Abstraction.

Arguments Leaf {Item}.

(** [Less] is a strict weak order: asymmetric, and an item between two
    ordered ones is ordered with one of them.  Every strict total order is
    one. *)
Class LessOrder {Item : Type} (less : Item → Item → bool) : Prop := {
  less_asym : ∀ a b, less a b = true → less b a = false;
  less_cotrans : ∀ a b c, less a c = true → less a b = true ∨ less b c = true
}.

(** ** The vocabulary of the specifications *)

(** The comparisons made along a search path for [key]. *)
Definition path_ok {Item} (less : Item → Item → bool) (key : Item)
    (cs : list (frame (Item:=Item))) : Prop :=
  Forall (λ f, match f with
               | FL _ _ k _ => lt less key k
               | FR _ _ _ k => lt less k key
               end) cs.

(** The root is black unless the path is empty. *)
Definition root_ok {Item} (cs : list (frame (Item:=Item))) : Prop :=
  match last cs with Some f => fcolor f = black | None => True end.

(** The statements of [insert] that link the new leaf [z] below [y]. *)
Definition link {Item} (less : Item → Item → bool) (z y : addr) : M Item unit :=
  set_parent z y;;
  (if decide (y = tNil) then set_root z
   else
     (do lt <- (do zi <- load n_item z; do yi <- load n_item y; liftR (λ _, Less less zi yi));
      if lt then set_left y z else set_right y z));;
  set_color z red;;
  set_left z tNil;;
  set_right z tNil.

(** The tree after [insert], the node that holds the item, and whether the
    node was linked in. *)
Definition ins_tree {Item} (less : Item → Item → bool) (key : Item) (z : addr)
    (t : tree (Item:=Item)) : tree :=
  match descend less key [] t with
  | (cs, Leaf) => ins_fix cs (Nd red Leaf z key Leaf)
  | (cs, Nd c l a k r) => plug cs (Nd c l a key r)
  end.

Definition ins_node {Item} (less : Item → Item → bool) (key : Item) (z : addr)
    (t : tree (Item:=Item)) : addr :=
  match (descend less key [] t).2 with
  | Leaf => z
  | Nd c l a k r => a
  end.

Definition ins_fresh {Item} (less : Item → Item → bool) (key : Item)
    (t : tree (Item:=Item)) : bool :=
  match (descend less key [] t).2 with Leaf => true | _ => false end.

(** The tree after a sequence of inserts; [z] is the next free address. *)
Fixpoint ins_all {Item} (less : Item → Item → bool) (seq : list Item) (z : addr)
    (t : tree (Item:=Item)) : tree :=
  match seq with
  | [] => t
  | item :: rest => ins_all less rest (S z) (ins_tree less item z t)
  end.

(** Pairwise different for the order. *)
Definition distinct {Item} (less : Item → Item → bool) (seq : list Item) : Prop :=
  ForallOrdPairs (λ a b, ¬ eqv less a b) seq.

(** The position of the least item of a subtree. *)
Fixpoint leftmost {Item} (cs : list (frame (Item:=Item))) (t : tree (Item:=Item))
    : list (frame (Item:=Item)) * tree (Item:=Item) :=
  match t with
  | Leaf => (cs, Leaf)
  | Nd c l a k r =>
    match l with
    | Leaf => (cs, t)
    | Nd _ _ _ _ _ => leftmost (FL c a k r :: cs) l
    end
  end.

(** The iterator stands on the node at [z], and [rest] is still to come. *)
Definition at_pos {Item} (whole : tree (Item:=Item)) (z : addr) (rest : list Item) : Prop :=
  ∃ cs c l k r, plug cs (Nd c l z k r) = whole ∧ rest = inorder r ++ ctx_after cs.

(** The iterator stands before the node at [z]. *)
Definition before_pos {Item} (whole : tree (Item:=Item)) (z : addr) (items : list Item)
    : Prop :=
  ∃ cs c l k r, plug cs (Nd c l z k r) = whole ∧ items = k :: inorder r ++ ctx_after cs.

(** What [ceiling] finds: the items split into those below [key] and the
    rest, and the node of the first item of the rest. *)
Definition ceil_post {Item} (less : Item → Item → bool) (whole : tree (Item:=Item))
    (key : Item) (z : addr) : Prop :=
  ∃ pre post, inorder whole = pre ++ post ∧ Forall (λ y, lt less y key) pre ∧
    match post with
    | [] => z = tNil
    | k' :: _ => less k' key = false ∧ before_pos whole z post
    end.

(** What [floor] finds: the items split into a first part and those above
    [key], and the node of the last item of the first part. *)
Definition floor_post {Item} (less : Item → Item → bool) (whole : tree (Item:=Item))
    (key : Item) (z : addr) : Prop :=
  ∃ pre post, inorder whole = pre ++ post ∧ Forall (lt less key) post ∧
    ((pre = [] ∧ z = tNil) ∨
     (∃ pre' k' cs c l r, pre = pre' ++ [k'] ∧ less key k' = false ∧
        plug cs (Nd c l z k' r) = whole)).

(** The longest prefix whose elements satisfy [p]. *)
Fixpoint take_while {A} (p : A → bool) (l : list A) : list A :=
  match l with
  | [] => []
  | x :: l' => if p x then x :: take_while p l' else []
  end.

(** The items with the colours of their nodes, in order. *)
Fixpoint colored {Item} (t : tree (Item:=Item)) : list (Item * color) :=
  match t with
  | Leaf => []
  | Nd c l _ k r => colored l ++ (k, c) :: colored r
  end.

(** A fact kept out of the reach of the tactics that split hypotheses. *)
Definition hide (P : Prop) : Prop := P.

(** The trees the stores of the scenarios hold. *)
Definition tree6 : tree (Item:=IntItem) :=
  Eval vm_compute in ins_all IntItem_Less seq6 3%nat Leaf.
Definition tree18 : tree (Item:=IntItem) :=
  Eval vm_compute in ins_all IntItem_Less seq18 3%nat Leaf.

(** The view of [TestSubTreeIterator] and the view of [TestSubTree]. *)
Definition view_5_31 : subTree IntItem := mkSubTree rb1 5 31.
Definition view_11_1000 : subTree IntItem := mkSubTree rb1 11 1000.

(** The scenario of [Remove] that goes through case 3 of [removeFixup] and
    returns: the tree before, and the tree the store holds after the
    [Remove] of 2. *)
Definition seq_case3 : list IntItem := [1; 2; 3; 4; 6; 5].

Definition tree_case3 : tree (Item:=IntItem) :=
  Eval vm_compute in ins_all IntItem_Less seq_case3 3%nat Leaf.

Definition tree_case3_removed : tree (Item:=IntItem) :=
  Nd black (Nd black (Nd black Leaf 3%nat 1 Leaf) 5%nat 3 Leaf) 6%nat 4
     (Nd black Leaf 8%nat 5 (Nd black Leaf 7%nat 6 Leaf)).

(** The red-black properties of the tree around a hole, for a hole that
    holds a tree of black height [n]: every sibling on the way up is a
    red-black tree of the height of its level, and a red node on the path
    has a black sibling subtree root and a black parent. *)
Fixpoint ctx_rb {Item} (n : nat) (cs : list (frame (Item:=Item))) : Prop :=
  match cs with
  | [] => True
  | f :: cs' =>
    no_red_red (fsib f) ∧ black_height n (fsib f) ∧
    (fcolor f = red →
       tcolor (fsib f) = black ∧
       match cs' with [] => True | f' :: _ => fcolor f' = black end) ∧
    ctx_rb (match fcolor f with red => n | black => S n end) cs'
  end.

(** A red node over two black-rooted red-black trees of black height [n]:
    the node [insertFixup] stands on. *)
Definition red_node {Item} (n : nat) (z : tree (Item:=Item)) : Prop :=
  match z with
  | Leaf => False
  | Nd c l _ _ r =>
    c = red ∧ tcolor l = black ∧ tcolor r = black ∧
    no_red_red l ∧ no_red_red r ∧ black_height n l ∧ black_height n r
  end.

(** Equality of items as the code decides it: neither is less than the
    other. *)
Definition eqvb {Item} (less : Item → Item → bool) (a b : Item) : bool :=
  negb (less a b) && negb (less b a).

(** The number of nodes on the longest path from the root down. *)
Fixpoint height {Item} (t : tree (Item:=Item)) : nat :=
  match t with
  | Leaf => 0
  | Nd _ l _ _ r => S (Nat.max (height l) (height r))
  end.

(** The position of the greatest item of a subtree. *)
Fixpoint rightmost {Item} (cs : list (frame (Item:=Item))) (t : tree (Item:=Item))
    : list (frame (Item:=Item)) * tree (Item:=Item) :=
  match t with
  | Leaf => (cs, Leaf)
  | Nd c l a k r =>
    match r with
    | Leaf => (cs, t)
    | Nd _ _ _ _ _ => rightmost (FR c l a k :: cs) r
    end
  end.

(** A client that calls [Next] [n] times and then once more: what the last
    call returns, and the iterator after it. *)
Fixpoint nth_Next {Item} (less : Item → Item → bool) (fuel n : nat)
    (it : Iterator Item) (h : gmap addr (node Item))
    : result (option Item * Iterator Item) :=
  match n with
  | O => Iterator_Next less fuel it h
  | S m => rdo r <- Iterator_Next less fuel it h; nth_Next less fuel m r.2 h
  end.

(** The iterator is at its end: past the rear, or on the sentinel. *)
Definition ended (it : iterator) : Prop :=
  it_state it = pastRear ∨ it_node it = tNil.

(** The memory as the program keeps it: the sentinel is there, the nil
    pointer is not, and the allocator is past every object. *)
Definition world_ok {Item} (w : world Item) : Prop :=
  sentinel (w_cells w) ∧ w_cells w !! goNil = None ∧
  map_Forall (λ a _, (a < w_next w)%nat) (w_cells w) ∧
  map_Forall (λ a _, (a < w_next w)%nat) (trees w).

(** The store with further cells [h2] beside its own. *)
Definition with_cells {Item} (s : store Item) (h2 : gmap addr (node Item)) : store Item :=
  mkStore (root s) (length s) (cells s ∪ h2) (next s).

(** The further cells are apart from the cells of the store, and behind the
    allocator. *)
Definition apart {Item} (s : store Item) (h2 : gmap addr (node Item)) : Prop :=
  cells s ##ₘ h2 ∧ map_Forall (λ a _, (a < next s)%nat) h2.

(** Code that runs in the same way beside further cells, and leaves them as
    they are. *)
Definition local {Item A} (m : M Item A) : Prop :=
  ∀ s h2 a s', apart s h2 → m s = Ok (a, s') →
    m (with_cells s h2) = Ok (a, with_cells s' h2) ∧ apart s' h2.

(** Reading code that reads the same beside further cells. *)
Definition mono {Item A} (r : R Item A) : Prop :=
  ∀ h h2 a, h ##ₘ h2 → r h = Ok a → r (h ∪ h2) = Ok a.

(** Further scenarios: three items in one tree, and two trees in one
    program. *)
Definition seq3 : list IntItem := [1; 2; 3].

Definition tree3 : tree (Item:=IntItem) :=
  Eval vm_compute in ins_all IntItem_Less seq3 3%nat Leaf.

Definition rb2 : addr := (New (Item:=IntItem) world1).1.

Definition world2 : world IntItem :=
  match on_tree rb1 (insert_all IntItem_Less 50 seq3) (New world1).2 with
  | Ok (_, w) =>
    match on_tree rb2 (insert_all IntItem_Less 50 [10; 20]) w with
    | Ok (_, w') => w'
    | _ => w
    end
  | _ => world1
  end.

Definition store2a : store IntItem :=
  match view rb1 world2 with Some s => s | None => store1 end.

Definition store2b : store IntItem :=
  match view rb2 world2 with Some s => s | None => store1 end.

Definition tree2a : tree (Item:=IntItem) :=
  Nd black (Nd red Leaf 4%nat 1 Leaf) 5%nat 2 (Nd red Leaf 6%nat 3 Leaf).

Definition tree2b : tree (Item:=IntItem) :=
  Nd black Leaf 7%nat 10 (Nd red Leaf 8%nat 20 Leaf).

(** An item type as a client of the package declares one: a key with a
    payload, and [Less] on the keys alone, so that two items can be equal
    for the tree and still differ.  [type KeyedItem struct { key, val int }]
    with [func (el KeyedItem) Less(other Item) bool] that returns
    [el.key < other.(KeyedItem).key]. *)
Definition KeyedItem : Type := Z * Z.
Definition KeyedItem_Less (a b : KeyedItem) : bool := Z.ltb a.1 b.1.

(** [tree := New()] and the [Insert] of the items (1, 10) and (2, 20). *)
Definition keyed_store : store KeyedItem :=
  match insert_all KeyedItem_Less 50 [(1, 10); (2, 20)]
          (mkStore tNil 0 {[ tNil := tNil_node ]} 3%nat) with
  | Ok (_, s) => s
  | _ => mkStore tNil 0 {[ tNil := tNil_node ]} 3%nat
  end.

Definition keyed_tree : tree (Item:=KeyedItem) :=
  Nd black Leaf 3%nat (1, 10) (Nd red Leaf 4%nat (2, 20) Leaf).

(** The tree [Insert] of 2, 1, 4, 3 builds from a new one. *)
Definition seq_panic : list IntItem := [2; 1; 4; 3].

Definition tree_panic : tree (Item:=IntItem) :=
  Nd black (Nd black Leaf 4%nat 1 Leaf) 3%nat 2
     (Nd black (Nd red Leaf 6%nat 3 Leaf) 5%nat 4 Leaf).

(** ** Proofs: trees, paths and stores *)

Section Basics.
Context {Item : Type}.
Implicit Types (t s l r : tree (Item:=Item)) (cs : list (frame (Item:=Item))).
Implicit Types (h : gmap addr (node Item)).

Lemma inorder_plug cs t :
  inorder (plug cs t) = ctx_before cs ++ inorder t ++ ctx_after cs.
Proof.
  revert t. induction cs as [|[c a k r|c l a k] cs IH]; intros t; simpl.
  - by rewrite app_nil_r.
  - rewrite IH. simpl. by rewrite <- !app_assoc.
  - rewrite IH. simpl. by rewrite <- !app_assoc.
Qed.

Lemma addrs_plug cs t : addrs (plug cs t) ≡ₚ addrs t ++ ctx_addrs cs.
Proof.
  revert t. induction cs as [|[c a k r|c l a k] cs IH]; intros t; simpl.
  - by rewrite app_nil_r.
  - rewrite IH. simpl. by rewrite <- app_assoc.
  - rewrite IH. simpl. rewrite <- app_assoc. simpl.
    rewrite <- (Permutation_middle (addrs t)).
    rewrite <- (Permutation_middle (addrs l)).
    f_equiv. rewrite !app_assoc. f_equiv. apply Permutation_app_comm.
Qed.

Lemma size_plug cs t : size (plug cs t) = (size t + ctx_size cs)%nat.
Proof.
  revert t. induction cs as [|[c a k r|c l a k] cs IH]; intros t; simpl;
    rewrite ?IH; simpl; lia.
Qed.

Lemma size_inorder t : size t = List.length (inorder t).
Proof.
  induction t; simpl; [done|]. rewrite length_app. simpl. lia.
Qed.

Lemma ctx_size_length cs : (List.length cs ≤ ctx_size cs)%nat.
Proof. induction cs; simpl; lia. Qed.

Lemma ptr_fill f t : ptr (fill f t) = faddr f.
Proof. by destruct f. Qed.

Lemma plug_app cs1 cs2 t : plug (cs1 ++ cs2) t = plug cs2 (plug cs1 t).
Proof. revert t. induction cs1; intros; simpl; auto. Qed.

(** The store outside a tree does not matter. *)
Lemma rep_ext h h' par t :
  (∀ a, a ∈ addrs t → h' !! a = h !! a) → rep h par t → rep h' par t.
Proof.
  revert par. induction t as [|c l IHl a k r IHr]; intros par Hag; simpl; [done|].
  intros (Ha & Hl & Hr). split_and!.
  - rewrite Hag; [done|]. simpl. set_solver.
  - apply IHl; [|done]. intros b Hb. apply Hag. simpl. set_solver.
  - apply IHr; [|done]. intros b Hb. apply Hag. simpl. set_solver.
Qed.

Lemma rep_plug h par cs t :
  rep h par (plug cs t) → rep h (match cs with [] => par | f :: _ => faddr f end) t.
Proof.
  revert t. induction cs as [|f cs IH]; intros t; simpl; [done|].
  intros H. apply IH in H. destruct f; simpl in *; tauto.
Qed.

(** Replace the subtree in the hole by one with the same root pointer. *)
Lemma rep_replace h h' par cs t t' :
  rep h par (plug cs t) →
  (∀ a, a ∈ ctx_addrs cs → h' !! a = h !! a) →
  rep h' (match cs with [] => par | f :: _ => faddr f end) t' →
  ptr t' = ptr t →
  rep h' par (plug cs t').
Proof.
  revert t t'. induction cs as [|f cs IH]; intros t t' Hrep Hag Ht' Hptr; simpl in *; [done|].
  eapply IH; [exact Hrep| | |by rewrite !ptr_fill].
  - intros a Ha. apply Hag. set_solver.
  - apply rep_plug in Hrep.
    destruct f as [c a k r|c l a k]; simpl in *; destruct Hrep as (Ha & Hl & Hr).
    + split_and!; [rewrite Hag; [by rewrite Hptr|set_solver]|done|].
      eapply rep_ext; [|exact Hr]. intros b Hb. apply Hag. set_solver.
    + split_and!; [rewrite Hag; [by rewrite Hptr|set_solver]| |done].
      eapply rep_ext; [|exact Hl]. intros b Hb. apply Hag. set_solver.
Qed.

Lemma rep_lookup h cs c l a k r :
  rep h tNil (plug cs (Nd c l a k r)) →
  h !! a = Some (mkNode c (Some k) (ptr l) (ptr r) (cpar cs)).
Proof.
  intros H. apply rep_plug in H. destruct cs; simpl in *; tauto.
Qed.

Lemma rep_not_tNil h par t : sentinel h → rep h par t → tNil ∉ addrs t.
Proof.
  intros [p Hs]. revert par. induction t as [|c l IHl a k r IHr]; intros par; simpl.
  - set_solver.
  - intros (Ha & Hl & Hr) Hin.
    apply elem_of_app in Hin as [Hin|Hin]; [by eapply IHl|].
    apply elem_of_cons in Hin as [Heq|Hin]; [rewrite <- Heq in Ha; congruence|by eapply IHr].
Qed.

Lemma rep_not_goNil h par t : h !! goNil = None → rep h par t → goNil ∉ addrs t.
Proof.
  intros Hs. revert par. induction t as [|c l IHl a k r IHr]; intros par; simpl.
  - set_solver.
  - intros (Ha & Hl & Hr) Hin.
    apply elem_of_app in Hin as [Hin|Hin]; [by eapply IHl|].
    apply elem_of_cons in Hin as [Heq|Hin]; [rewrite <- Heq in Ha; congruence|by eapply IHr].
Qed.

Lemma rep_in_dom h par t a : rep h par t → a ∈ addrs t → is_Some (h !! a).
Proof.
  revert par. induction t as [|c l IHl b k r IHr]; intros par; simpl.
  - set_solver.
  - intros (Ha & Hl & Hr) Hin.
    apply elem_of_app in Hin as [Hin|Hin]; [by eapply IHl|].
    apply elem_of_cons in Hin as [->|Hin]; [by eexists|by eapply IHr].
Qed.

Lemma ptr_not_tNil h par t : sentinel h → rep h par t → t ≠ Leaf → ptr t ≠ tNil.
Proof.
  intros Hs Hr Ht. destruct t as [|c l a k r]; [done|]. simpl.
  intros Heq. eapply rep_not_tNil; [done|exact Hr|]. simpl. rewrite Heq. apply elem_of_app. right. constructor.
Qed.

Lemma ptr_tNil_Leaf h par t : sentinel h → rep h par t → ptr t = tNil → t = Leaf.
Proof.
  intros Hs Hr Hp. destruct t; [done|]. exfalso.
  eapply ptr_not_tNil; eauto.
Qed.

Lemma ptr_in_addrs t : t ≠ Leaf → ptr t ∈ addrs t.
Proof. destruct t; [done|]. intros _. simpl. set_solver. Qed.

End Basics.

(** ** Proofs: the order, and searching *)

Section Order.
Context {Item : Type} (less : Item → Item → bool) `{!LessOrder less}.
Implicit Types (t s l r : tree (Item:=Item)) (cs : list (frame (Item:=Item))).
Implicit Types (h : gmap addr (node Item)) (a b c key : Item).

Lemma less_irrefl a : less a a = false.
Proof.
  destruct (less a a) eqn:E; [|done]. by rewrite (less_asym a a E) in E.
Qed.

Lemma lt_trans a b c : lt less a b → lt less b c → lt less a c.
Proof.
  unfold lt. intros Hab Hbc.
  destruct (less_cotrans a c b Hab) as [H|H]; [done|].
  by rewrite (less_asym _ _ H) in Hbc.
Qed.

Global Instance lt_transitive : Transitive (lt less).
Proof. intros a b c. apply lt_trans. Qed.

Lemma lt_eqv_l a b c : eqv less a b → lt less b c → lt less a c.
Proof.
  unfold lt, eqv. intros [Hab Hba] Hbc.
  destruct (less_cotrans b a c Hbc) as [H|H]; [congruence|done].
Qed.

Lemma lt_eqv_r a b c : lt less a b → eqv less b c → lt less a c.
Proof.
  unfold lt, eqv. intros Hab [Hbc Hcb].
  destruct (less_cotrans a c b Hab) as [H|H]; [done|congruence].
Qed.

Lemma eqv_refl a : eqv less a a.
Proof. split; apply less_irrefl. Qed.

Lemma eqv_sym a b : eqv less a b → eqv less b a.
Proof. unfold eqv. tauto. Qed.

Lemma lt_not_eqv a b : lt less a b → ¬ eqv less a b.
Proof. unfold lt, eqv. intros H [? ?]. congruence. Qed.

Lemma lt_not_eqv' a b : lt less a b → ¬ eqv less b a.
Proof. unfold lt, eqv. intros H [? ?]. congruence. Qed.

(** Inserting into the gap of an ascending list. *)
Lemma ascending_insert (l1 l2 : list Item) x :
  ascending less (l1 ++ l2) →
  Forall (λ y, lt less y x) l1 → Forall (lt less x) l2 →
  ascending less (l1 ++ x :: l2).
Proof.
  unfold ascending. rewrite !StronglySorted_app, StronglySorted_cons.
  rewrite !Forall_forall. intros (H12 & H1 & H2) Hl Hr. split_and!; try done.
  intros x1 x2 Hx1 Hx2. apply elem_of_cons in Hx2 as [->|Hx2]; auto.
Qed.

Lemma ascending_replace (l1 l2 : list Item) x y :
  eqv less x y → ascending less (l1 ++ x :: l2) → ascending less (l1 ++ y :: l2).
Proof.
  unfold ascending. rewrite !StronglySorted_app, !StronglySorted_cons.
  rewrite !Forall_forall. intros He (H12 & H1 & Hx & H2). split_and!; try done.
  - intros x1 x2 Hx1 Hx2. apply elem_of_cons in Hx2 as [->|Hx2].
    + eapply lt_eqv_r; [|exact He]. apply H12; set_solver.
    + apply H12; set_solver.
  - intros z Hz. eapply lt_eqv_l; [apply eqv_sym, He|]. by apply Hx.
Qed.

Lemma descend_plug key t : ∀ cs,
  plug (descend less key cs t).1 (descend less key cs t).2 = plug cs t.
Proof.
  induction t as [|c l IHl a k r IHr]; intros cs; simpl; [done|].
  destruct (less key k); [by rewrite IHl|].
  destruct (less k key); [by rewrite IHr|done].
Qed.

Lemma descend_path_ok key t : ∀ cs,
  path_ok less key cs → path_ok less key (descend less key cs t).1.
Proof.
  induction t as [|c l IHl a k r IHr]; intros cs Hcs; simpl; [done|].
  destruct (less key k) eqn:E1; [apply IHl; by constructor|].
  destruct (less k key) eqn:E2; [apply IHr; by constructor|done].
Qed.

Lemma descend_found key t : ∀ cs,
  match (descend less key cs t).2 with
  | Leaf => True
  | Nd _ _ _ k _ => eqv less key k
  end.
Proof.
  induction t as [|c l IHl a k r IHr]; intros cs; simpl; [done|].
  destruct (less key k) eqn:E1; [apply IHl|].
  destruct (less k key) eqn:E2; [apply IHr|done].
Qed.

(** On a search tree the items left of the path are below the key and the
    items right of it above. *)
Lemma path_ok_bounds key cs t :
  path_ok less key cs → ascending less (inorder (plug cs t)) →
  Forall (λ y, lt less y key) (ctx_before cs) ∧ Forall (lt less key) (ctx_after cs).
Proof.
  revert t. induction cs as [|f cs IH]; intros t Hp Hs; simpl in *; [done|].
  apply Forall_cons in Hp as [Hf Hp].
  destruct (IH _ Hp Hs) as [IH1 IH2].
  rewrite inorder_plug in Hs. unfold ascending in Hs.
  apply StronglySorted_app_1_r, StronglySorted_app_1_l in Hs.
  destruct f as [c a k r|c l a k]; simpl in *.
  - split; [done|]. apply Forall_cons. split; [done|].
    apply Forall_app. split; [|done].
    apply (StronglySorted_app_1_r _ (inorder t)) in Hs.
    apply StronglySorted_cons in Hs as [Hs _].
    eapply Forall_impl; [exact Hs|]. intros y Hy. by etrans.
  - split; [|done]. rewrite app_assoc. apply Forall_app. split; [|by repeat constructor].
    apply Forall_app. split; [done|].
    apply Forall_forall. intros y Hy. etrans; [|exact Hf].
    eapply (StronglySorted_app_1_elem_of _ (inorder l)); [exact Hs|done|constructor].
Qed.

Lemma descend_missing key t :
  ascending less (inorder t) →
  (descend less key [] t).2 = Leaf →
  Forall (λ k, ¬ eqv less key k) (inorder t).
Proof.
  intros Hs Hd.
  pose proof (descend_plug key t []) as Hp. simpl in Hp.
  pose proof (descend_path_ok key t [] (Forall_nil_2 _)) as Hok.
  rewrite Hd in Hp. rewrite <- Hp in Hs |- *.
  destruct (path_ok_bounds _ _ _ Hok Hs) as [Hb Ha].
  rewrite inorder_plug. simpl. apply Forall_app. split.
  - eapply Forall_impl; [exact Hb|]. intros y Hy. by apply lt_not_eqv'.
  - eapply Forall_impl; [exact Ha|]. intros y Hy. by apply lt_not_eqv.
Qed.

(** [find] follows [descend]. *)
Lemma find_loop_descend h key t : ∀ cs fuel,
  sentinel h → rep h tNil (plug cs t) → (size t < fuel)%nat →
  find_loop less fuel (ptr t) (cpar cs) (Some key) h
  = Ok (ptr (descend less key cs t).2, cpar (descend less key cs t).1).
Proof.
  induction t as [|c l IHl a k r IHr]; intros cs fuel Hs Hrep Hf;
    (destruct fuel as [|fuel]; [lia|]); simpl.
  - destruct (decide (tNil ≠ tNil)); done.
  - assert (a ≠ tNil) as Ha.
    { apply rep_plug in Hrep. eapply (ptr_not_tNil _ _ (Nd c l a k r)); eauto. }
    destruct (decide (a ≠ tNil)); [|done].
    unfold deref. rewrite (rep_lookup _ _ _ _ _ _ _ Hrep). simpl.
    destruct (less key k) eqn:E1.
    { apply (IHl (FL c a k r :: cs)); [done|done|simpl in Hf; lia]. }
    destruct (less k key) eqn:E2.
    { apply (IHr (FR c l a k :: cs)); [done|done|simpl in Hf; lia]. }
    done.
Qed.

End Order.

(** ** Proofs: updating the store *)

(** *** Distinct addresses

    The addresses of a tree are pairwise distinct ([NoDup]); the tactics
    below split such a fact along the shape of the tree and read the
    inequalities between addresses off the pieces. *)

Lemma in_here {A} (x : A) (l : list A) : x ∈ x :: l.
Proof. apply elem_of_cons. by left. Qed.
Lemma in_further {A} (x y : A) (l : list A) : x ∈ l → x ∈ y :: l.
Proof. intros. apply elem_of_cons. by right. Qed.
Lemma in_app_l {A} (x : A) (l1 l2 : list A) : x ∈ l1 → x ∈ l1 ++ l2.
Proof. intros. apply elem_of_app. by left. Qed.
Lemma in_app_r {A} (x : A) (l1 l2 : list A) : x ∈ l2 → x ∈ l1 ++ l2.
Proof. intros. apply elem_of_app. by right. Qed.

Lemma ne_notin_l {A} (p q : A) (l : list A) : p ∉ l → q ∈ l → p ≠ q.
Proof. intros Hp Hq ->. done. Qed.
Lemma ne_notin_r {A} (p q : A) (l : list A) : q ∉ l → p ∈ l → p ≠ q.
Proof. intros Hp Hq ->. done. Qed.
Lemma ne_disj_l {A} (p q : A) (l1 l2 : list A) :
  (∀ x, x ∈ l1 → x ∉ l2) → p ∈ l1 → q ∈ l2 → p ≠ q.
Proof. intros H Hp Hq ->. by eapply H. Qed.
Lemma ne_disj_r {A} (p q : A) (l1 l2 : list A) :
  (∀ x, x ∈ l1 → x ∉ l2) → q ∈ l1 → p ∈ l2 → p ≠ q.
Proof. intros H Hp Hq ->. by eapply H. Qed.

Ltac in_tac :=
  solve [ assumption
        | apply in_here
        | apply in_further; in_tac
        | apply in_app_l; in_tac
        | apply in_app_r; in_tac ].

Lemma ptr_not_in {Item} (e : addr) (t : tree (Item:=Item)) :
  e ≠ tNil → e ∉ addrs t → e ≠ ptr t.
Proof. destruct t; simpl; set_solver. Qed.

Ltac notin_tac :=
  let Hin := fresh "Hin" in
  intros Hin;
  match goal with
  | H : ?p ∉ ?L |- _ => apply H; in_tac
  | H : ∀ x, x ∈ ?L1 → x ∉ ?L2, Hp : ?p ∈ _ |- _ => apply (H p); in_tac
  end.

Ltac neq_tac :=
  first
    [ assumption
    | apply not_eq_sym; assumption
    | match goal with
      | H : ∀ e, e ∈ ?L → e ≠ tNil |- ?p ≠ tNil => apply (H p); in_tac
      | H : ∀ e, e ∈ ?L → e ≠ tNil |- tNil ≠ ?p => apply not_eq_sym, (H p); in_tac
      | H : ∀ e, e ∈ ?L → e ≠ goNil |- ?p ≠ goNil => apply (H p); in_tac
      | H : ∀ e, e ∈ ?L → e ≠ goNil |- goNil ≠ ?p => apply not_eq_sym, (H p); in_tac
      | H : ?p ∉ ?L |- ?p ≠ ?q => apply (ne_notin_l p q L H); in_tac
      | H : ?q ∉ ?L |- ?p ≠ ?q => apply (ne_notin_r p q L H); in_tac
      | H : ∀ x, x ∈ ?L1 → x ∉ ?L2 |- ?p ≠ ?q =>
        first [ apply (ne_disj_l p q L1 L2 H); in_tac
              | apply (ne_disj_r p q L1 L2 H); in_tac ]
      | |- ?p ≠ ptr ?t => apply ptr_not_in; [neq_tac | notin_tac]
      | |- ptr ?t ≠ ?p => apply not_eq_sym, ptr_not_in; [neq_tac | notin_tac]
      end ].

Ltac nodup_split :=
  repeat match goal with
  | H : NoDup (_ ++ _) |- _ => apply NoDup_app in H as (? & ? & ?)
  | H : NoDup (_ :: _) |- _ => apply NoDup_cons in H as [? ?]
  | H : NoDup [] |- _ => clear H
  end.

Section Update.
Context {Item : Type}.
Implicit Types (t l r : tree (Item:=Item)) (cs : list (frame (Item:=Item))).
Implicit Types (h : gmap addr (node Item)).

Lemma sentinel_insert h a n : sentinel h → a ≠ tNil → sentinel (<[a:=n]> h).
Proof. intros [p Hp] Ha. exists p. by rewrite lookup_insert_ne. Qed.

Lemma goNil_insert h a (n : node Item) :
  h !! goNil = None → a ≠ goNil → <[a:=n]> h !! goNil = None.
Proof. intros. by rewrite lookup_insert_ne. Qed.

Lemma alloc_insert h a (n : node Item) (nx : addr) :
  map_Forall (λ a _, (a < nx)%nat) h → (a < nx)%nat →
  map_Forall (λ a _, (a < nx)%nat) (<[a:=n]> h).
Proof. intros H Ha. by apply map_Forall_insert_2. Qed.

Lemma alloc_lt h a (n : node Item) (nx : addr) :
  map_Forall (λ a _, (a < nx)%nat) h → h !! a = Some n → (a < nx)%nat.
Proof. intros H Ha. by apply (H a n). Qed.

Lemma ptr_plug cs t :
  ptr (plug cs t) = match last cs with None => ptr t | Some f => faddr f end.
Proof.
  revert t. induction cs as [|f cs IH]; intros t; simpl; [done|].
  rewrite IH. destruct cs as [|f0 cs]; [by rewrite ptr_fill|].
  rewrite last_cons_cons. destruct (last (f0 :: cs)) eqn:E; [done|].
  by apply last_None in E.
Qed.

Lemma ptr_plug_cons f cs t t' : ptr (plug (f :: cs) t) = ptr (plug (f :: cs) t').
Proof.
  rewrite !ptr_plug. destruct (last (f :: cs)) eqn:E; [done|].
  by apply last_None in E.
Qed.

(** The general step: the subtree in the hole is replaced, the cells of the
    path and of its siblings stay. *)
Lemma Rh_replace (s : store Item) cs sub sub' h' (rt' : addr) (nx' : addr) (n' : Z) :
  Rh s (plug cs sub) →
  sentinel h' → h' !! goNil = None → map_Forall (λ a _, (a < nx')%nat) h' →
  (∀ a, a ∈ ctx_addrs cs → h' !! a = cells s !! a) →
  rep h' (cpar cs) sub' →
  (cs ≠ [] → ptr sub' = ptr sub) →
  rt' = ptr (plug cs sub') →
  NoDup (addrs (plug cs sub')) →
  Rh (mkStore rt' n' h' nx') (plug cs sub').
Proof.
  intros [Hs Hg Ha Hr Hrep Hnd] Hs' Hg' Ha' Hag Hsub Hptr Hr' Hnd'.
  split; simpl; try done.
  destruct cs as [|f cs]; [done|].
  eapply (rep_replace _ _ _ (f :: cs)); eauto.
Qed.

Lemma Rh_lookup (s : store Item) cs c l a k r :
  Rh s (plug cs (Nd c l a k r)) →
  cells s !! a = Some (mkNode c (Some k) (ptr l) (ptr r) (cpar cs)).
Proof. intros H. eapply rep_lookup, H. Qed.

Lemma Rh_nodup_plug (s : store Item) cs sub :
  Rh s (plug cs sub) → NoDup (addrs sub ++ ctx_addrs cs).
Proof. intros H. rewrite <- addrs_plug. apply H. Qed.

Lemma Rh_ranges (s : store Item) cs sub :
  Rh s (plug cs sub) →
  (∀ e, e ∈ addrs sub ++ ctx_addrs cs → e ≠ tNil) ∧
  (∀ e, e ∈ addrs sub ++ ctx_addrs cs → e ≠ goNil) ∧
  (∀ e, e ∈ addrs sub ++ ctx_addrs cs → (e < next s)%nat).
Proof.
  intros H. split_and!; intros e He; rewrite <- addrs_plug in He.
  - intros ->. eapply rep_not_tNil; [apply H|apply H|done].
  - intros ->. eapply rep_not_goNil; [apply H|apply H|done].
  - destruct (rep_in_dom _ _ _ _ (Rh_rep _ _ H) He) as [n Hn].
    eapply alloc_lt; [apply H|done].
Qed.

Lemma Rh_addr_ne_tNil (s : store Item) t a : Rh s t → a ∈ addrs t → a ≠ tNil.
Proof.
  intros H Ha ->. eapply rep_not_tNil; [apply H|apply H|done].
Qed.

Lemma Rh_addr_ne_goNil (s : store Item) t a : Rh s t → a ∈ addrs t → a ≠ goNil.
Proof.
  intros H Ha ->. eapply rep_not_goNil; [apply H|apply H|done].
Qed.

Lemma Rh_addr_lt (s : store Item) t a : Rh s t → a ∈ addrs t → (a < next s)%nat.
Proof.
  intros H Ha. destruct (rep_in_dom _ _ _ _ (Rh_rep _ _ H) Ha) as [n Hn].
  eapply alloc_lt; [apply H|done].
Qed.

Lemma cpar_tNil (s : store Item) cs sub : Rh s (plug cs sub) → cpar cs = tNil → cs = [].
Proof.
  intros H Hc. destruct cs as [|f cs]; [done|]. exfalso. simpl in Hc.
  eapply (Rh_addr_ne_tNil _ _ (faddr f) H); [|done].
  rewrite addrs_plug. simpl. set_solver.
Qed.

(** A store holds one tree only. *)
Lemma rep_unique h : sentinel h → ∀ t t' par par',
  rep h par t → rep h par' t' → ptr t = ptr t' → t = t'.
Proof.
  intros Hs. induction t as [|c l IHl a k r IHr]; intros t' par par' Ht Ht' Hp.
  - symmetry. eapply ptr_tNil_Leaf; [exact Hs|exact Ht'|]. by rewrite <- Hp.
  - destruct t' as [|c' l' a' k' r'].
    + exfalso. eapply (ptr_not_tNil h par (Nd c l a k r)); [exact Hs|exact Ht|done|exact Hp].
    + simpl in Hp. subst a'. simpl in Ht, Ht'.
      destruct Ht as (Ha & Hl & Hr), Ht' as (Ha' & Hl' & Hr').
      rewrite Ha in Ha'. injection Ha' as -> -> Hpl Hpr _.
      f_equal; [eapply IHl|eapply IHr]; eauto.
Qed.

Lemma Rh_unique (s : store Item) t t' : Rh s t → Rh s t' → t = t'.
Proof.
  intros H H'. eapply rep_unique.
  - apply (Rh_sentinel _ _ H).
  - apply (Rh_rep _ _ H).
  - apply (Rh_rep _ _ H').
  - by rewrite <- (Rh_root _ _ H), <- (Rh_root _ _ H').
Qed.

End Update.

(** ** Proofs: rotations *)

(** Lookups in a store that is a sequence of updates of a known one. *)
Ltac heap_lookup :=
  repeat first
    [ rewrite lookup_insert_eq
    | rewrite lookup_insert_ne by neq_tac
    | match goal with
      | H : ?h !! ?p = Some _ |- context [?h !! ?p] => rewrite H
      end ].

Ltac mrun :=
  repeat (progress (unfold bind, load, modify, set_color, set_item, set_left,
                    set_right, set_parent, get_root, set_root, ret, grandparent;
                    cbn [cells root length next n_color n_item n_left n_right n_parent fst snd];
                    heap_lookup)).

(** Case analysis on the next [decide] of the running code. *)
Ltac mdec :=
  match goal with
  | |- context [decide ?P] =>
    let E := fresh "E" in
    destruct (decide P) as [E|E];
    try (exfalso;
         first [ done | congruence | apply E; neq_tac
               | match type of E with
                 | ?p = ?q => assert (p ≠ q) by neq_tac; done
                 end ])
  end.

Ltac mgo := repeat (progress (mrun; simpl; try mdec)).

Ltac norm_app := repeat (rewrite <- app_assoc; simpl).
Ltac norm_app_in H := repeat (rewrite <- app_assoc in H; simpl in H).

(** The side conditions of [Rh_replace] for a store that is a sequence of
    updates. *)
Ltac ext_tac :=
  eapply rep_ext; [|eassumption];
  let e := fresh "e" in let He := fresh "He" in
  intros e He; rewrite !lookup_insert_ne by neq_tac; done.

Ltac sentinel_tac := repeat (apply sentinel_insert; [|neq_tac]); assumption.
Ltac goNil_tac := repeat (apply goNil_insert; [|neq_tac]); assumption.
Ltac alloc_tac :=
  repeat (apply alloc_insert;
          [|first [ assumption
                  | match goal with
                    | H : ∀ e, e ∈ ?L → (e < _)%nat |- (?p < _)%nat => apply (H p); in_tac
                    end ]]);
  assumption.
Ltac agree_tac :=
  let e := fresh "e" in let He := fresh "He" in
  intros e He; simpl in He; rewrite ?lookup_insert_ne by neq_tac; done.
Ltac rep_tac := simpl; split_and!; heap_lookup; try done; ext_tac.

Ltac rh_tac := [> sentinel_tac | goNil_tac | alloc_tac | agree_tac | rep_tac | done | | ].

Section Rotate.
Context {Item : Type}.
Implicit Types (t l r : tree (Item:=Item)) (cs : list (frame (Item:=Item))).
Implicit Types (h : gmap addr (node Item)).

Lemma leftRotate_spec (s : store Item) cs cx a x kx cy b y ky c :
  Rh s (plug cs (Nd cx a x kx (Nd cy b y ky c))) →
  ∃ s', leftRotate x s = Ok (tt, s') ∧
        Rh s' (plug cs (Nd cy (Nd cx a x kx b) y ky c)) ∧
        length s' = length s ∧ next s' = next s.
Proof.
  intros HR.
  pose proof (Rh_nodup_plug _ _ _ HR) as Hnd.
  destruct (Rh_ranges _ _ _ HR) as (HnT & HnG & Hlt).
  assert (hide (NoDup (addrs (plug cs (Nd cy (Nd cx a x kx b) y ky c))))) as Hnd0.
  { unfold hide. rewrite addrs_plug. simpl. simpl in Hnd. norm_app. norm_app_in Hnd. done. }
  destruct s as [rt n h nx].
  pose proof HR as [Hs Hg Hal Hrt Hrep _]. simpl in Hs, Hg, Hal, Hrt, Hrep, Hlt.
  destruct b as [|cb bl pb kb br]; destruct cs as [|[cf pf kf rf|cf lf pf kf] cs];
    simpl in Hnd, HnT, HnG, Hlt; nodup_split;
    (apply (rep_plug _ _ cs) in Hrep as Hrepf || pose proof Hrep as Hrepf);
    simpl in Hrepf; destruct_and?;
    (eexists; split; [unfold leftRotate; mgo; reflexivity|]; split; [|done]).
  - eapply (Rh_replace _ [] _ (Nd cy (Nd cx a x kx _) y ky c)); [exact HR|..]; rh_tac.
    + done.
    + exact Hnd0.
  - eapply (Rh_replace _ cs _ (Nd cf (Nd cy (Nd cx a x kx _) y ky c) pf kf rf)); [exact HR|..]; rh_tac.
    + rewrite Hrt. exact (ptr_plug_cons (FL cf pf kf rf) cs _ (Nd cy (Nd cx a x kx _) y ky c)).
    + exact Hnd0.
  - eapply (Rh_replace _ cs _ (Nd cf lf pf kf (Nd cy (Nd cx a x kx _) y ky c))); [exact HR|..]; rh_tac.
    + rewrite Hrt. exact (ptr_plug_cons (FR cf lf pf kf) cs _ (Nd cy (Nd cx a x kx _) y ky c)).
    + exact Hnd0.
  - eapply (Rh_replace _ [] _ (Nd cy (Nd cx a x kx _) y ky c)); [exact HR|..]; rh_tac.
    + done.
    + exact Hnd0.
  - eapply (Rh_replace _ cs _ (Nd cf (Nd cy (Nd cx a x kx _) y ky c) pf kf rf)); [exact HR|..]; rh_tac.
    + rewrite Hrt. exact (ptr_plug_cons (FL cf pf kf rf) cs _ (Nd cy (Nd cx a x kx _) y ky c)).
    + exact Hnd0.
  - eapply (Rh_replace _ cs _ (Nd cf lf pf kf (Nd cy (Nd cx a x kx _) y ky c))); [exact HR|..]; rh_tac.
    + rewrite Hrt. exact (ptr_plug_cons (FR cf lf pf kf) cs _ (Nd cy (Nd cx a x kx _) y ky c)).
    + exact Hnd0.
Qed.

Lemma rightRotate_spec (s : store Item) cs cx a x kx cy b y ky c :
  Rh s (plug cs (Nd cy (Nd cx a x kx b) y ky c)) →
  ∃ s', rightRotate y s = Ok (tt, s') ∧
        Rh s' (plug cs (Nd cx a x kx (Nd cy b y ky c))) ∧
        length s' = length s ∧ next s' = next s.
Proof.
  intros HR.
  pose proof (Rh_nodup_plug _ _ _ HR) as Hnd.
  destruct (Rh_ranges _ _ _ HR) as (HnT & HnG & Hlt).
  assert (hide (NoDup (addrs (plug cs (Nd cx a x kx (Nd cy b y ky c)))))) as Hnd0.
  { unfold hide. rewrite addrs_plug. simpl. simpl in Hnd. norm_app. norm_app_in Hnd. done. }
  destruct s as [rt n h nx].
  pose proof HR as [Hs Hg Hal Hrt Hrep _]. simpl in Hs, Hg, Hal, Hrt, Hrep, Hlt.
  destruct b as [|cb bl pb kb br]; destruct cs as [|[cf pf kf rf|cf lf pf kf] cs];
    simpl in Hnd, HnT, HnG, Hlt; nodup_split;
    (apply (rep_plug _ _ cs) in Hrep as Hrepf || pose proof Hrep as Hrepf);
    simpl in Hrepf; destruct_and?;
    (eexists; split; [unfold rightRotate; mgo; reflexivity|]; split; [|done]).
  - eapply (Rh_replace _ [] _ (Nd cx a x kx (Nd cy _ y ky c))); [exact HR|..]; rh_tac.
    + done.
    + exact Hnd0.
  - eapply (Rh_replace _ cs _ (Nd cf (Nd cx a x kx (Nd cy _ y ky c)) pf kf rf)); [exact HR|..]; rh_tac.
    + rewrite Hrt. exact (ptr_plug_cons (FL cf pf kf rf) cs _ (Nd cx a x kx (Nd cy _ y ky c))).
    + exact Hnd0.
  - eapply (Rh_replace _ cs _ (Nd cf lf pf kf (Nd cx a x kx (Nd cy _ y ky c)))); [exact HR|..]; rh_tac.
    + rewrite Hrt. exact (ptr_plug_cons (FR cf lf pf kf) cs _ (Nd cx a x kx (Nd cy _ y ky c))).
    + exact Hnd0.
  - eapply (Rh_replace _ [] _ (Nd cx a x kx (Nd cy _ y ky c))); [exact HR|..]; rh_tac.
    + done.
    + exact Hnd0.
  - eapply (Rh_replace _ cs _ (Nd cf (Nd cx a x kx (Nd cy _ y ky c)) pf kf rf)); [exact HR|..]; rh_tac.
    + rewrite Hrt. exact (ptr_plug_cons (FL cf pf kf rf) cs _ (Nd cx a x kx (Nd cy _ y ky c))).
    + exact Hnd0.
  - eapply (Rh_replace _ cs _ (Nd cf lf pf kf (Nd cx a x kx (Nd cy _ y ky c)))); [exact HR|..]; rh_tac.
    + rewrite Hrt. exact (ptr_plug_cons (FR cf lf pf kf) cs _ (Nd cx a x kx (Nd cy _ y ky c))).
    + exact Hnd0.
Qed.

(** Changing the colour or the item of a node changes that node of the
    tree. *)
Lemma set_color_spec (s : store Item) cs c l a k r c' :
  Rh s (plug cs (Nd c l a k r)) →
  ∃ s', set_color a c' s = Ok (tt, s') ∧
        Rh s' (plug cs (Nd c' l a k r)) ∧
        length s' = length s ∧ next s' = next s.
Proof.
  intros HR.
  pose proof (Rh_nodup_plug _ _ _ HR) as Hnd.
  destruct (Rh_ranges _ _ _ HR) as (HnT & HnG & Hlt).
  assert (hide (NoDup (addrs (plug cs (Nd c' l a k r))))) as Hnd0.
  { unfold hide. rewrite addrs_plug. done. }
  destruct s as [rt n h nx].
  pose proof HR as [Hs Hg Hal Hrt Hrep _]. simpl in Hs, Hg, Hal, Hrt, Hrep, Hlt.
  apply (rep_plug _ _ cs) in Hrep as Hrepf.
  simpl in Hnd, HnT, HnG, Hlt, Hrepf. nodup_split. destruct_and?.
  eexists; split; [mgo; reflexivity|]; split; [|done].
  eapply (Rh_replace _ cs _ (Nd c' l a k r)); [exact HR|..]; rh_tac.
  - rewrite Hrt. destruct cs as [|f cs]; [done|]. apply ptr_plug_cons.
  - exact Hnd0.
Qed.

Lemma set_item_spec (s : store Item) cs c l a k r k' :
  Rh s (plug cs (Nd c l a k r)) →
  ∃ s', set_item a (Some k') s = Ok (tt, s') ∧
        Rh s' (plug cs (Nd c l a k' r)) ∧
        length s' = length s ∧ next s' = next s.
Proof.
  intros HR.
  pose proof (Rh_nodup_plug _ _ _ HR) as Hnd.
  destruct (Rh_ranges _ _ _ HR) as (HnT & HnG & Hlt).
  assert (hide (NoDup (addrs (plug cs (Nd c l a k' r))))) as Hnd0.
  { unfold hide. rewrite addrs_plug. done. }
  destruct s as [rt n h nx].
  pose proof HR as [Hs Hg Hal Hrt Hrep _]. simpl in Hs, Hg, Hal, Hrt, Hrep, Hlt.
  apply (rep_plug _ _ cs) in Hrep as Hrepf.
  simpl in Hnd, HnT, HnG, Hlt, Hrepf. nodup_split. destruct_and?.
  eexists; split; [mgo; reflexivity|]; split; [|done].
  eapply (Rh_replace _ cs _ (Nd c l a k' r)); [exact HR|..]; rh_tac.
  - rewrite Hrt. destruct cs as [|f cs]; [done|]. apply ptr_plug_cons.
  - exact Hnd0.
Qed.

End Rotate.

(** ** Proofs: insertFixup *)

(** Collect what a tree fact says about the cells near the hole, and about
    the sentinel. *)
Ltac gather HR :=
  let H := fresh "Hc" in
  let p0 := fresh "p0" in
  let Hnt := fresh "Hnt" in
  pose proof (Rh_rep _ _ HR) as H; simpl in H;
  first [eapply rep_plug in H | idtac]; simpl in H; destruct_and?;
  destruct (Rh_sentinel _ _ HR) as [p0 Hnt].

Ltac frun :=
  repeat (progress (
    unfold bind, load, grandparent, get_root, ret;
    cbn [fst snd n_color n_item n_left n_right n_parent];
    repeat match goal with
           | H : cells ?s !! ?p = Some _ |- context [cells ?s !! ?p] => rewrite H
           end;
    cbn [fst snd n_color n_item n_left n_right n_parent])).

Ltac fgo := repeat (progress (frun; try mdec)).

Ltac clear_cells s :=
  repeat match goal with
         | H : cells s !! _ = _ |- _ => clear H
         | H : rep (cells s) _ _ |- _ => clear H
         end.

(** Run a call of [set_color] or of a rotation with its specification; [cs]
    is the path to the node it works on. *)
Ltac step_core term s HR :=
  let s1 := fresh "s" in
  let HR1 := fresh "HR" in
  let Hrun := fresh "Hrun" in
  let Hl := fresh "Hl" in
  let Hn := fresh "Hn" in
  let Hx := fresh "Hx" in
  pose proof term as Hx;
  destruct Hx as (s1 & Hrun & HR1 & Hl & Hn);
  rewrite Hrun; clear Hrun HR; clear_cells s;
  rewrite <- ?Hl, <- ?Hn; clear Hl Hn;
  simpl in HR1; gather HR1; fgo.

Tactic Notation "step_color" uconstr(cs) :=
  match goal with
  | |- context [set_color ?a ?c' ?s] =>
    match goal with
    | HR : Rh s _ |- _ =>
      step_core uconstr:(set_color_spec s cs _ _ a _ _ c' HR) s HR
    end
  end.

Tactic Notation "step_left" uconstr(cs) :=
  match goal with
  | |- context [leftRotate ?x ?s] =>
    match goal with
    | HR : Rh s _ |- _ =>
      step_core uconstr:(leftRotate_spec s cs _ _ x _ _ _ _ _ _ HR) s HR
    end
  end.

Tactic Notation "step_right" uconstr(cs) :=
  match goal with
  | |- context [rightRotate ?y ?s] =>
    match goal with
    | HR : Rh s _ |- _ =>
      step_core uconstr:(rightRotate_spec s cs _ _ _ _ _ _ y _ _ HR) s HR
    end
  end.

Section InsertFixup.
Context {Item : Type}.
Implicit Types (t l r : tree (Item:=Item)) (cs : list (frame (Item:=Item))).
Implicit Types (h : gmap addr (node Item)).

Lemma list_ind2 {A} (P : list A → Prop) :
  P [] → (∀ x, P [x]) → (∀ x y xs, P xs → P (x :: y :: xs)) → ∀ xs, P xs.
Proof.
  intros H0 H1 H2. fix IH 1. intros [|x [|y xs]]; [exact H0|apply H1|apply H2, IH].
Qed.

Lemma plug_Nd cs t : t ≠ Leaf → ∃ c l a k r, plug cs t = Nd c l a k r.
Proof.
  revert t. induction cs as [|f cs IH]; intros t Ht; simpl.
  - destruct t; [done|]. by eauto 6.
  - apply IH. by destruct f.
Qed.

(** [rb.root.color = black] *)
Lemma blacken_root_spec (s : store Item) t :
  Rh s t → t ≠ Leaf →
  ∃ s', (do r <- get_root; set_color r black) s = Ok (tt, s') ∧
        Rh s' (blacken t) ∧ length s' = length s ∧ next s' = next s.
Proof.
  intros HR Ht. destruct t as [|c l a k r]; [done|].
  destruct (set_color_spec s [] c l a k r black HR) as (s' & Hrun & HR' & Hl & Hn).
  exists s'. split; [|done].
  unfold bind, get_root. rewrite (Rh_root _ _ HR). exact Hrun.
Qed.

Lemma sentinel_color (s : store Item) t :
  Rh s t → ∃ n, cells s !! tNil = Some n ∧ n_color n = black.
Proof. intros [[p Hp] _ _ _ _ _]. eexists. split; [exact Hp|done]. Qed.

Lemma insertFixup_unfold fuel z :
  insertFixup (Item:=Item) (S fuel) z =
    (do pc <- (do p <- load n_parent z; load n_color p);
    if decide (pc = red) then
      do p <- load n_parent z;
      do gl <- (do g <- grandparent z; load n_left g);
      if decide (p = gl) then
        do y <- (do g <- grandparent z; load n_right g);
        do yc <- load n_color y;
        if decide (yc = red) then
          (do p <- load n_parent z; set_color p black);;
          set_color y black;;
          (do g <- grandparent z; set_color g red);;
          do g <- grandparent z;
          insertFixup fuel g
        else
          do z' <- (do pr <- (do p <- load n_parent z; load n_right p);
                    if decide (z = pr)
                    then (do p <- load n_parent z; leftRotate p;; ret p)
                    else ret z);
          (do p <- load n_parent z'; set_color p black);;
          (do g <- grandparent z'; set_color g red);;
          (do g <- grandparent z'; rightRotate g);;
          insertFixup fuel z'
      else
        do y <- (do g <- grandparent z; load n_left g);
        do yc <- load n_color y;
        if decide (yc = red) then
          (do p <- load n_parent z; set_color p black);;
          set_color y black;;
          (do g <- grandparent z; set_color g red);;
          do g <- grandparent z;
          insertFixup fuel g
        else
          do z' <- (do pl <- (do p <- load n_parent z; load n_left p);
                    if decide (z = pl)
                    then (do p <- load n_parent z; rightRotate p;; ret p)
                    else ret z);
          (do p <- load n_parent z'; set_color p black);;
          (do g <- grandparent z'; set_color g red);;
          (do g <- grandparent z'; leftRotate g);;
          insertFixup fuel z'
    else
      do r <- get_root; set_color r black).
Proof. reflexivity. Qed.

(** When the parent is black the loop stops at once. *)
Lemma insertFixup_exit (s : store Item) cs c l a k r fuel :
  Rh s (plug cs (Nd c l a k r)) →
  match cs with [] => True | f :: _ => fcolor f = black end →
  ∃ s', insertFixup (S fuel) a s = Ok (tt, s') ∧
        Rh s' (blacken (plug cs (Nd c l a k r))) ∧
        length s' = length s ∧ next s' = next s.
Proof.
  intros HR Hb.
  destruct (blacken_root_spec s _ HR) as (s' & Hrun & HR' & Hl & Hn).
  { destruct (plug_Nd cs (Nd c l a k r)) as (? & ? & ? & ? & ? & ->); done. }
  exists s'. split; [|done].
  rewrite insertFixup_unfold.
  destruct cs as [|[cf pf kf rf|cf lf pf kf] cs]; simpl in *; gather HR.
  - frun. simpl. exact Hrun.
  - subst. frun. simpl. exact Hrun.
  - subst. frun. simpl. exact Hrun.
Qed.

Lemma root_ok_tail f1 f2 cs : root_ok (f1 :: f2 :: cs) → root_ok cs.
Proof.
  unfold root_ok. rewrite !last_cons_cons.
  destruct cs as [|f cs]; [done|]. done.
Qed.

Lemma root_ok_single (f : frame (Item:=Item)) : root_ok [f] → fcolor f = black.
Proof. done. Qed.

Lemma insertFixup_spec : ∀ cs zl za zk zr (s : store Item) fuel,
  Rh s (plug cs (Nd red zl za zk zr)) → root_ok cs →
  (List.length cs < fuel)%nat →
  ∃ s', insertFixup fuel za s = Ok (tt, s') ∧
        Rh s' (ins_fix cs (Nd red zl za zk zr)) ∧
        length s' = length s ∧ next s' = next s.
Proof.
  induction cs as [|f1|f1 f2 cs IH] using list_ind2;
    intros zl za zk zr s fuel HR Hok Hfuel;
    (destruct fuel as [|fuel]; [simpl in Hfuel; lia|]).
  - apply (insertFixup_exit s []); done.
  - simpl. rewrite (root_ok_single _ Hok).
    apply (insertFixup_exit s [f1]); [done|]. by apply root_ok_single.
  - destruct (fcolor f1) eqn:Hc1; cycle 1.
    { simpl. rewrite Hc1. apply (insertFixup_exit s (f1 :: f2 :: cs)); done. }
    destruct fuel as [|fuel]; [simpl in Hfuel; lia|].
    assert (List.length cs < S fuel)%nat as Hfuel' by (simpl in Hfuel; lia).
    apply root_ok_tail in Hok.
    pose proof (Rh_nodup_plug _ _ _ HR) as Hnd.
    destruct (Rh_ranges _ _ _ HR) as (HnT & HnG & _).
    rewrite insertFixup_unfold.
    destruct f1 as [c1 p kp rp|c1 lp p kp]; simpl in Hc1; subst c1;
    destruct f2 as [cg g kg u|cg u g kg];
    simpl in Hnd, HnT, HnG; nodup_split.
    + (* the parent is a left child, the node is its left child *)
      destruct u as [|[|] ul y ku ur]; simpl in HR; gather HR; fgo.
      * step_color (FL cg g kg _ :: cs). step_color cs. step_right cs.
        apply (insertFixup_exit _ (FL black p kp (Nd red rp g kg _) :: cs)); done.
      * step_color (FL cg g kg _ :: cs). step_color (FR cg _ g kg :: cs).
        step_color cs. apply IH; done.
      * step_color (FL cg g kg _ :: cs). step_color cs. step_right cs.
        apply (insertFixup_exit _ (FL black p kp (Nd red rp g kg _) :: cs)); done.
    + (* the parent is a right child, the node is its left child *)
      destruct u as [|[|] ul y ku ur]; simpl in HR; gather HR; fgo.
      * step_right (FR cg _ g kg :: cs). step_color (FR cg _ g kg :: cs).
        step_color cs. step_left cs.
        apply (insertFixup_exit _ (FR black (Nd red _ g kg zl) za zk :: cs)); done.
      * step_color (FR cg _ g kg :: cs). step_color (FL cg g kg _ :: cs).
        step_color cs. apply IH; done.
      * step_right (FR cg _ g kg :: cs). step_color (FR cg _ g kg :: cs).
        step_color cs. step_left cs.
        apply (insertFixup_exit _ (FR black (Nd red _ g kg zl) za zk :: cs)); done.
    + (* the parent is a left child, the node is its right child *)
      destruct u as [|[|] ul y ku ur]; simpl in HR; gather HR; fgo.
      * step_left (FL cg g kg _ :: cs). step_color (FL cg g kg _ :: cs).
        step_color cs. step_right cs.
        apply (insertFixup_exit _ (FL black za zk (Nd red zr g kg _) :: cs)); done.
      * step_color (FL cg g kg _ :: cs). step_color (FR cg _ g kg :: cs).
        step_color cs. apply IH; done.
      * step_left (FL cg g kg _ :: cs). step_color (FL cg g kg _ :: cs).
        step_color cs. step_right cs.
        apply (insertFixup_exit _ (FL black za zk (Nd red zr g kg _) :: cs)); done.
    + (* the parent is a right child, the node is its right child *)
      destruct u as [|[|] ul y ku ur]; simpl in HR; gather HR; fgo.
      * step_color (FR cg _ g kg :: cs). step_color cs. step_left cs.
        apply (insertFixup_exit _ (FR black (Nd red _ g kg lp) p kp :: cs)); done.
      * step_color (FR cg _ g kg :: cs). step_color (FL cg g kg _ :: cs).
        step_color cs. apply IH; done.
      * step_color (FR cg _ g kg :: cs). step_color cs. step_left cs.
        apply (insertFixup_exit _ (FR black (Nd red _ g kg lp) p kp :: cs)); done.
Qed.

End InsertFixup.

(** ** Proofs: what the fix-up keeps *)

Section InsFix.
Context {Item : Type}.
Implicit Types (t l r z : tree (Item:=Item)) (cs : list (frame (Item:=Item))).

Lemma inorder_blacken t : inorder (blacken t) = inorder t.
Proof. by destruct t. Qed.

Lemma size_blacken t : size (blacken t) = size t.
Proof. by destruct t. Qed.

Lemma tcolor_blacken t : tcolor (blacken t) = black.
Proof. by destruct t. Qed.

Lemma inorder_plug_eq cs t t' :
  inorder t = inorder t' → inorder (plug cs t) = inorder (plug cs t').
Proof. intros H. by rewrite !inorder_plug, H. Qed.

Lemma size_plug_eq cs t t' : size t = size t' → size (plug cs t) = size (plug cs t').
Proof. intros H. by rewrite !size_plug, H. Qed.

Lemma inorder_ins_fix cs : ∀ z, inorder (ins_fix cs z) = inorder (plug cs z).
Proof.
  induction cs as [|f1|f1 f2 cs IH] using list_ind2; intros z.
  - apply inorder_blacken.
  - simpl. destruct (fcolor f1); apply inorder_blacken.
  - cbn [ins_fix]. destruct (fcolor f1) eqn:E1; [|apply inorder_blacken].
    destruct f2 as [cg g kg u|cg u g kg]; destruct (tcolor u) eqn:Eu.
    + rewrite IH. simpl. apply inorder_plug_eq. simpl.
      by rewrite !inorder_blacken.
    + destruct f1 as [c1 p kp rp|c1 lp p kp]; [|destruct z as [|cz zl za zk zr]];
        rewrite inorder_blacken; try done; simpl; apply inorder_plug_eq; simpl;
        repeat (rewrite <- app_assoc; simpl); done.
    + rewrite IH. simpl. apply inorder_plug_eq. simpl.
      by rewrite !inorder_blacken.
    + destruct f1 as [c1 p kp rp|c1 lp p kp]; [destruct z as [|cz zl za zk zr]|];
        rewrite inorder_blacken; try done; simpl; apply inorder_plug_eq; simpl;
        repeat (rewrite <- app_assoc; simpl); done.
Qed.

Lemma size_ins_fix cs z : size (ins_fix cs z) = size (plug cs z).
Proof. by rewrite !size_inorder, inorder_ins_fix. Qed.

Lemma tcolor_ins_fix cs : ∀ z, tcolor (ins_fix cs z) = black.
Proof.
  induction cs as [|f1|f1 f2 cs IH] using list_ind2; intros z.
  - apply tcolor_blacken.
  - simpl. destruct (fcolor f1); apply tcolor_blacken.
  - cbn [ins_fix]. destruct (fcolor f1) eqn:E1; [|apply tcolor_blacken].
    destruct f2 as [cg g kg u|cg u g kg]; destruct (tcolor u) eqn:Eu;
      try apply IH;
      destruct f1 as [c1 p kp rp|c1 lp p kp]; try destruct z as [|cz zl za zk zr];
      apply tcolor_blacken.
Qed.

Lemma tcolor_plug cs t :
  tcolor (plug cs t) = match last cs with Some f => fcolor f | None => tcolor t end.
Proof.
  revert t. induction cs as [|f cs IH]; intros t; simpl; [done|].
  rewrite IH. destruct cs as [|f0 cs]; [by destruct f|].
  rewrite last_cons_cons. destruct (last (f0 :: cs)) eqn:E; [done|].
  by apply last_None in E.
Qed.

Lemma root_ok_plug cs t : tcolor (plug cs t) = black → root_ok cs.
Proof.
  rewrite tcolor_plug. unfold root_ok. by destruct (last cs).
Qed.

End InsFix.

(** ** Proofs: Insert *)

Section Insert.
Context {Item : Type} (less : Item → Item → bool) `{!LessOrder less}.
Implicit Types (t : tree (Item:=Item)) (cs : list (frame (Item:=Item))).
Implicit Types (h : gmap addr (node Item)).

(** A new node is outside the tree. *)
Lemma alloc_spec (s : store Item) t n (HR : Rh s t) :
  let s1 := mkStore (root s) (length s) (<[next s := n]> (cells s)) (S (next s)) in
  alloc n s = Ok (next s, s1) ∧ Rh s1 t ∧ cells s1 !! next s = Some n ∧
  (next s ∉ addrs t) ∧ next s ≠ tNil ∧ next s ≠ goNil.
Proof.
  intros s1.
  assert (next s ∉ addrs t) as Hfresh.
  { intros Hin. pose proof (Rh_addr_lt _ _ _ HR Hin). lia. }
  assert (next s ≠ tNil) as HnT.
  { destruct (Rh_sentinel _ _ HR) as [p Hp].
    pose proof (alloc_lt _ _ _ _ (Rh_alloc _ _ HR) Hp). intros E. rewrite E in H. lia. }
  assert (next s ≠ goNil) as HnG.
  { destruct (Rh_sentinel _ _ HR) as [p Hp].
    pose proof (alloc_lt _ _ _ _ (Rh_alloc _ _ HR) Hp).
    unfold goNil, tNil in *. lia. }
  split_and!; try done.
  - destruct HR as [Hs Hg Hal Hrt Hrep Hnd]. split; simpl; try done.
    + by apply sentinel_insert.
    + by apply goNil_insert.
    + apply map_Forall_insert_2; [lia|].
      eapply map_Forall_impl; [exact Hal|]. simpl. intros; lia.
    + eapply rep_ext; [|exact Hrep]. intros a Ha.
      rewrite lookup_insert_ne; [done|]. intros <-. done.
  - simpl. by rewrite lookup_insert_eq.
Qed.

Lemma link_spec (s : store Item) cs (z : addr) key c0 (l0 r0 p0 : addr) :
  Rh s (plug cs Leaf) →
  cells s !! z = Some (mkNode c0 (Some key) l0 r0 p0) →
  z ∉ addrs (plug cs Leaf) → (z < next s)%nat →
  path_ok less key cs →
  ∃ s', link less z (cpar cs) s = Ok (tt, s') ∧
        Rh s' (plug cs (Nd red Leaf z key Leaf)) ∧
        length s' = length s ∧ next s' = next s.
Proof.
  intros HR Hz Hfresh Hzlt Hpath.
  pose proof (Rh_nodup_plug _ _ _ HR) as Hnd.
  destruct (Rh_ranges _ _ _ HR) as (HnT & HnG & Hlt).
  rewrite addrs_plug in Hfresh.
  assert (hide (NoDup (addrs (plug cs (Nd red Leaf z key Leaf))))) as Hnd0.
  { unfold hide. rewrite addrs_plug. simpl. apply NoDup_cons. done. }
  destruct s as [rt n h nx].
  pose proof HR as [Hs Hg Hal Hrt Hrep _].
  simpl in Hs, Hg, Hal, Hrt, Hrep, Hlt, Hz, Hzlt.
  assert (z ≠ tNil) as HzT.
  { intros ->. destruct Hs as [? Hs]. congruence. }
  assert (z ≠ goNil) as HzG by (intros ->; congruence).
  destruct cs as [|[cf pf kf rf|cf lf pf kf] cs];
    simpl in Hnd, HnT, HnG, Hlt, Hfresh; nodup_split;
    (apply (rep_plug _ _ cs) in Hrep as Hrepf || pose proof Hrep as Hrepf);
    simpl in Hrepf; destruct_and?.
  - eexists; split; [unfold link; mgo; reflexivity|]; split; [|done].
    eapply (Rh_replace _ [] _ (Nd red Leaf z key Leaf)); [exact HR|..]; rh_tac.
    + done.
    + exact Hnd0.
  - apply Forall_cons in Hpath as [Hlt1 _]. unfold lt in Hlt1.
    eexists; split; [unfold link, liftR, Less; mgo; rewrite Hlt1; mgo; reflexivity|]; split; [|done].
    eapply (Rh_replace _ cs _ (Nd cf (Nd red Leaf z key Leaf) pf kf rf)); [exact HR|..]; rh_tac.
    + rewrite Hrt. exact (ptr_plug_cons (FL cf pf kf rf) cs _ (Nd red Leaf z key Leaf)).
    + exact Hnd0.
  - apply Forall_cons in Hpath as [Hlt1 _]. unfold lt in Hlt1.
    apply less_asym in Hlt1.
    eexists; split; [unfold link, liftR, Less; mgo; rewrite Hlt1; mgo; reflexivity|]; split; [|done].
    eapply (Rh_replace _ cs _ (Nd cf lf pf kf (Nd red Leaf z key Leaf))); [exact HR|..]; rh_tac.
    + rewrite Hrt. exact (ptr_plug_cons (FR cf lf pf kf) cs _ (Nd red Leaf z key Leaf)).
    + exact Hnd0.
Qed.

Lemma bind_assoc {A B C} (m : M Item A) (k1 : A → M Item B) (k2 : B → M Item C) s :
  bind (bind m k1) k2 s = bind m (λ x, bind (k1 x) k2) s.
Proof. unfold bind. by destruct (m s) as [[? ?]| |]. Qed.

Lemma bind_ok {A B} (m : M Item A) (k : A → M Item B) s a s' :
  m s = Ok (a, s') → bind m k s = k a s'.
Proof. unfold bind. by intros ->. Qed.

Lemma link_then {A} (z y : addr) (k : M Item A) s :
  (set_parent z y;;
   (if decide (y = tNil) then set_root z
    else
      (do lt <- (do zi <- load n_item z; do yi <- load n_item y; liftR (λ _, Less less zi yi));
       if lt then set_left y z else set_right y z));;
   set_color z red;;
   set_left z tNil;;
   set_right z tNil;;
   k) s = (link less z y;; k) s.
Proof.
  unfold link. generalize (if decide (y = tNil) then set_root z
    else
      (do lt <- (do zi <- load n_item z; do yi <- load n_item y; liftR (λ _, Less less zi yi));
       if lt then set_left y z else set_right y z)).
  intros m. unfold bind.
  destruct (set_parent z y s) as [[[] s1]| |]; [|done..].
  destruct (m s1) as [[[] s2]| |]; [|done..].
  destruct (set_color z red s2) as [[[] s3]| |]; [|done..].
  destruct (set_left z tNil s3) as [[[] s4]| |]; [|done..].
  done.
Qed.

Lemma insert_spec (s : store Item) t (z : addr) key fuel :
  Rh s t → tcolor t = black →
  cells s !! z = Some (mkNode red (Some key) tNil tNil tNil) →
  z ∉ addrs t → (z < next s)%nat →
  (size t < fuel)%nat →
  ∃ s', insert less fuel z s = Ok (ins_node less key z t, s') ∧
        Rh s' (ins_tree less key z t) ∧
        length s' = length s ∧ next s' = next s.
Proof.
  intros HR Hblack Hz Hfresh Hzlt Hfuel.
  pose proof (descend_plug less key t []) as Hplug.
  pose proof (descend_path_ok less key t [] (Forall_nil_2 _)) as Hpath.
  pose proof (find_loop_descend less (cells s) key t [] fuel
                (Rh_sentinel _ _ HR) (Rh_rep _ _ HR) Hfuel) as Hfind.
  unfold ins_tree, ins_node.
  destruct (descend less key [] t) as [cs sub] eqn:Hd. simpl in *.
  subst t.
  assert ((do zi <- load n_item z; find less fuel zi) s = Ok ((ptr sub, cpar cs), s)) as Hrun.
  { unfold find, bind, load, get_root, liftR. rewrite Hz. simpl.
    rewrite (Rh_root _ _ HR), Hfind. done. }
  unfold insert. rewrite (bind_ok _ _ _ _ _ Hrun). simpl.
  destruct sub as [|c l a k r]; simpl.
  - destruct (link_spec s cs z key _ _ _ _ HR Hz Hfresh Hzlt Hpath)
      as (s1 & Hrun1 & HR1 & Hl1 & Hn1).
    destruct (insertFixup_spec cs Leaf z key Leaf s1 fuel HR1) as (s2 & Hrun2 & HR2 & Hl2 & Hn2).
    { eapply root_ok_plug, Hblack. }
    { pose proof (ctx_size_length cs). rewrite size_plug in Hfuel. simpl in Hfuel. lia. }
    exists s2. split; [|split; [done|split; congruence]].
    destruct (decide (tNil ≠ tNil)) as [E|_]; [done|].
    rewrite link_then. rewrite (bind_ok _ _ _ _ _ Hrun1).
    rewrite (bind_ok _ _ _ _ _ Hrun2). done.
  - assert (a ≠ tNil) as Ha.
    { eapply Rh_addr_ne_tNil; [exact HR|]. rewrite addrs_plug. simpl. in_tac. }
    destruct (decide (a ≠ tNil)); [|done].
    destruct (set_item_spec s cs c l a k r key HR) as (s1 & Hrun1 & HR1 & Hl1 & Hn1).
    exists s1. split; [|done].
    unfold bind, load, ret. rewrite Hz. simpl. rewrite Hrun1. done.
Qed.

End Insert.

(** ** Proofs: Insert keeps the invariant *)

Section InsertInv.
Context {Item : Type} (less : Item → Item → bool) `{!LessOrder less}.
Implicit Types (t : tree (Item:=Item)) (cs : list (frame (Item:=Item))).

Lemma wrap_int_add a b : wrap_int (wrap_int a + b) = wrap_int (a + b).
Proof.
  unfold wrap_int. f_equal.
  replace (((a + 2 ^ 63) mod 2 ^ 64 - 2 ^ 63 + b + 2 ^ 63))
    with ((a + 2 ^ 63) mod 2 ^ 64 + b) by lia.
  rewrite Zplus_mod_idemp_l. f_equal. lia.
Qed.

Lemma wrap_int_small a : - 2 ^ 63 ≤ a < 2 ^ 63 → wrap_int a = a.
Proof. intros H. unfold wrap_int. rewrite Z.mod_small; lia. Qed.

(** Searching for [key] in a tree follows a path that was taken for [key]. *)
Lemma descend_path key : ∀ cs, path_ok less key cs →
  ∀ sub cs0, descend less key cs0 (plug cs sub) = descend less key (cs ++ cs0) sub.
Proof.
  induction cs as [|f cs IH] using rev_ind; intros Hp sub cs0; [done|].
  apply Forall_app in Hp as [Hp Hf]. apply Forall_cons in Hf as [Hf _].
  rewrite plug_app. simpl. rewrite <- app_assoc. simpl.
  destruct f as [c a k r|c l a k]; simpl; unfold lt in Hf.
  - rewrite Hf. by apply IH.
  - rewrite (less_asym _ _ Hf), Hf. by apply IH.
Qed.

Lemma path_ok_eqv key key' cs :
  eqv less key key' → path_ok less key cs → path_ok less key' cs.
Proof.
  intros He Hp. eapply Forall_impl; [exact Hp|]. intros [c a k r|c l a k] H.
  - apply (lt_eqv_l less key' key k); [by apply eqv_sym|done].
  - apply (lt_eqv_r less k key key'); done.
Qed.

Lemma descend_at key cs c l a k r :
  path_ok less key cs → eqv less key k →
  descend less key [] (plug cs (Nd c l a k r)) = (cs, Nd c l a k r).
Proof.
  intros Hp [H1 H2]. rewrite (descend_path key cs Hp). rewrite app_nil_r.
  simpl. by rewrite H1, H2.
Qed.

(** The items after [Insert]. *)
Lemma ins_tree_fresh key (z : addr) t :
  ascending less (inorder t) →
  (descend less key [] t).2 = Leaf →
  inorder (ins_tree less key z t) ≡ₚ key :: inorder t ∧
  ascending less (inorder (ins_tree less key z t)) ∧
  size (ins_tree less key z t) = S (size t).
Proof.
  intros Hs Hd. unfold ins_tree.
  pose proof (descend_plug less key t []) as Hplug.
  pose proof (descend_path_ok less key t [] (Forall_nil_2 _)) as Hpath.
  destruct (descend less key [] t) as [cs sub]. simpl in *. subst sub t.
  destruct (path_ok_bounds less key cs Leaf Hpath Hs) as [Hb Ha].
  rewrite size_ins_fix, !size_plug, inorder_ins_fix, !inorder_plug in *. simpl in *.
  split_and!.
  - by rewrite <- Permutation_middle.
  - by apply ascending_insert.
  - lia.
Qed.

Lemma ins_tree_found key (z : addr) t cs c l a k r :
  ascending less (inorder t) →
  descend less key [] t = (cs, Nd c l a k r) →
  t = plug cs (Nd c l a k r) ∧ eqv less key k ∧ path_ok less key cs ∧
  ins_tree less key z t = plug cs (Nd c l a key r) ∧
  ascending less (inorder (plug cs (Nd c l a key r))) ∧
  size (plug cs (Nd c l a key r)) = size t ∧
  tcolor (plug cs (Nd c l a key r)) = tcolor t.
Proof.
  intros Hs Hd. unfold ins_tree.
  pose proof (descend_plug less key t []) as Hplug.
  pose proof (descend_path_ok less key t [] (Forall_nil_2 _)) as Hpath.
  pose proof (descend_found less key t []) as Hf.
  rewrite Hd in *. simpl in *. subst t. split_and!; try done.
  - rewrite inorder_plug in *. simpl in *. rewrite <- app_assoc in *. simpl in *.
    rewrite app_assoc in *.
    apply (ascending_replace less _ _ k key); [by apply eqv_sym|done].
  - by rewrite !size_plug.
  - rewrite !tcolor_plug. by destruct (last cs).
Qed.

Lemma tcolor_ins_tree key (z : addr) t :
  tcolor t = black → tcolor (ins_tree less key z t) = black.
Proof.
  intros Hb. unfold ins_tree.
  pose proof (descend_plug less key t []) as Hplug.
  destruct (descend less key [] t) as [cs [|c l a k r]]; simpl in *.
  - apply tcolor_ins_fix.
  - subst t. rewrite tcolor_plug in *. by destruct (last cs).
Qed.

(** [Insert] on a tree that satisfies the invariant. *)
Lemma Insert_spec (s : store Item) t key fuel :
  Inv less s t → (size t < fuel)%nat →
  ∃ s', rbTree_Insert less fuel key s = Ok ((ins_fresh less key t, None), s') ∧
        Inv less s' (ins_tree less key (next s) t) ∧
        length s' = (if ins_fresh less key t then wrap_int (length s + 1) else length s).
Proof.
  intros [HR Hlen Hbst Hblack] Hfuel.
  destruct (alloc_spec s t (mkNode red (Some key) tNil tNil tNil) HR)
    as (Hrun0 & HR0 & Hz & Hfresh & HzT & HzG).
  set (s0 := mkStore _ _ _ _) in *.
  destruct (insert_spec less s0 t (next s) key fuel HR0 Hblack Hz Hfresh)
    as (s1 & Hrun1 & HR1 & Hl1 & Hn1); [simpl; lia|done|].
  unfold rbTree_Insert.
  rewrite (bind_ok _ _ _ _ _ Hrun0), (bind_ok _ _ _ _ _ Hrun1).
  unfold ins_node, ins_fresh, ins_tree in *.
  destruct (descend less key [] t) as [cs [|c l a k r]] eqn:Hd; simpl in *.
  - destruct (decide (next s = next s)); [|done].
    eexists. split; [unfold bind, get_length, set_length, ret; simpl; reflexivity|].
    destruct (ins_tree_fresh key (next s) t Hbst) as (Hperm & Hasc & Hsize).
    { by rewrite Hd. }
    unfold ins_tree in *. rewrite Hd in *.
    split; [split|]; simpl.
    + destruct HR1. split; done.
    + rewrite Hl1, Hlen, Hsize. rewrite wrap_int_add. f_equal. lia.
    + done.
    + apply tcolor_ins_fix.
    + by rewrite Hl1.
  - destruct (ins_tree_found key (next s) t _ _ _ _ _ _ Hbst Hd)
      as (Ht & Heqv & Hpath & Hins & Hasc & Hsize & Hcol).
    assert (a ≠ next s) as Hne.
    { intros E. apply Hfresh. rewrite Ht, addrs_plug, <- E. simpl. in_tac. }
    destruct (decide (a = next s)); [done|].
    eexists. split; [unfold ret; reflexivity|].
    split; [split|]; simpl; try done.
    + by rewrite Hsize, Hl1.
    + by rewrite Hcol.
Qed.

End InsertInv.

(** ** Proofs: the iterator *)

Section Iter.
Context {Item : Type}.
Implicit Types (t : tree (Item:=Item)) (cs : list (frame (Item:=Item))).

Lemma leftmost_spec t : ∀ cs, t ≠ Leaf →
  ∃ cs' c a k r, leftmost cs t = (cs', Nd c Leaf a k r) ∧
    plug cs' (Nd c Leaf a k r) = plug cs t ∧
    k :: inorder r ++ ctx_after cs' = inorder t ++ ctx_after cs ∧
    ctx_before cs' = ctx_before cs.
Proof.
  induction t as [|c l IHl a k r _]; intros cs Ht; [done|].
  destruct l as [|cl ll al kl rl].
  - exists cs, c, a, k, r. done.
  - destruct (IHl (FL c a k r :: cs)) as (cs' & c' & a' & k' & r' & Hl & Hp & Hi & Hb); [done|].
    exists cs', c', a', k', r'. split_and!; try done.
    rewrite Hi. simpl. by rewrite <- !app_assoc.
Qed.

Lemma node_min_spec (h : gmap addr (node Item)) t : ∀ cs fuel,
  sentinel h → rep h tNil (plug cs t) → t ≠ Leaf → (size t < fuel)%nat →
  node_min fuel (ptr t) h = Ok (ptr (leftmost cs t).2).
Proof.
  induction t as [|c l IHl a k r _]; intros cs fuel Hs Hrep Ht Hf; [done|].
  destruct fuel as [|fuel]; [lia|]. simpl.
  unfold deref. rewrite (rep_lookup _ _ _ _ _ _ _ Hrep). simpl.
  destruct l as [|cl ll al kl rl]; simpl.
  - destruct (decide (tNil ≠ tNil)); done.
  - assert (al ≠ tNil) as Hal.
    { apply (rep_plug _ _ (FL c a k r :: cs)) in Hrep.
      eapply (ptr_not_tNil _ _ (Nd cl ll al kl rl)); eauto. }
    destruct (decide (al ≠ tNil)); [|done].
    apply (IHl (FL c a k r :: cs)); [done|done|done|simpl in *; lia].
Qed.

Lemma next_climb_spec (s : store Item) whole :
  Rh s whole → ∀ cs sub fuel, plug cs sub = whole → sub ≠ Leaf →
  (List.length cs < fuel)%nat →
  ∃ x' y' yn, next_climb fuel (ptr sub) (cpar cs) (cells s) = Ok (x', y') ∧
    cells s !! y' = Some yn ∧
    match ctx_after cs with
    | [] => n_right yn = x' ∨ n_item yn = None
    | k' :: rest' => n_right yn ≠ x' ∧ n_item yn = Some k' ∧ at_pos whole y' rest'
    end.
Proof.
  intros HR. induction cs as [|f cs IH]; intros sub fuel Hp Hsub Hf;
    (destruct fuel as [|fuel]; [simpl in Hf; lia|]); subst whole.
  - destruct (Rh_sentinel _ _ HR) as [p0 Hnt]. simpl.
    unfold deref. rewrite Hnt. simpl.
    assert (goNil ≠ ptr sub) as Hne.
    { apply not_eq_sym. eapply Rh_addr_ne_goNil; [exact HR|]. by apply ptr_in_addrs. }
    exists (ptr sub), tNil. eexists. split; [|split; [exact Hnt|by right]].
    destruct (decide (p0 ≠ tNil)); [|done].
    destruct (decide (goNil = ptr sub)); done.
  - pose proof (Rh_nodup_plug _ _ _ HR) as Hnd.
    destruct (Rh_ranges _ _ _ HR) as (HnT & HnG & _).
    assert (ptr sub ∈ addrs sub) as Hin by (by apply ptr_in_addrs).
    destruct f as [c a k r|c l a k]; simpl in *; nodup_split.
    + pose proof (Rh_lookup _ cs _ _ _ _ _ HR) as Ha.
      unfold deref. rewrite Ha. simpl.
      assert (ptr r ≠ ptr sub) as Hne.
      { apply not_eq_sym, ptr_not_in; [neq_tac|notin_tac]. }
      exists (ptr sub), a. eexists. split; [|split; [exact Ha|]].
      * destruct (decide (cpar cs ≠ tNil)); [|done].
        destruct (decide (ptr r = ptr sub)); done.
      * simpl. split_and!; try done. exists cs, c, sub, k, r. done.
    + pose proof (Rh_lookup _ cs _ _ _ _ _ HR) as Ha.
      unfold deref. rewrite Ha. simpl.
      destruct (decide (cpar cs ≠ tNil)) as [Hc|Hc].
      * destruct (decide (ptr sub = ptr sub)); [|done].
        destruct (IH (Nd c l a k sub) fuel) as (x' & y' & yn & Hrun & Hy & Hpost);
          [done|done|lia|].
        exists x', y', yn. done.
      * assert (cs = []) as ->.
        { eapply cpar_tNil; [exact HR|]. by destruct (decide (cpar cs = tNil)). }
        exists (ptr sub), a. eexists. split; [done|split; [exact Ha|]]. simpl. by left.
Qed.

Global Instance tree_eq_dec_leaf (t : tree (Item:=Item)) : Decision (t = Leaf).
Proof. destruct t; [left|right]; done. Defined.

Lemma at_pos_ne_tNil (s : store Item) whole z rest :
  Rh s whole → at_pos whole z rest → z ≠ tNil.
Proof.
  intros HR (cs & c & l & k & r & <- & _).
  eapply Rh_addr_ne_tNil; [exact HR|]. rewrite addrs_plug. simpl. in_tac.
Qed.

(** One step of a plain iterator that stands on a node. *)
Lemma iterator_Next_spec (s : store Item) whole z rest fuel :
  Rh s whole → at_pos whole z rest → (size whole < fuel)%nat →
  ∃ it', iterator_Next fuel (mkIterator z deferencable) (cells s) = Ok (head rest, it') ∧
    match rest with
    | [] => True
    | _ :: rest' => ∃ z', it' = mkIterator z' deferencable ∧ at_pos whole z' rest'
    end.
Proof.
  intros HR Hpos Hfuel.
  pose proof (at_pos_ne_tNil _ _ _ _ HR Hpos) as HzT.
  destruct Hpos as (cs & c & l & k & r & <- & ->).
  unfold iterator_Next. simpl.
  rewrite (bool_decide_eq_false_2 (z = tNil)) by done. simpl.
  unfold deref at 1. rewrite (Rh_lookup _ _ _ _ _ _ _ HR). simpl.
  rewrite size_plug in Hfuel. simpl in Hfuel.
  destruct (decide (r = Leaf)) as [->|Hr].
  - simpl. destruct (decide (tNil ≠ tNil)); [done|].
    destruct (next_climb_spec s _ HR cs (Nd c l z k Leaf) fuel)
      as (x' & y' & yn & Hrun & Hy & Hpost); [done|done|pose proof (ctx_size_length cs); lia|].
    simpl in Hrun. rewrite Hrun. simpl. unfold deref. rewrite Hy. simpl.
    destruct (ctx_after cs) as [|k' rest'] eqn:Hafter; simpl.
    + destruct Hpost as [Hpost|Hpost].
      * destruct (decide (n_right yn = x')); [|done]. by eexists.
      * destruct (decide (n_right yn = x')); rewrite ?Hpost; by eexists.
    + destruct Hpost as (Hne & Hi & Hat).
      destruct (decide (n_right yn = x')); [done|]. rewrite Hi.
      eexists. split; [done|]. by exists y'.
  - assert (ptr r ≠ tNil) as Har.
    { eapply Rh_addr_ne_tNil; [exact HR|]. rewrite addrs_plug. simpl.
      apply in_app_l, in_app_r, in_further. by apply ptr_in_addrs. }
    destruct (decide (ptr r ≠ tNil)); [|done].
    destruct (leftmost_spec r (FR c l z k :: cs))
      as (cs' & c' & a' & k' & r' & Hl & Hp & Hi & Hb); [done|].
    rewrite (node_min_spec (cells s) r (FR c l z k :: cs) fuel);
      [|apply HR|apply HR|done|lia].
    rewrite Hl. simpl.
    assert (cells s !! a' = Some (mkNode c' (Some k') tNil (ptr r') (cpar cs'))) as Ha'.
    { eapply (rep_lookup _ cs' c' Leaf). rewrite Hp. apply HR. }
    unfold deref. rewrite Ha'. simpl. simpl in Hi. rewrite <- Hi. simpl.
    eexists. split; [done|]. exists a'. split; [done|].
    exists cs', c', Leaf, k', r'. done.
Qed.

(** The first step of a plain iterator. *)
Lemma iterator_Next_first (s : store Item) whole z items fuel :
  Rh s whole → before_pos whole z items →
  iterator_Next fuel (mkIterator z beforeFirst) (cells s)
  = Ok (head items, mkIterator z deferencable) ∧ at_pos whole z (tail items).
Proof.
  intros HR (cs & c & l & k & r & <- & ->).
  assert (z ≠ tNil) as HzT.
  { eapply Rh_addr_ne_tNil; [exact HR|]. rewrite addrs_plug. simpl. in_tac. }
  unfold iterator_Next. simpl.
  rewrite (bool_decide_eq_false_2 (z = tNil)) by done. simpl.
  unfold deref. rewrite (Rh_lookup _ _ _ _ _ _ _ HR). simpl.
  split; [done|]. exists cs, c, l, k, r. done.
Qed.

End Iter.

Section Iterate.
Context {Item : Type} (less : Item → Item → bool).
Implicit Types (t : tree (Item:=Item)) (cs : list (frame (Item:=Item))).

Lemma iterate_loop_plain (s : store Item) whole fuel0 :
  Rh s whole → (size whole < fuel0)%nat →
  ∀ rest z fuel, at_pos whole z rest → (List.length rest < fuel)%nat →
  iterate_loop less fuel0 fuel (IterPlain (mkIterator z deferencable)) (cells s) = Ok rest.
Proof.
  intros HR Hf0. induction rest as [|k rest IH]; intros z fuel Hpos Hf;
    (destruct fuel as [|fuel]; [simpl in Hf; lia|]); simpl;
    destruct (iterator_Next_spec s whole z _ fuel0 HR Hpos Hf0) as (it' & Hrun & Hpost);
    rewrite Hrun; simpl; [done|].
  destruct Hpost as (z' & -> & Hpos').
  rewrite (IH z' fuel Hpos'); [done|simpl in Hf; lia].
Qed.

Lemma iterate_loop_sub (s : store Item) whole fuel0 (to : Item) :
  Rh s whole → (size whole < fuel0)%nat →
  ∀ rest z fuel, at_pos whole z rest → (List.length rest < fuel)%nat →
  iterate_loop less fuel0 fuel
    (IterSub (mkSubIterator (mkIterator z deferencable) to)) (cells s)
  = Ok (take_while (λ k, negb (less to k)) rest).
Proof.
  intros HR Hf0. induction rest as [|k rest IH]; intros z fuel Hpos Hf;
    (destruct fuel as [|fuel]; [simpl in Hf; lia|]); simpl;
    destruct (iterator_Next_spec s whole z _ fuel0 HR Hpos Hf0) as (it' & Hrun & Hpost);
    unfold subIterator_Next; simpl; rewrite Hrun; simpl; [done|].
  destruct Hpost as (z' & -> & Hpos').
  destruct (less to k); simpl; [done|].
  rewrite (IH z' fuel Hpos'); [done|simpl in Hf; lia].
Qed.

(** A whole iteration, from before a node. *)
Lemma iterate_plain_first (s : store Item) whole z items fuel :
  Rh s whole → before_pos whole z items → (size whole < fuel)%nat →
  (List.length items ≤ size whole)%nat →
  iterate less fuel (IterPlain (mkIterator z beforeFirst)) (cells s) = Ok items.
Proof.
  intros HR Hpos Hf Hlen.
  destruct (iterator_Next_first s whole z items fuel HR Hpos) as [Hrun Hat].
  unfold iterate. destruct fuel as [|fuel']; [lia|].
  simpl. rewrite Hrun. simpl.
  destruct Hpos as (cs & c & l & k & r & Hp & ->). simpl in *.
  rewrite (iterate_loop_plain s whole (S fuel') HR Hf _ z fuel' Hat); [done|lia].
Qed.

Lemma iterate_sub_first (s : store Item) whole z items fuel (to : Item) :
  Rh s whole → before_pos whole z items → (size whole < fuel)%nat →
  (List.length items ≤ size whole)%nat →
  iterate less fuel (IterSub (mkSubIterator (mkIterator z beforeFirst) to)) (cells s)
  = Ok (take_while (λ k, negb (less to k)) items).
Proof.
  intros HR Hpos Hf Hlen.
  destruct (iterator_Next_first s whole z items fuel HR Hpos) as [Hrun Hat].
  unfold iterate. destruct fuel as [|fuel']; [lia|].
  simpl. unfold subIterator_Next. simpl. rewrite Hrun. simpl.
  destruct Hpos as (cs & c & l & k & r & Hp & ->). simpl in *.
  destruct (less to k); simpl; [done|].
  rewrite (iterate_loop_sub s whole (S fuel') to HR Hf _ z fuel' Hat); [done|lia].
Qed.

(** An iterator on the sentinel yields nothing. *)
Lemma iterate_tNil fuel st (h : gmap addr (node Item)) :
  (0 < fuel)%nat →
  iterate less fuel (IterPlain (mkIterator tNil st)) h = Ok [].
Proof.
  intros Hf. destruct fuel as [|fuel]; [lia|]. unfold iterate. simpl.
  unfold iterator_Next. simpl. by rewrite orb_true_r.
Qed.

Lemma iterate_sub_tNil fuel (to : Item) (h : gmap addr (node Item)) :
  (0 < fuel)%nat →
  iterate less fuel (IterSub (mkSubIterator (mkIterator tNil beforeFirst) to)) h = Ok [].
Proof.
  intros Hf. destruct fuel as [|fuel]; [lia|]. unfold iterate. simpl.
  unfold subIterator_Next, iterator_Next. simpl. done.
Qed.

Lemma before_pos_length whole z (items : list Item) :
  before_pos whole z items → (List.length items ≤ size whole)%nat.
Proof.
  intros (cs & c & l & k & r & <- & ->).
  rewrite (size_inorder (plug cs _)), inorder_plug. simpl.
  repeat (rewrite ?length_app; simpl). lia.
Qed.

End Iterate.

(** ** Proofs: ceiling *)

Section Ceiling.
Context {Item : Type} (less : Item → Item → bool) `{!LessOrder less}.
Implicit Types (t : tree (Item:=Item)) (cs : list (frame (Item:=Item))).

Lemma ascending_sub cs t : ascending less (inorder (plug cs t)) → ascending less (inorder t).
Proof.
  rewrite inorder_plug. unfold ascending. intros H.
  by apply StronglySorted_app_1_r, StronglySorted_app_1_l in H.
Qed.

Lemma ascending_node c (l : tree (Item:=Item)) (a : addr) k r :
  ascending less (inorder (Nd c l a k r)) →
  Forall (λ y, lt less y k) (inorder l) ∧ Forall (lt less k) (inorder r).
Proof.
  simpl. unfold ascending. rewrite StronglySorted_app, StronglySorted_cons.
  intros (H1 & _ & H2 & _). split; [|done].
  apply Forall_forall. intros y Hy. apply H1; [done|]. apply in_here.
Qed.

Lemma ceiling_climb_spec (s : store Item) whole :
  Rh s whole → ∀ cs sub fuel, plug cs sub = whole → sub ≠ Leaf →
  (List.length cs < fuel)%nat →
  ∃ z, ceiling_climb fuel (ptr sub) (cpar cs) (cells s) = Ok z ∧
    match ctx_after cs with
    | [] => z = tNil
    | k' :: rest =>
      before_pos whole z (k' :: rest) ∧
      ∃ cs' c' l' r', plug cs' (Nd c' l' z k' r') = whole ∧
        ctx_before cs' ++ inorder l' = ctx_before cs ++ inorder sub
    end.
Proof.
  intros HR. induction cs as [|f cs IH]; intros sub fuel Hp Hsub Hf;
    (destruct fuel as [|fuel]; [simpl in Hf; lia|]); subst whole.
  - simpl. exists tNil. by destruct (decide (tNil ≠ tNil)).
  - pose proof (Rh_nodup_plug _ _ _ HR) as Hnd.
    destruct (Rh_ranges _ _ _ HR) as (HnT & HnG & _).
    assert (ptr sub ∈ addrs sub) as Hin by (by apply ptr_in_addrs).
    destruct f as [c a k r|c l a k];
      pose proof (Rh_lookup _ cs _ _ _ _ _ HR) as Ha;
      simpl in *; nodup_split;
      (assert (a ≠ tNil) as HaT by neq_tac);
      (destruct (decide (a ≠ tNil)); [|done]);
      unfold deref; rewrite Ha; simpl.
    + assert (ptr sub ≠ ptr r) as Hne by (apply ptr_not_in; [neq_tac|notin_tac]).
      destruct (decide (ptr sub = ptr r)); [done|].
      exists a. split; [done|]. split.
      * exists cs, c, sub, k, r. done.
      * exists cs, c, sub, r. done.
    + destruct (decide (ptr sub = ptr sub)); [|done].
      destruct (IH (Nd c l a k sub) fuel) as (z & Hrun & Hpost); [done|done|lia|].
      exists z. split; [done|].
      destruct (ctx_after cs) as [|k' rest]; [done|].
      destruct Hpost as (Hb & cs' & c' & l' & r' & Hp' & Hbefore).
      split; [done|]. exists cs', c', l', r'. split; [done|].
      rewrite Hbefore. simpl. by rewrite <- !app_assoc.
Qed.

Lemma ceiling_loop_spec (s : store Item) whole key fuel0 :
  Rh s whole → ascending less (inorder whole) → (size whole < fuel0)%nat →
  ∀ t cs fuel, plug cs t = whole → t ≠ Leaf → path_ok less key cs →
  (size t < fuel)%nat →
  ∃ z, ceiling_loop less fuel0 fuel (ptr t) key (cells s) = Ok z ∧ ceil_post less whole key z.
Proof.
  intros HR Hasc Hf0.
  induction t as [|c l IHl a k r IHr]; intros cs fuel Hp Hne0 Hpath Hf; [done|].
  destruct fuel as [|fuel]; [lia|]. simpl.
  assert (a ≠ tNil) as HaT.
  { eapply Rh_addr_ne_tNil; [exact HR|]. rewrite <- Hp, addrs_plug. simpl. in_tac. }
  destruct (decide (a ≠ tNil)); [|done].
  rewrite <- Hp in HR. unfold deref. rewrite (Rh_lookup _ _ _ _ _ _ _ HR). simpl.
  rewrite Hp in HR.
  rewrite <- Hp in Hasc.
  destruct (path_ok_bounds less key cs _ Hpath Hasc) as [Hbefore Hafter].
  destruct (ascending_node _ _ _ _ _ (ascending_sub _ _ Hasc)) as [Hl Hr].
  rewrite Hp in Hasc.
  simpl in Hf.
  destruct (less key k) eqn:E1.
  - destruct (decide (l = Leaf)) as [->|Hne].
    + simpl. destruct (decide (tNil ≠ tNil)); [done|].
      exists a. split; [done|].
      exists (ctx_before cs), (k :: inorder r ++ ctx_after cs). split_and!.
      * by rewrite <- Hp, inorder_plug.
      * done.
      * by apply less_asym.
      * exists cs, c, Leaf, k, r. done.
    + assert (ptr l ≠ tNil) as HlT.
      { eapply Rh_addr_ne_tNil; [exact HR|]. rewrite <- Hp, addrs_plug. simpl.
        apply in_app_l, in_app_l. by apply ptr_in_addrs. }
      destruct (decide (ptr l ≠ tNil)); [|done].
      apply (IHl (FL c a k r :: cs)); [done|done|by constructor|lia].
  - destruct (less k key) eqn:E2.
    + destruct (decide (r = Leaf)) as [->|Hne].
      * simpl. destruct (decide (tNil ≠ tNil)); [done|].
        destruct (ceiling_climb_spec s whole HR cs (Nd c l a k Leaf) fuel0)
          as (z & Hrun & Hpost); [done|done|..].
        { pose proof (ctx_size_length cs). rewrite <- Hp, size_plug in Hf0. lia. }
        simpl in Hrun. rewrite Hrun. exists z. split; [done|].
        assert (Forall (λ y, lt less y key) (ctx_before cs ++ inorder l ++ [k])) as Hpre.
        { apply Forall_app. split; [done|]. apply Forall_app. split.
          - eapply Forall_impl; [exact Hl|]. intros y Hy. by apply (lt_trans less y k key).
          - by repeat constructor. }
        destruct (ctx_after cs) as [|k' rest] eqn:Hca.
        -- exists (inorder whole), []. rewrite app_nil_r. split_and!; try done.
           rewrite <- Hp, inorder_plug, Hca. simpl. rewrite app_nil_r.
           exact Hpre.
        -- destruct Hpost as (Hb & cs' & c' & l' & r' & Hp' & Hbef).
           exists (ctx_before cs ++ inorder l ++ [k]), (k' :: rest). split_and!; try done.
           ++ rewrite <- Hp, inorder_plug, Hca. simpl. by rewrite <- !app_assoc.
           ++ apply Forall_cons in Hafter as [Hk' _]. by apply less_asym.
      * assert (ptr r ≠ tNil) as HrT.
        { eapply Rh_addr_ne_tNil; [exact HR|]. rewrite <- Hp, addrs_plug. simpl.
          apply in_app_l, in_app_r, in_further. by apply ptr_in_addrs. }
        destruct (decide (ptr r ≠ tNil)); [|done].
        apply (IHr (FR c l a k :: cs)); [done|done|by constructor|lia].
    + exists a. split; [done|].
      exists (ctx_before cs ++ inorder l), (k :: inorder r ++ ctx_after cs). split_and!.
      * rewrite <- Hp, inorder_plug. simpl. by rewrite <- !app_assoc.
      * apply Forall_app. split; [done|].
        eapply Forall_impl; [exact Hl|]. intros y Hy.
        apply (lt_eqv_r less y k key); done.
      * done.
      * exists cs, c, l, k, r. done.
Qed.

(** [ceiling] from the root. *)
Lemma node_ceiling_spec (s : store Item) whole key fuel :
  Rh s whole → ascending less (inorder whole) → (size whole < fuel)%nat →
  ∃ z, node_ceiling less fuel (root s) key (cells s) = Ok z ∧ ceil_post less whole key z.
Proof.
  intros HR Hasc Hf. unfold node_ceiling. rewrite (Rh_root _ _ HR).
  destruct (decide (whole = Leaf)) as [->|Hne].
  - destruct fuel as [|fuel]; [lia|]. simpl.
    destruct (decide (tNil ≠ tNil)); [done|].
    exists tNil. split; [done|]. exists [], []. done.
  - apply (ceiling_loop_spec s whole key fuel HR Hasc Hf whole []); try done.
    constructor.
Qed.

End Ceiling.

(** ** Proofs: floor *)

Section Floor.
Context {Item : Type} (less : Item → Item → bool) `{!LessOrder less}.
Implicit Types (t : tree (Item:=Item)) (cs : list (frame (Item:=Item))).

Lemma floor_climb_spec (s : store Item) whole :
  Rh s whole → ∀ cs sub fuel, plug cs sub = whole → sub ≠ Leaf →
  (List.length cs < fuel)%nat →
  ∃ z, floor_climb fuel (ptr sub) (cpar cs) (cells s) = Ok z ∧
    ((ctx_before cs = [] ∧ z = tNil) ∨
     (∃ pre' k' cs' c' l' r', ctx_before cs = pre' ++ [k'] ∧
        plug cs' (Nd c' l' z k' r') = whole)).
Proof.
  intros HR. induction cs as [|f cs IH]; intros sub fuel Hp Hsub Hf;
    (destruct fuel as [|fuel]; [simpl in Hf; lia|]); subst whole.
  - simpl. exists tNil. destruct (decide (tNil ≠ tNil)); [done|]. split; [done|by left].
  - pose proof (Rh_nodup_plug _ _ _ HR) as Hnd.
    destruct (Rh_ranges _ _ _ HR) as (HnT & HnG & _).
    assert (ptr sub ∈ addrs sub) as Hin by (by apply ptr_in_addrs).
    destruct f as [c a k r|c l a k];
      pose proof (Rh_lookup _ cs _ _ _ _ _ HR) as Ha;
      simpl in *; nodup_split;
      (assert (a ≠ tNil) as HaT by neq_tac);
      (destruct (decide (a ≠ tNil)); [|done]);
      unfold deref; rewrite Ha; simpl.
    + destruct (decide (ptr sub = ptr sub)); [|done].
      destruct (IH (Nd c sub a k r) fuel) as (z & Hrun & Hpost); [done|done|lia|].
      exists z. done.
    + assert (ptr sub ≠ ptr l) as Hne by (apply ptr_not_in; [neq_tac|notin_tac]).
      destruct (decide (ptr sub = ptr l)); [done|].
      exists a. split; [done|]. right.
      exists (ctx_before cs ++ inorder l), k, cs, c, l, sub.
      split; [by rewrite <- app_assoc|done].
Qed.

Lemma floor_loop_spec (s : store Item) whole key fuel0 :
  Rh s whole → ascending less (inorder whole) → (size whole < fuel0)%nat →
  ∀ t cs fuel, plug cs t = whole → t ≠ Leaf → path_ok less key cs →
  (size t < fuel)%nat →
  ∃ z, floor_loop less fuel0 fuel (ptr t) key (cells s) = Ok z ∧ floor_post less whole key z.
Proof.
  intros HR Hasc Hf0.
  induction t as [|c l IHl a k r IHr]; intros cs fuel Hp Hne0 Hpath Hf; [done|].
  destruct fuel as [|fuel]; [lia|]. simpl.
  assert (a ≠ tNil) as HaT.
  { eapply Rh_addr_ne_tNil; [exact HR|]. rewrite <- Hp, addrs_plug. simpl. in_tac. }
  destruct (decide (a ≠ tNil)); [|done].
  rewrite <- Hp in HR. unfold deref. rewrite (Rh_lookup _ _ _ _ _ _ _ HR). simpl.
  rewrite Hp in HR.
  rewrite <- Hp in Hasc.
  destruct (path_ok_bounds less key cs _ Hpath Hasc) as [Hbefore Hafter].
  destruct (ascending_node less _ _ _ _ _ (ascending_sub less _ _ Hasc)) as [Hl Hr].
  rewrite Hp in Hasc.
  simpl in Hf.
  destruct (less k key) eqn:E1.
  - destruct (decide (r = Leaf)) as [->|Hne].
    + simpl. destruct (decide (tNil ≠ tNil)); [done|].
      exists a. split; [done|].
      exists (ctx_before cs ++ inorder l ++ [k]), (ctx_after cs). split_and!.
      * rewrite <- Hp, inorder_plug. simpl. by rewrite <- !app_assoc.
      * done.
      * right. exists (ctx_before cs ++ inorder l), k, cs, c, l, Leaf.
        split_and!; [by rewrite <- app_assoc|by apply less_asym|done].
    + assert (ptr r ≠ tNil) as HrT.
      { eapply Rh_addr_ne_tNil; [exact HR|]. rewrite <- Hp, addrs_plug. simpl.
        apply in_app_l, in_app_r, in_further. by apply ptr_in_addrs. }
      destruct (decide (ptr r ≠ tNil)); [|done].
      apply (IHr (FR c l a k :: cs)); [done|done|by constructor|lia].
  - destruct (less key k) eqn:E2.
    + destruct (decide (l = Leaf)) as [->|Hne].
      * simpl. destruct (decide (tNil ≠ tNil)); [done|].
        destruct (floor_climb_spec s whole HR cs (Nd c Leaf a k r) fuel0)
          as (z & Hrun & Hpost); [done|done|..].
        { pose proof (ctx_size_length cs). rewrite <- Hp, size_plug in Hf0. lia. }
        simpl in Hrun. rewrite Hrun. exists z. split; [done|].
        exists (ctx_before cs), (k :: inorder r ++ ctx_after cs). split_and!.
        -- by rewrite <- Hp, inorder_plug.
        -- apply Forall_cons. split; [done|]. apply Forall_app. split; [|done].
           eapply Forall_impl; [exact Hr|]. intros y Hy. by apply (lt_trans less key k y).
        -- destruct Hpost as [[Hnil ->]|(pre' & k' & cs' & c' & l' & r' & Hpre & Hp')].
           ++ by left.
           ++ right. exists pre', k', cs', c', l', r'. split_and!; try done.
              rewrite Hpre in Hbefore. apply Forall_app in Hbefore as [_ Hk'].
              apply Forall_cons in Hk' as [Hk' _]. by apply less_asym.
      * assert (ptr l ≠ tNil) as HlT.
        { eapply Rh_addr_ne_tNil; [exact HR|]. rewrite <- Hp, addrs_plug. simpl.
          apply in_app_l, in_app_l. by apply ptr_in_addrs. }
        destruct (decide (ptr l ≠ tNil)); [|done].
        apply (IHl (FL c a k r :: cs)); [done|done|by constructor|lia].
    + exists a. split; [done|].
      exists (ctx_before cs ++ inorder l ++ [k]), (inorder r ++ ctx_after cs). split_and!.
      * rewrite <- Hp, inorder_plug. simpl. by rewrite <- !app_assoc.
      * apply Forall_app. split; [|done].
        eapply Forall_impl; [exact Hr|]. intros y Hy.
        apply (lt_eqv_l less key k y); done.
      * right. exists (ctx_before cs ++ inorder l), k, cs, c, l, r.
        split_and!; [by rewrite <- app_assoc|done|done].
Qed.

(** [floor] from the root. *)
Lemma node_floor_spec (s : store Item) whole key fuel :
  Rh s whole → ascending less (inorder whole) → (size whole < fuel)%nat →
  ∃ z, node_floor less fuel (root s) key (cells s) = Ok z ∧ floor_post less whole key z.
Proof.
  intros HR Hasc Hf. unfold node_floor. rewrite (Rh_root _ _ HR).
  destruct (decide (whole = Leaf)) as [->|Hne].
  - destruct fuel as [|fuel]; [lia|]. simpl.
    destruct (decide (tNil ≠ tNil)); [done|].
    exists tNil. split; [done|]. exists [], []. split_and!; try done. by left.
  - apply (floor_loop_spec s whole key fuel HR Hasc Hf whole []); try done.
    constructor.
Qed.

End Floor.

(** ** Proofs: sequences of inserts, and whole iterations *)

Section Whole.
Context {Item : Type} (less : Item → Item → bool) `{!LessOrder less}.
Implicit Types (t : tree (Item:=Item)) (cs : list (frame (Item:=Item))).

Lemma size_ins_tree key (z : addr) t :
  ascending less (inorder t) →
  size (ins_tree less key z t) = ((if ins_fresh less key t then 1 else 0) + size t)%nat.
Proof.
  intros Hs. unfold ins_fresh.
  destruct (descend less key [] t) as [cs [|c l a k r]] eqn:Hd; simpl.
  - destruct (ins_tree_fresh less key z t Hs) as (_ & _ & H); [by rewrite Hd|]. done.
  - destruct (ins_tree_found less key z t _ _ _ _ _ _ Hs Hd) as (_ & _ & _ & -> & _ & H & _).
    done.
Qed.

Lemma Insert_spec_next (s : store Item) t key fuel :
  Inv less s t → (size t < fuel)%nat →
  ∃ s', rbTree_Insert less fuel key s = Ok ((ins_fresh less key t, None), s') ∧
        Inv less s' (ins_tree less key (next s) t) ∧ next s' = S (next s).
Proof.
  intros HI Hfuel. pose proof HI as [HR Hlen Hbst Hblack].
  destruct (Insert_spec less s t key fuel HI Hfuel) as (s' & Hrun & HI' & _).
  exists s'. split_and!; try done.
  destruct (alloc_spec s t (mkNode red (Some key) tNil tNil tNil) HR)
    as (Hrun0 & HR0 & Hz & Hfresh & HzT & HzG).
  set (s0 := mkStore _ _ _ _) in *.
  destruct (insert_spec less s0 t (next s) key fuel HR0 Hblack Hz Hfresh)
    as (s1 & Hrun1 & HR1 & Hl1 & Hn1); [simpl; lia|done|].
  revert Hrun. unfold rbTree_Insert.
  rewrite (bind_ok _ _ _ _ _ Hrun0), (bind_ok _ _ _ _ _ Hrun1).
  destruct (decide _); unfold bind, get_length, set_length, ret; simpl;
    intros [= _ <-]; simpl; by rewrite ?Hn1.
Qed.

Lemma insert_all_spec (seq : list Item) : ∀ (s : store Item) t fuel,
  Inv less s t → (size t + List.length seq < fuel)%nat →
  ∃ s', insert_all less fuel seq s = Ok (tt, s') ∧ Inv less s' (ins_all less seq (next s) t).
Proof.
  induction seq as [|item rest IH]; intros s t fuel HI Hfuel; simpl.
  - by exists s.
  - destruct (Insert_spec_next s t item fuel HI) as (s1 & Hrun & HI1 & Hn); [simpl in Hfuel; lia|].
    destruct (IH s1 (ins_tree less item (next s) t) fuel HI1) as (s2 & Hrun2 & HI2).
    { rewrite size_ins_tree by apply HI. simpl in Hfuel. destruct (ins_fresh _ _ _); lia. }
    exists s2. rewrite (bind_ok _ _ _ _ _ Hrun). rewrite Hn in HI2. done.
Qed.

(** No item of the tree is equal to [key]: the search ends at a leaf. *)
Lemma descend_absent key t :
  Forall (λ k, ¬ eqv less key k) (inorder t) → (descend less key [] t).2 = Leaf.
Proof.
  intros Hall.
  pose proof (descend_plug less key t []) as Hplug.
  pose proof (descend_found less key t []) as Hf.
  destruct (descend less key [] t) as [cs [|c l a k r]]; simpl in *; [done|].
  exfalso. rewrite <- Hplug, inorder_plug in Hall. simpl in Hall.
  apply Forall_app in Hall as [_ Hall]. apply Forall_app in Hall as [Hall _].
  apply Forall_app in Hall as [_ Hall]. apply Forall_cons in Hall as [Hall _]. done.
Qed.

(** Some item of a search tree is equal to [key]: the search ends there. *)
Lemma descend_present key t k :
  ascending less (inorder t) → k ∈ inorder t → eqv less key k →
  ∃ cs c l a k' r, descend less key [] t = (cs, Nd c l a k' r).
Proof.
  intros Hs Hin He.
  destruct (descend less key [] t) as [cs [|c l a k' r]] eqn:Hd; [|by eauto 10].
  exfalso. pose proof (descend_missing less key t Hs) as Hm.
  rewrite Hd in Hm. specialize (Hm eq_refl).
  rewrite Forall_forall in Hm. by apply (Hm k).
Qed.

Lemma ins_all_distinct (seq : list Item) : ∀ (z : addr) t,
  distinct less seq → ascending less (inorder t) →
  Forall (λ key, Forall (λ k, ¬ eqv less key k) (inorder t)) seq →
  inorder (ins_all less seq z t) ≡ₚ seq ++ inorder t ∧
  ascending less (inorder (ins_all less seq z t)) ∧
  size (ins_all less seq z t) = (List.length seq + size t)%nat.
Proof.
  induction seq as [|item rest IH]; intros z t Hd Hs Hall; simpl; [done|].
  inversion Hd as [|? ? Hitem Hrest]; subst.
  apply Forall_cons in Hall as [Hi Hall].
  destruct (ins_tree_fresh less item z t Hs (descend_absent item t Hi)) as (Hperm & Hasc & Hsize).
  destruct (IH (S z) (ins_tree less item z t) Hrest Hasc) as (Hp2 & Ha2 & Hs2).
  { rewrite Forall_forall in *. intros key Hkey.
    rewrite Forall_forall. intros k Hk. rewrite Hperm in Hk.
    apply elem_of_cons in Hk as [->|Hk].
    - intros He. apply (Hitem key Hkey). by apply eqv_sym.
    - specialize (Hall key Hkey). rewrite Forall_forall in Hall. by apply Hall. }
  split_and!; [|done|lia].
  rewrite Hp2, Hperm. by rewrite Permutation_middle.
Qed.

(** [NewIterator] followed by the client loop yields the items in order. *)
Lemma NewIterator_iterate (s : store Item) t fuel :
  Inv less s t → (size t < fuel)%nat → Z.of_nat (size t) < 2 ^ 63 →
  ∃ it, rbTree_NewIterator fuel s = Ok (it, s) ∧
        iterate less fuel it (cells s) = Ok (inorder t).
Proof.
  intros [HR Hlen Hbst Hblack] Hfuel Hsmall.
  unfold rbTree_NewIterator, rbTree_Len, bind, get_length, get_root, liftR, ret.
  rewrite Hlen, wrap_int_small by lia.
  destruct (decide (t = Leaf)) as [->|Hne].
  - simpl. eexists. split; [done|]. apply iterate_tNil. lia.
  - destruct (decide (Z.of_nat (size t) = 0)) as [E|_].
    { destruct t; [done|]. simpl in E. lia. }
    destruct (leftmost_spec t [] Hne) as (cs' & c & a & k & r & Hl & Hp & Hi & Hb).
    rewrite (Rh_root _ _ HR).
    rewrite (node_min_spec (cells s) t [] fuel); [|apply HR|apply HR|done|done].
    rewrite Hl. simpl. eexists. split; [done|].
    simpl in Hi. rewrite app_nil_r in Hi. rewrite <- Hi.
    apply (iterate_plain_first less s t); try done.
    + exists cs', c, Leaf, k, r. done.
    + rewrite Hi. by rewrite size_inorder.
Qed.

End Whole.

(** ** Proofs: the sub-tree view *)

Section World.
Context {Item : Type}.

(** A call that returns updates the object and the memory. *)
Lemma on_tree_ok {A} (rb : addr) (m : M Item A) (w : world Item) s a s' :
  view rb w = Some s → m s = Ok (a, s') →
  on_tree rb m w
  = Ok (a, mkWorld (<[rb := mkRbTree (root s') (length s')]> (trees w)) (cells s') (next s')).
Proof.
  unfold view, on_tree. destruct (trees w !! rb) as [t|]; [|done].
  simpl. intros [= <-] ->. done.
Qed.

(** A call that leaves the store as it is leaves the memory as it is. *)
Lemma on_tree_ro {A} (rb : addr) (m : M Item A) (w : world Item) s a :
  view rb w = Some s → m s = Ok (a, s) → on_tree rb m w = Ok (a, w).
Proof.
  intros Hv Hm. rewrite (on_tree_ok rb m w s a s Hv Hm). f_equal. f_equal.
  unfold view in Hv. destruct (trees w !! rb) as [t|] eqn:Ht; [|done].
  simpl in Hv. injection Hv as <-. simpl. destruct w as [tr c n]. simpl in *.
  f_equal. apply insert_id. by destruct t.
Qed.

End World.

Section Range.
Context {Item : Type} (less : Item → Item → bool) `{!LessOrder less}.
Implicit Types (t : tree (Item:=Item)) (l pre post : list Item).

Lemma filter_none (p : Item → bool) l :
  Forall (λ y, p y = false) l → List.filter p l = [].
Proof.
  induction l as [|x l IH]; intros H; [done|].
  apply Forall_cons in H as [Hx H]. simpl. rewrite Hx. by apply IH.
Qed.

Lemma filter_all (p : Item → bool) l :
  Forall (λ y, p y = true) l → List.filter p l = l.
Proof.
  induction l as [|x l IH]; intros H; [done|].
  apply Forall_cons in H as [Hx H]. simpl. rewrite Hx. f_equal. by apply IH.
Qed.

(** On an ascending list, cutting at the first item above [to] is filtering. *)
Lemma take_while_filter (from to : Item) post :
  ascending less post →
  Forall (λ y, less y from = false) post →
  take_while (λ y, negb (less to y)) post
  = List.filter (λ y, negb (less y from) && negb (less to y)) post.
Proof.
  induction post as [|x post IH]; intros Hs Hf; [done|].
  apply Forall_cons in Hf as [Hx Hf].
  apply StronglySorted_cons in Hs as [Hxs Hs].
  simpl. rewrite Hx. simpl. destruct (less to x) eqn:E; simpl.
  - symmetry. apply filter_none.
    eapply Forall_impl; [exact Hxs|]. intros y Hy. simpl in Hy.
    rewrite (lt_trans less to x y E Hy). by rewrite andb_false_r.
  - f_equal. by apply IH.
Qed.

(** The items from the ceiling of [from] up to [to] are the items of the
    closed range. *)
Lemma range_filter (from to : Item) l pre post :
  ascending less l → l = pre ++ post →
  Forall (λ y, lt less y from) pre →
  match post with [] => True | k' :: _ => less k' from = false end →
  take_while (λ y, negb (less to y)) post
  = List.filter (λ y, negb (less y from) && negb (less to y)) l.
Proof.
  intros Hs -> Hpre Hhd.
  rewrite List.filter_app.
  rewrite (filter_none _ pre), app_nil_l.
  2:{ eapply Forall_impl; [exact Hpre|]. intros y Hy. simpl. unfold lt in Hy. by rewrite Hy. }
  apply StronglySorted_app_1_r in Hs.
  apply take_while_filter; [done|].
  destruct post as [|k' post]; [done|].
  apply Forall_cons. split; [done|].
  apply StronglySorted_cons in Hs as [Hk' _].
  eapply Forall_impl; [exact Hk'|]. intros y Hy. simpl in Hy.
  destruct (less y from) eqn:E; [|done].
  by rewrite (lt_trans less k' y from Hy E) in Hhd.
Qed.

(** The items up to [to] are the first part of the split [floor] makes. *)
Lemma floor_filter (to : Item) l pre post :
  ascending less l → l = pre ++ post →
  Forall (lt less to) post →
  (pre = [] ∨ ∃ pre' k', pre = pre' ++ [k'] ∧ less to k' = false) →
  List.filter (λ y, negb (less to y)) l = pre.
Proof.
  intros Hs -> Hpost Hpre.
  rewrite List.filter_app.
  rewrite (filter_none _ post), app_nil_r.
  2:{ eapply Forall_impl; [exact Hpost|]. intros y Hy. simpl. unfold lt in Hy. by rewrite Hy. }
  apply StronglySorted_app_1_l in Hs.
  apply filter_all.
  destruct Hpre as [->|(pre' & k' & -> & Hk')]; [done|].
  apply Forall_app. split; [|by repeat constructor; rewrite Hk'].
  apply Forall_forall. intros y Hy. simpl.
  destruct (less to y) eqn:E; [|done].
  assert (lt less y k') as Hyk.
  { eapply StronglySorted_app_1_elem_of; [exact Hs|done|apply in_here]. }
  by rewrite (lt_trans less to y k' E Hyk) in Hk'.
Qed.

(** A stored item equal to [to] is the last item up to [to]. *)
Lemma filter_last_eqv (to k : Item) l :
  ascending less l → k ∈ l → eqv less to k →
  last (List.filter (λ y, negb (less to y)) l) = Some k.
Proof.
  intros Hs Hin He.
  apply list_elem_of_split in Hin as (l1 & l2 & ->).
  rewrite List.filter_app. simpl. destruct He as [He1 He2]. rewrite He1. simpl.
  rewrite (filter_none _ l2).
  - apply last_snoc.
  - apply StronglySorted_app_1_r, StronglySorted_cons in Hs as [Hs _].
    eapply Forall_impl; [exact Hs|]. intros y Hy. simpl.
    by rewrite (lt_eqv_l less to k y).
Qed.

(** [Max] of a view: the last item that [toKey] is not less than. *)
Lemma subTree_Max_spec (st : subTree Item) (w : world Item) s t fuel :
  view (st_tree st) w = Some s → Inv less s t → (size t < fuel)%nat →
  subTree_Max less fuel st w
  = Ok (last (List.filter (λ y, negb (less (toKey st) y)) (inorder t)), w).
Proof.
  intros Hv [HR Hlen Hbst Hblack] Hfuel.
  destruct (node_floor_spec less s t (toKey st) fuel HR Hbst Hfuel)
    as (z & Hrun & pre & post & Hsplit & Hpost & Hpre).
  unfold subTree_Max. apply (on_tree_ro _ _ _ s); [done|].
  unfold bind, get_root, liftR. rewrite Hrun. simpl.
  rewrite (floor_filter (toKey st) (inorder t) pre post Hbst Hsplit Hpost).
  2:{ destruct Hpre as [[-> _]|(pre' & k' & cs & c & l & r & -> & Hk' & _)]; [by left|].
      right. by exists pre', k'. }
  destruct Hpre as [[-> ->]|(pre' & k' & cs & c & l & r & -> & Hk' & Hp)].
  - destruct (decide (tNil = tNil)); done.
  - assert (z ≠ tNil) as HzT.
    { eapply Rh_addr_ne_tNil; [exact HR|]. rewrite <- Hp, addrs_plug. simpl. in_tac. }
    destruct (decide (z = tNil)); [done|].
    rewrite <- Hp in HR. unfold load. rewrite (Rh_lookup _ _ _ _ _ _ _ HR). simpl.
    by rewrite last_snoc.
Qed.

(** The iteration of a view: the items of the closed range, in order. *)
Lemma subTree_iterate_spec (st : subTree Item) (w : world Item) s t fuel :
  view (st_tree st) w = Some s → Inv less s t → (size t < fuel)%nat →
  ∃ it, subTree_NewIterator less fuel st w = Ok (it, w) ∧
        iterate less fuel it (w_cells w)
        = Ok (List.filter (subTree_inRange less st) (inorder t)).
Proof.
  intros Hv [HR Hlen Hbst Hblack] Hfuel.
  destruct (node_ceiling_spec less s t (fromKey st) fuel HR Hbst Hfuel)
    as (z & Hrun & pre & post & Hsplit & Hpre & Hpost).
  eexists. split.
  - unfold subTree_NewIterator. apply (on_tree_ro _ _ _ s); [done|].
    unfold bind, get_root, liftR, ret. rewrite Hrun. done.
  - assert (w_cells w = cells s) as ->.
    { unfold view in Hv. destruct (trees w !! st_tree st); [|done].
      simpl in Hv. by injection Hv as <-. }
    unfold subTree_inRange.
    rewrite <- (range_filter (fromKey st) (toKey st) (inorder t) pre post Hbst Hsplit Hpre).
    2:{ destruct post; [done|]. apply Hpost. }
    destruct post as [|k' post].
    + subst z. apply iterate_sub_tNil. lia.
    + destruct Hpost as [Hk' Hpos].
      apply (iterate_sub_first less s t z); try done.
      by apply (before_pos_length t z).
Qed.

End Range.

(** ** Proofs: Insert keeps the red-black properties *)

(** Conjunctions of facts about colours and heights that are at hand. *)
Ltac rb_done := repeat split; intros; try done; try tauto.

Section Colors.
Context {Item : Type}.
Implicit Types (t u z : tree (Item:=Item)) (cs : list (frame (Item:=Item))).
Implicit Types (f : frame (Item:=Item)).

Lemma color_cases (c : color) : c ≠ red → c = black.
Proof. by destruct c. Qed.

Lemma no_red_red_fill f u :
  no_red_red (fill f u) ↔
  (fcolor f = red → tcolor u = black ∧ tcolor (fsib f) = black) ∧
  no_red_red u ∧ no_red_red (fsib f).
Proof. destruct f; simpl; tauto. Qed.

Lemma black_height_fill f u m :
  black_height m (fill f u) ↔
  match fcolor f with
  | red => black_height m u ∧ black_height m (fsib f)
  | black => ∃ n, m = S n ∧ black_height n u ∧ black_height n (fsib f)
  end.
Proof.
  destruct f as [[] a k r|[] l a k]; simpl; try tauto.
  - destruct m; [split; [done|by intros (? & ? & _)]|].
    split; [by eauto|]. by intros (n & [= ->] & ?).
  - destruct m; [split; [done|by intros (? & ? & _)]|].
    split; [intros []; by eauto|]. by intros (n & [= ->] & ? & ?).
Qed.

Lemma blacken_rb t n :
  no_red_red t → black_height n t →
  no_red_red (blacken t) ∧ ∃ m, black_height m (blacken t).
Proof.
  destruct t as [|[] l a k r]; simpl.
  - by eauto.
  - intros (_ & Hl & Hr) [Hbl Hbr]. split; [done|]. by exists (S n).
  - intros (_ & Hl & Hr) Hb. split; [done|]. by exists n.
Qed.

(** Filling the hole with a red-black tree of the right height gives a
    red-black tree, when a red root does not come below a red node. *)
Lemma plug_rb cs : ∀ u n,
  ctx_rb n cs → no_red_red u → black_height n u →
  (tcolor u = red → match cs with [] => True | f :: _ => fcolor f = black end) →
  no_red_red (plug cs u) ∧ ∃ m, black_height m (plug cs u).
Proof.
  induction cs as [|f cs IH]; intros u n Hc Hn Hb Hred; simpl.
  - by eauto.
  - destruct Hc as (Hns & Hbs & Hfr & Hc).
    apply (IH (fill f u) _ Hc).
    + apply no_red_red_fill. split_and!; [|done..].
      intros Hf. split; [|by apply Hfr].
      apply color_cases. intros Hu. specialize (Hred Hu). congruence.
    + apply black_height_fill. destruct (fcolor f); [done|by eauto].
    + intros Hf. apply Hfr. by destruct f.
Qed.

(** And a red-black tree splits that way at every position. *)
Lemma plug_rb_inv cs : ∀ u m,
  no_red_red (plug cs u) → black_height m (plug cs u) →
  ∃ n, ctx_rb n cs ∧ no_red_red u ∧ black_height n u ∧
       match cs with [] => True | f :: _ => fcolor f = red → tcolor u = black end.
Proof.
  induction cs as [|f cs IH]; intros u m Hn Hb; simpl in *.
  - by eauto.
  - destruct (IH _ _ Hn Hb) as (n' & Hc & Hnf & Hbf & Hhead).
    apply no_red_red_fill in Hnf as (Hfr & Hnu & Hns).
    apply black_height_fill in Hbf.
    assert (fcolor f = red → match cs with [] => True | f' :: _ => fcolor f' = black end)
      as Hpar.
    { intros Hf. destruct cs as [|f' cs]; [done|].
      apply color_cases. intros Hf'. specialize (Hhead Hf').
      destruct f; simpl in *; congruence. }
    destruct (fcolor f) eqn:Hcf.
    + destruct Hbf as [Hbu Hbs]. exists n'. split_and!; try done.
      * intros _. split; [by apply Hfr|by apply Hpar].
      * by apply Hfr.
    + destruct Hbf as (n & -> & Hbu & Hbs). exists n. split_and!; done.
Qed.

Lemma plug_blacken_rb cs u n :
  ctx_rb n cs → no_red_red u → black_height n u →
  (tcolor u = red → match cs with [] => True | f :: _ => fcolor f = black end) →
  no_red_red (blacken (plug cs u)) ∧ ∃ m, black_height m (blacken (plug cs u)).
Proof.
  intros Hc Hn Hb Hred.
  destruct (plug_rb cs u n Hc Hn Hb Hred) as [Hn' [m Hm]].
  by apply (blacken_rb _ m).
Qed.

Lemma red_node_rb n z : red_node n z → no_red_red z ∧ black_height n z.
Proof.
  destruct z as [|c l a k r]; [done|].
  intros (-> & Hl & Hr & Hnl & Hnr & Hbl & Hbr). simpl. tauto.
Qed.

Lemma blacken_red t n :
  tcolor t = red → no_red_red t → black_height n t →
  no_red_red (blacken t) ∧ black_height (S n) (blacken t).
Proof.
  destruct t as [|c l a k r]; [done|]. simpl. intros ->. simpl. tauto.
Qed.

(** [insertFixup] restores the red-black properties from a red node below a
    possibly red parent. *)
Lemma ins_fix_rb cs : ∀ z n,
  ctx_rb n cs → root_ok cs → red_node n z →
  no_red_red (ins_fix cs z) ∧ ∃ m, black_height m (ins_fix cs z).
Proof.
  induction cs as [|f1|f1 f2 cs IH] using list_ind2; intros z n Hc Hroot Hz.
  - destruct (red_node_rb _ _ Hz) as [Hnz Hbz].
    apply (blacken_rb _ n); done.
  - assert (fcolor f1 = black) as Hf1 by exact Hroot.
    destruct (red_node_rb _ _ Hz) as [Hnz Hbz].
    cbn [ins_fix]. rewrite Hf1. by apply (plug_blacken_rb _ _ n).
  - destruct (red_node_rb _ _ Hz) as [Hnz Hbz].
    pose proof Hc as (Hns1 & Hbs1 & Hfr1 & Hns2 & Hbs2 & Hfr2 & Hc2).
    cbn [ins_fix]. destruct (fcolor f1) eqn:Hf1; [|by apply (plug_blacken_rb _ _ n)].
    destruct (Hfr1 eq_refl) as [Hs1 Hf2]. rewrite Hf2 in Hc2.
    apply root_ok_tail in Hroot.
    destruct z as [|c zl za zk zr]; [done|].
    destruct Hz as (-> & Hl & Hr & Hnl & Hnr & Hbl & Hbr).
    destruct f2 as [cg g kg u|cg u g kg]; simpl in Hns2, Hbs2, Hf2; subst cg.
    + destruct (tcolor u) eqn:Hu.
      * destruct (blacken_red u n Hu Hns2 Hbs2) as [Hnu Hbu].
        apply (IH _ (S n) Hc2 Hroot). simpl.
        rewrite !tcolor_blacken.
        destruct f1 as [c1 p kp rp|c1 lp p kp]; simpl in *; subst c1; simpl.
        all: rb_done.
      * destruct f1 as [c1 p kp rp|c1 lp p kp]; simpl in *; subst c1.
        all: apply (plug_blacken_rb _ _ (S n)); [exact Hc2|simpl; rb_done|simpl; rb_done|done].
    + destruct (tcolor u) eqn:Hu.
      * destruct (blacken_red u n Hu Hns2 Hbs2) as [Hnu Hbu].
        apply (IH _ (S n) Hc2 Hroot). simpl.
        rewrite !tcolor_blacken.
        destruct f1 as [c1 p kp rp|c1 lp p kp]; simpl in *; subst c1; simpl; rb_done.
      * destruct f1 as [c1 p kp rp|c1 lp p kp]; simpl in *; subst c1.
        all: apply (plug_blacken_rb _ _ (S n)); [exact Hc2|simpl; rb_done|simpl; rb_done|done].
Qed.

End Colors.

Section InsertColors.
Context {Item : Type} (less : Item → Item → bool) `{!LessOrder less}.
Implicit Types (t : tree (Item:=Item)) (cs : list (frame (Item:=Item))).

Lemma ins_tree_rb key (z : addr) t :
  tcolor t = black → no_red_red t → (∃ n, black_height n t) →
  no_red_red (ins_tree less key z t) ∧ ∃ m, black_height m (ins_tree less key z t).
Proof.
  intros Hblack Hn [m Hm].
  pose proof (descend_plug less key t []) as Hplug. simpl in Hplug.
  unfold ins_tree. destruct (descend less key [] t) as [cs sub]. simpl in Hplug.
  rewrite <- Hplug in Hblack, Hn, Hm.
  destruct (plug_rb_inv cs sub m Hn Hm) as (n & Hc & Hns & Hbs & Hhead).
  destruct sub as [|c l a k r].
  - simpl in Hbs. subst n.
    apply (ins_fix_rb cs _ 0%nat Hc); [by eapply root_ok_plug|]. simpl. done.
  - apply (plug_rb cs _ n Hc); [exact Hns|exact Hbs|].
    simpl. intros ->. destruct cs as [|f cs]; [done|].
    apply color_cases. intros Hf. by specialize (Hhead Hf).
Qed.

(** [Insert] keeps the red-black properties of the spec. *)
Lemma Insert_red_black (s : store Item) t key fuel :
  Inv less s t → red_black less t → (size t < fuel)%nat →
  ∃ s', rbTree_Insert less fuel key s = Ok ((ins_fresh less key t, None), s') ∧
        Inv less s' (ins_tree less key (next s) t) ∧
        red_black less (ins_tree less key (next s) t).
Proof.
  intros HI (Hblack & Hn & Hb & Hasc) Hfuel.
  destruct (Insert_spec less s t key fuel HI Hfuel) as (s' & Hrun & HI' & _).
  exists s'. split; [done|]. split; [done|].
  destruct (ins_tree_rb key (next s) t Hblack Hn Hb) as [Hn' Hb'].
  split_and!; [apply HI'|done|done|apply HI'].
Qed.

(** Every sequence of [Insert]s on a new tree returns and leaves a red-black
    tree. *)
Lemma insert_all_red_black (seq : list Item) : ∀ (s : store Item) t fuel,
  Inv less s t → red_black less t → (size t + List.length seq < fuel)%nat →
  ∃ s', insert_all less fuel seq s = Ok (tt, s') ∧
        Inv less s' (ins_all less seq (next s) t) ∧
        red_black less (ins_all less seq (next s) t).
Proof.
  induction seq as [|item rest IH]; intros s t fuel HI Hrb Hfuel; simpl.
  - by exists s.
  - destruct (Insert_spec_next less s t item fuel HI) as (s1 & Hrun & HI1 & Hnext);
      [simpl in Hfuel; lia|].
    destruct (Insert_red_black s t item fuel HI Hrb) as (s1' & Hrun' & _ & Hrb1);
      [simpl in Hfuel; lia|].
    destruct (IH s1 (ins_tree less item (next s) t) fuel HI1 Hrb1) as (s2 & Hrun2 & HI2 & Hrb2).
    { rewrite (size_ins_tree less) by apply HI. simpl in Hfuel.
      destruct (ins_fresh _ _ _); lia. }
    exists s2. rewrite (bind_ok _ _ _ _ _ Hrun). rewrite Hnext in HI2, Hrb2. done.
Qed.

End InsertColors.

(** ** The scenarios of the tests, as facts *)

Global Instance IntItem_LessOrder : LessOrder IntItem_Less.
Proof. split; unfold IntItem_Less; intros; lia. Qed.

(** That a given store holds a given tree, and the invariant of a given
    store and tree, by evaluation. *)
Ltac rh_by_compute :=
  split;
  [ eexists; vm_compute; reflexivity
  | vm_compute; reflexivity
  | apply (bool_decide_unpack _); vm_compute; exact I
  | vm_compute; reflexivity
  | simpl; repeat split; vm_compute; reflexivity
  | apply (bool_decide_unpack _); vm_compute; exact I ].

Ltac inv_by_compute :=
  split; [rh_by_compute | vm_compute; reflexivity | repeat constructor | reflexivity ].

Lemma Inv_store1 : Inv IntItem_Less store1 Leaf.
Proof. inv_by_compute. Qed.

Lemma Inv_store6 : Inv IntItem_Less (store_of seq6) tree6.
Proof. inv_by_compute. Qed.

Lemma Inv_store18 : Inv IntItem_Less (store_of seq18) tree18.
Proof. inv_by_compute. Qed.

Lemma view_world18 : view rb1 (world_of seq18) = Some (store_of seq18).
Proof. vm_compute. reflexivity. Qed.

(** The last case of [TestInsert], and the items of [TestIterator]. *)
Example TestInsert_colors :
  colored tree6
  = [(8, red); (12, black); (19, red); (31, black); (38, black); (41, black)].
Proof. reflexivity. Qed.

Example TestIterator_items :
  rbTree_items IntItem_Less 50 (store_of seq18)
  = Ok ([-1; 0; 1; 2; 6; 8; 9; 12; 19; 21; 23; 31; 32; 38; 41; 57; 100], store_of seq18).
Proof. vm_compute. reflexivity. Qed.

(** ** The properties of the specification *)

Section Properties.
Context {Item : Type} (less : Item → Item → bool).
Implicit Types (t : tree (Item:=Item)).

Lemma ascending_filter `{!LessOrder less} (p : Item → bool) (l : list Item) :
  ascending less l → ascending less (List.filter p l).
Proof.
  induction l as [|x l IH]; intros Hs; [done|].
  apply StronglySorted_cons in Hs as [Hx Hs]. simpl.
  destruct (p x); [|by apply IH].
  apply StronglySorted_cons. split; [|by apply IH].
  apply Forall_forall. intros y Hy.
  apply list_elem_of_In, List.filter_In in Hy as [Hy _].
  rewrite Forall_forall in Hx. by apply Hx, list_elem_of_In.
Qed.

(** [Insert] puts an equal item into the node of the stored one; the store
    after it is the store before it with that cell and the unused new node. *)
Lemma Insert_found_run `{!LessOrder less} (s : store Item) t item cs c l a k r fuel :
  Rh s t → descend less item [] t = (cs, Nd c l a k r) → (size t < fuel)%nat →
  rbTree_Insert less fuel item s
  = Ok ((false, None),
        mkStore (root s) (length s)
          (<[a := mkNode c (Some item) (ptr l) (ptr r) (cpar cs)]>
             (<[next s := mkNode red (Some item) tNil tNil tNil]> (cells s)))
          (S (next s))).
Proof.
  intros HR Hd Hfuel.
  destruct (alloc_spec s t (mkNode red (Some item) tNil tNil tNil) HR)
    as (Hrun0 & HR0 & Hz & Hfresh & HzT & HzG).
  set (s0 := mkStore _ _ _ _) in *.
  pose proof (descend_plug less item t []) as Hplug.
  pose proof (find_loop_descend less (cells s0) item t [] fuel
                (Rh_sentinel _ _ HR0) (Rh_rep _ _ HR0) Hfuel) as Hfind.
  rewrite Hd in Hplug, Hfind. simpl in Hplug, Hfind. subst t.
  assert (a ≠ tNil) as Ha.
  { eapply Rh_addr_ne_tNil; [exact HR|]. rewrite addrs_plug. simpl. in_tac. }
  assert (a ≠ next s) as Hne.
  { intros E. apply Hfresh. rewrite addrs_plug, <- E. simpl. in_tac. }
  pose proof (Rh_lookup _ _ _ _ _ _ _ HR0) as Hla.
  unfold rbTree_Insert. rewrite (bind_ok _ _ _ _ _ Hrun0).
  unfold insert, find, bind, load, get_root, liftR, set_item, modify, ret.
  rewrite Hz. simpl. rewrite (Rh_root _ _ HR), Hfind. simpl.
  destruct (decide (a ≠ tNil)); [|done].
  simpl. rewrite lookup_insert_eq. simpl. simpl in Hla. rewrite Hla. simpl.
  destruct (decide (a = next s)); [done|]. by rewrite (Rh_root _ _ HR).
Qed.

(** C5: for every tree and every item equal, for the comparison, to an item
    already stored, [Insert] overwrites the stored item in place: the node
    [a] that holds the equal item gets the new item, every cell that existed
    keeps its colour and its links (no structural change, no colour change),
    the root stays, [Insert] returns [false] with a nil error, [Len] is
    unchanged, and a subsequent [Find], of the item or of any item equal to
    it, returns the inserted item. *)
Theorem C5_insert_equal_replaces `{!LessOrder less}
    (s : store Item) t (item k : Item) (fuel : nat) :
  Inv less s t → k ∈ inorder t → eqv less item k → (size t < fuel)%nat →
  ∃ a n k0 s',
    cells s !! a = Some n ∧ n_item n = Some k0 ∧ eqv less item k0 ∧
    rbTree_Insert less fuel item s = Ok ((false, None), s') ∧
    root s' = root s ∧
    cells s' !! a
      = Some (mkNode (n_color n) (Some item) (n_left n) (n_right n) (n_parent n)) ∧
    (∀ p, p ≠ a → p ≠ next s → cells s' !! p = cells s !! p) ∧
    rbTree_Len s' = Ok (length s, s') ∧
    (∀ q, eqv less q item → rbTree_Find less fuel q s' = Ok (Some item, s')).
Proof.
  intros HI Hin He Hfuel. pose proof HI as [HR Hlen Hbst Hblack].
  destruct (descend_present less item t k Hbst Hin He) as (cs & c & l & a & k0 & r & Hd).
  destruct (ins_tree_found less item (next s) t _ _ _ _ _ _ Hbst Hd)
    as (Ht & Heqv & Hpath & Hins & Hasc & Hsize & Hcol).
  pose proof (Insert_found_run s t item cs c l a k0 r fuel HR Hd Hfuel) as Hrun.
  destruct (Insert_spec less s t item fuel HI Hfuel) as (s' & Hrun' & HI' & _).
  rewrite Hrun in Hrun'. injection Hrun' as _ Hs'.
  rewrite Hins in HI'. rewrite <- Hs' in HI'.
  remember (mkStore (root s) _ _ _) as s1 eqn:Hs1 in Hrun, HI' |- *.
  assert (cells s !! a = Some (mkNode c (Some k0) (ptr l) (ptr r) (cpar cs))) as Hla.
  { rewrite Ht in HR. apply (Rh_lookup _ _ _ _ _ _ _ HR). }
  exists a, (mkNode c (Some k0) (ptr l) (ptr r) (cpar cs)), k0, s1.
  split_and!; try done.
  - by subst s1.
  - subst s1. simpl. by rewrite lookup_insert_eq.
  - intros p Hp1 Hp2. subst s1. simpl. rewrite !lookup_insert_ne by done. done.
  - by subst s1.
  - intros q Hq.
    pose proof (Inv_Rh _ _ _ HI') as HR1.
    pose proof (find_loop_descend less (cells s1) q _ [] fuel
                  (Rh_sentinel _ _ HR1) (Rh_rep _ _ HR1)) as Hfind.
    rewrite (descend_at less q cs c l a item r
               (path_ok_eqv less item q cs (eqv_sym less q item Hq) Hpath) Hq) in Hfind.
    simpl in Hfind.
    unfold rbTree_Find, find, bind, get_root, liftR.
    rewrite (Rh_root _ _ HR1), Hfind by (rewrite Hsize; lia). simpl.
    assert (a ≠ tNil) as Ha.
    { eapply Rh_addr_ne_tNil; [exact HR1|]. rewrite addrs_plug. simpl. in_tac. }
    destruct (decide (a = tNil)); [done|].
    unfold load. rewrite (Rh_lookup _ _ _ _ _ _ _ HR1). done.
Qed.

(** C6: for every sequence of $N$ pairwise different keys inserted, in the
    order given, into a new (empty) tree, every [Insert] returns, iterating
    from [NewIterator] with the loop of the tests yields exactly those $N$
    items (a permutation of the sequence), in ascending order, and [Len] is
    $N$.  $N$ is below $2^{63}$, the range of Go's [int]. *)
Theorem C6_insert_iterate_roundtrip `{!LessOrder less}
    (s0 : store Item) (seq : list Item) (fuel : nat) :
  Inv less s0 Leaf → distinct less seq →
  (List.length seq < fuel)%nat → Z.of_nat (List.length seq) < 2 ^ 63 →
  ∃ s l,
    insert_all less fuel seq s0 = Ok (tt, s) ∧
    rbTree_items less fuel s = Ok (l, s) ∧
    l ≡ₚ seq ∧ ascending less l ∧ List.length l = List.length seq ∧
    rbTree_Len s = Ok (Z.of_nat (List.length seq), s).
Proof.
  intros HI0 Hd Hfuel Hsmall.
  destruct (insert_all_spec less seq s0 Leaf fuel HI0) as (s & Hrun & HI); [simpl; lia|].
  destruct (ins_all_distinct less seq (next s0) Leaf Hd) as (Hperm & Hasc & Hsize).
  { constructor. }
  { apply Forall_forall. intros; constructor. }
  simpl in Hperm, Hsize. rewrite app_nil_r in Hperm. rewrite Nat.add_0_r in Hsize.
  destruct (NewIterator_iterate less s _ fuel HI) as (it & Hit & Hiter);
    [rewrite Hsize; lia..|].
  exists s, (inorder (ins_all less seq (next s0) Leaf)). split_and!; try done.
  - unfold rbTree_items, liftR. rewrite (bind_ok _ _ _ _ _ Hit), Hiter. done.
  - by rewrite <- size_inorder.
  - unfold rbTree_Len, get_length. rewrite (Inv_length _ _ _ HI), Hsize.
    rewrite wrap_int_small by lia. done.
Qed.

(** C9: for every tree and every item that is equal to no stored item,
    [Remove] returns [false] with a nil error and leaves the store, hence
    the structure of the tree and [Len], as it is, and [Find] returns
    absent. *)
Theorem C9_remove_find_missing
    (s : store Item) t (item : Item) (fuel : nat) :
  Inv less s t → Forall (λ k, ¬ eqv less item k) (inorder t) → (size t < fuel)%nat →
  rbTree_Remove less fuel item s = Ok ((false, None), s) ∧
  rbTree_Find less fuel item s = Ok (None, s).
Proof.
  intros [HR Hlen Hbst Hblack] Hall Hfuel.
  pose proof (find_loop_descend less (cells s) item t [] fuel
                (Rh_sentinel _ _ HR) (Rh_rep _ _ HR) Hfuel) as Hfind.
  rewrite (descend_absent less item t Hall) in Hfind. simpl in Hfind.
  unfold rbTree_Remove, rbTree_Find, find, bind, get_root, liftR.
  rewrite (Rh_root _ _ HR), Hfind. simpl.
  destruct (decide (tNil = tNil)); done.
Qed.

(** C10: [Insert] and [Remove] of a plain tree have no statement that
    returns an error other than nil, and [Insert] returns on every tree that
    satisfies the invariant; [Remove] returns too, with [true], on the tree
    of [TestInsert] and the item 8.  But [Remove] does not always return:
    [Insert] of 2, 1, 4, 3 into a new tree builds a red-black tree, and
    [Remove] of 1 from it panics.  [removeFixup] reaches its case 3 with the
    root as the parent, continues with [x = x.parent] where the sibling was
    to be taken again, and case 4 rotates the sentinel: [leftRotate] follows
    the right link of the sentinel, which is the Go nil pointer. *)
Theorem C10_remove_panics_on_plain_tree `{!LessOrder less} :
  (∃ s0,
     insert_all IntItem_Less 10 seq_panic store1 = Ok (tt, s0) ∧
     Inv IntItem_Less s0 tree_panic ∧ red_black IntItem_Less tree_panic ∧
     ∀ fuel, rbTree_Remove IntItem_Less (5 + fuel) 1 s0 = Panic) ∧
  (∀ fuel item (s : store Item),
     match rbTree_Insert less fuel item s with
     | Ok ((_, e), _) => e = None
     | _ => True
     end) ∧
  (∀ fuel item (s : store Item),
     match rbTree_Remove less fuel item s with
     | Ok ((_, e), _) => e = None
     | _ => True
     end) ∧
  (∀ fuel item (s : store Item) t,
     Inv less s t → (size t < fuel)%nat →
     ∃ b s', rbTree_Insert less fuel item s = Ok ((b, None), s')) ∧
  (∃ s', rbTree_Remove IntItem_Less 50 8 (store_of seq6) = Ok ((true, None), s')).
Proof.
  split_and!.
  - eexists. split; [vm_compute; reflexivity|]. split; [inv_by_compute|]. split.
    + split_and!; [reflexivity|simpl; intuition congruence|exists 2%nat; simpl; tauto|].
      repeat constructor.
    + intros fuel. vm_compute. reflexivity.
  - intros fuel item s. unfold rbTree_Insert, bind.
    destruct (alloc _ s) as [[z s1]| |]; [|done..].
    destruct (insert less fuel z s1) as [[res s2]| |]; [|done..].
    destruct (decide (res = z)); unfold bind, get_length, set_length, ret; done.
  - intros fuel item s. unfold rbTree_Remove, bind.
    destruct (find less fuel (Some item) s) as [[zy s1]| |]; [|done..].
    destruct (decide (zy.1 = tNil)); [done|]. unfold bind.
    destruct (remove fuel zy.1 s1) as [[[] s2]| |]; done.
  - intros fuel item s t HI Hfuel.
    destruct (Insert_spec less s t item fuel HI Hfuel) as (s' & Hrun & _).
    by eauto.
  - eexists. vm_compute. reflexivity.
Qed.

(** C3, amended: through a view with bounds [fromKey] and [toKey], [Insert]
    and [Remove] of an item below [fromKey] or above [toKey] return [false]
    with the error [ErrorOutOfSubTreeRange] and leave the memory, hence the
    backing tree, as it is, and [Find] returns absent; for an item from
    [fromKey] to [toKey], both included, each of the three is the call on
    the backing tree. *)
Theorem C3_view_range_check
    (st : subTree Item) (item : Item) (w : world Item) (fuel : nat) :
  (less item (fromKey st) = true ∨ less (toKey st) item = true →
     subTree_Insert less fuel st item w = Ok ((false, Some ErrorOutOfSubTreeRange), w) ∧
     subTree_Remove less fuel st item w = Ok ((false, Some ErrorOutOfSubTreeRange), w) ∧
     subTree_Find less fuel st item w = Ok (None, w)) ∧
  (less item (fromKey st) = false → less (toKey st) item = false →
     subTree_Insert less fuel st item w
       = on_tree (st_tree st) (rbTree_Insert less fuel item) w ∧
     subTree_Remove less fuel st item w
       = on_tree (st_tree st) (rbTree_Remove less fuel item) w ∧
     subTree_Find less fuel st item w
       = on_tree (st_tree st) (rbTree_Find less fuel item) w).
Proof.
  unfold subTree_Insert, subTree_Remove, subTree_Find, subTree_inRange. split.
  - intros [H|H]; rewrite H; simpl; rewrite ?andb_false_r; done.
  - intros -> ->. done.
Qed.

(** C2, amended: for every view over a tree that satisfies the invariant,
    iterating the view yields exactly the items of the tree from [fromKey]
    to [toKey], both included (an item equal to [toKey] is yielded), in
    ascending order, and leaves the memory as it is.  A call of [Next]
    whose underlying item is greater than [toKey] puts the iterator past
    the rear and yields nothing; every other item is passed on.  For the
    bounds 5 and 31 over the 18 keys of the tests the iteration yields 6, 8,
    9, 12, 19, 21, 23, 31. *)
Theorem C2_view_iteration_closed_range `{!LessOrder less} :
  (∀ (st : subTree Item) (w : world Item) (s : store Item) t (fuel : nat),
     view (st_tree st) w = Some s → Inv less s t → (size t < fuel)%nat →
     subTree_items less fuel st w
       = Ok (List.filter (subTree_inRange less st) (inorder t), w) ∧
     ascending less (List.filter (subTree_inRange less st) (inorder t)) ∧
     (∀ k, k ∈ List.filter (subTree_inRange less st) (inorder t) ↔
           k ∈ inorder t ∧ less k (fromKey st) = false ∧ less (toKey st) k = false)) ∧
  (∀ (sit : subIterator Item) (h : gmap addr (node Item)) (fuel : nat) i it',
     it_state (si_iterator sit) ≠ pastRear →
     iterator_Next fuel (si_iterator sit) h = Ok (Some i, it') →
     subIterator_Next less fuel sit h
     = Ok (if less (si_toKey sit) i
           then (None, mkSubIterator (mkIterator (it_node it') pastRear) (si_toKey sit))
           else (Some i, mkSubIterator it' (si_toKey sit)))) ∧
  subTree_items IntItem_Less 50 view_5_31 (world_of seq18)
    = Ok ([6; 8; 9; 12; 19; 21; 23; 31], world_of seq18).
Proof.
  split_and!.
  - intros st w s t fuel Hv HI Hfuel.
    destruct (subTree_iterate_spec less st w s t fuel Hv HI Hfuel) as (it & Hit & Hiter).
    split_and!.
    + unfold subTree_items. rewrite Hit. simpl. rewrite Hiter. done.
    + apply ascending_filter, HI.
    + intros k. rewrite list_elem_of_In, List.filter_In, <- list_elem_of_In.
      unfold subTree_inRange. rewrite andb_true_iff, !negb_true_iff. done.
  - intros sit h fuel i it' Hst Hnext. unfold subIterator_Next.
    destruct (decide (it_state (si_iterator sit) = pastRear)); [done|].
    rewrite Hnext. simpl. by destruct (less (si_toKey sit) i).
  - vm_compute. reflexivity.
Qed.

(** C7: for every backing tree that satisfies the invariant, [Max] of a
    view returns the item [floor(root, toKey)] finds: the last, in ascending
    order, of the stored items that [toKey] is not less than, absent when
    there is none; so a stored item equal to [toKey] is what [Max]
    returns. *)
Theorem C7_view_max_is_floor `{!LessOrder less}
    (st : subTree Item) (w : world Item) (s : store Item) t (fuel : nat) :
  view (st_tree st) w = Some s → Inv less s t → (size t < fuel)%nat →
  subTree_Max less fuel st w
    = Ok (last (List.filter (λ y, negb (less (toKey st) y)) (inorder t)), w) ∧
  (∀ k, k ∈ inorder t → eqv less (toKey st) k →
        subTree_Max less fuel st w = Ok (Some k, w)).
Proof.
  intros Hv HI Hfuel.
  rewrite (subTree_Max_spec less st w s t fuel Hv HI Hfuel). split; [done|].
  intros k Hin He. by rewrite (filter_last_eqv less (toKey st) k _ (Inv_bst _ _ _ HI) Hin He).
Qed.

End Properties.

(** ** The properties on the scenarios of the tests *)

(** C1: the invariants do not survive every sequence of [Insert] and
    [Remove].  On a new tree, [Insert] of 1, 2, 3, 4, 6, 5 gives a red-black
    tree; [Remove] of 2 then returns [(true, nil)] and leaves a tree that is
    not one: its paths from the root to the sentinel do not hold the same
    number of black nodes.  [removeFixup] reaches its case 3 (the sibling 6
    of the removed position is black, its near child 5 is red and its far
    child is the sentinel) and after the rotation continues with
    [x = x.parent] where the sibling was to be taken again,
    [w = x.parent.right]; case 4 then recolours and rotates around the wrong
    nodes.  When the parent is the root the same statement makes case 4
    rotate the sentinel, and [Remove] does not return at all: [Insert] of
    2, 1, 4, 3 and [Remove] of 1. *)
Theorem C1_remove_fixup_case3_breaks_black_height :
  (∃ s0 s,
     insert_all IntItem_Less 20 seq_case3 store1 = Ok (tt, s0) ∧
     Rh s0 tree_case3 ∧ red_black IntItem_Less tree_case3 ∧
     rbTree_Remove IntItem_Less 20 2 s0 = Ok ((true, None), s) ∧
     Rh s tree_case3_removed ∧
     ∀ t, Rh s t → ¬ red_black IntItem_Less t) ∧
  (insert_all IntItem_Less 10 [2; 1; 4; 3];; rbTree_Remove IntItem_Less 10 1) store1
  = Panic.
Proof.
  split; [|vm_compute; reflexivity].
  eexists. eexists.
  split; [vm_compute; reflexivity|].
  split; [rh_by_compute|].
  split.
  { split_and!; [reflexivity|simpl; intuition congruence|exists 2%nat; simpl; tauto|].
    repeat constructor. }
  split; [vm_compute; reflexivity|].
  match goal with
  | |- Rh ?s _ ∧ _ => assert (Rh s tree_case3_removed) as HR by rh_by_compute
  end.
  split; [exact HR|].
  intros t Ht. rewrite (Rh_unique _ _ _ Ht HR).
  intros (_ & _ & [n Hn] & _). simpl in Hn.
  destruct n as [|[|[|n]]]; simpl in Hn; intuition congruence.
Qed.

Lemma C1_witness : ¬ red_black IntItem_Less tree_case3_removed.
Proof.
  destruct C1_remove_fixup_case3_breaks_black_height
    as [(s0 & s & _ & _ & _ & _ & HR & Hno) _].
  exact (Hno tree_case3_removed HR).
Defined.

(** C4: [Min] and [Max] of an empty tree do not signal absence: they follow
    the left (right) link of the sentinel, which is the Go nil pointer, and
    the next step dereferences it.  And [Min] and [Max] of a view whose
    range holds no item return an item outside the range when the tree has
    one beyond it: over the tree that holds 10 only, [Min] for the bounds 1
    and 5, and [Max] for the bounds 11 and 20, return 10. *)
Theorem C4_min_max_empty_tree_panic :
  (∀ fuel, rbTree_Min (S (S fuel)) store1 = Panic) ∧
  (∀ fuel, rbTree_Max (S (S fuel)) store1 = Panic) ∧
  subTree_Min IntItem_Less 10 (mkSubTree rb1 1 5) (world_of [10])
    = Ok (Some 10, world_of [10]) ∧
  subTree_Max IntItem_Less 10 (mkSubTree rb1 11 20) (world_of [10])
    = Ok (Some 10, world_of [10]).
Proof.
  split_and!; [intros fuel; vm_compute; reflexivity..|vm_compute; reflexivity
              |vm_compute; reflexivity].
Qed.

(** C2 as stated fails: over the 18 keys of the tests, the view
    [SubTree(5, 31)] yields 31 as well. *)
Lemma C2_counterexample :
  rbTree_SubTree IntItem_Less rb1 5 31 = (Some (TreeSub view_5_31), None) ∧
  subTree_items IntItem_Less 50 view_5_31 (world_of seq18)
    = Ok ([6; 8; 9; 12; 19; 21; 23; 31], world_of seq18) ∧
  [6; 8; 9; 12; 19; 21; 23; 31] ≠ [6; 8; 9; 12; 19; 21; 23].
Proof. split_and!; [vm_compute; reflexivity..|discriminate]. Qed.

Lemma C2_witness :
  subTree_items IntItem_Less 50 view_5_31 (world_of seq18)
    = Ok (List.filter (subTree_inRange IntItem_Less view_5_31) (inorder tree18),
          world_of seq18) ∧
  ascending IntItem_Less
    (List.filter (subTree_inRange IntItem_Less view_5_31) (inorder tree18)) ∧
  (∀ k, k ∈ List.filter (subTree_inRange IntItem_Less view_5_31) (inorder tree18) ↔
        k ∈ inorder tree18 ∧ IntItem_Less k (fromKey view_5_31) = false
        ∧ IntItem_Less (toKey view_5_31) k = false).
Proof.
  apply (proj1 (C2_view_iteration_closed_range IntItem_Less) view_5_31 (world_of seq18)
           (store_of seq18) tree18 50%nat).
  - vm_compute. reflexivity.
  - inv_by_compute.
  - vm_compute. lia.
Defined.

(** C3 as stated fails at [toKey]: through the view [SubTree(5, 31)],
    [Insert] of 31, which is not less than [toKey], is not refused: it is
    the [Insert] of the backing tree, which replaces the stored 31 and
    returns a nil error. *)
Lemma C3_counterexample :
  IntItem_Less 31 (toKey view_5_31) = false ∧
  (∃ w, subTree_Insert IntItem_Less 50 view_5_31 31 (world_of seq18)
        = Ok ((false, None), w)) ∧
  subTree_Insert IntItem_Less 50 view_5_31 31 (world_of seq18)
    ≠ Ok ((false, Some ErrorOutOfSubTreeRange), world_of seq18).
Proof.
  split; [reflexivity|]. split.
  - eexists. vm_compute. reflexivity.
  - vm_compute. discriminate.
Qed.

Lemma C3_witness :
  (subTree_Insert IntItem_Less 50 view_5_31 4 (world_of seq18)
     = Ok ((false, Some ErrorOutOfSubTreeRange), world_of seq18) ∧
   subTree_Remove IntItem_Less 50 view_5_31 4 (world_of seq18)
     = Ok ((false, Some ErrorOutOfSubTreeRange), world_of seq18) ∧
   subTree_Find IntItem_Less 50 view_5_31 4 (world_of seq18)
     = Ok (None, world_of seq18)) ∧
  (subTree_Insert IntItem_Less 50 view_5_31 6 (world_of seq18)
     = on_tree (st_tree view_5_31) (rbTree_Insert IntItem_Less 50 6) (world_of seq18) ∧
   subTree_Remove IntItem_Less 50 view_5_31 6 (world_of seq18)
     = on_tree (st_tree view_5_31) (rbTree_Remove IntItem_Less 50 6) (world_of seq18) ∧
   subTree_Find IntItem_Less 50 view_5_31 6 (world_of seq18)
     = on_tree (st_tree view_5_31) (rbTree_Find IntItem_Less 50 6) (world_of seq18)).
Proof.
  split.
  - apply (proj1 (C3_view_range_check IntItem_Less view_5_31 4 (world_of seq18) 50)).
    left. reflexivity.
  - apply (proj2 (C3_view_range_check IntItem_Less view_5_31 6 (world_of seq18) 50));
      reflexivity.
Defined.

Global Instance KeyedItem_LessOrder : LessOrder KeyedItem_Less.
Proof. split; unfold KeyedItem_Less; intros; lia. Qed.

Lemma C5_witness :
  ∃ a n k0 s',
    cells keyed_store !! a = Some n ∧ n_item n = Some k0 ∧
    eqv KeyedItem_Less (1, 11) k0 ∧
    rbTree_Insert KeyedItem_Less 50 (1, 11) keyed_store = Ok ((false, None), s') ∧
    root s' = root keyed_store ∧
    cells s' !! a
      = Some (mkNode (n_color n) (Some (1, 11)) (n_left n) (n_right n) (n_parent n)) ∧
    (∀ p, p ≠ a → p ≠ next keyed_store →
          cells s' !! p = cells keyed_store !! p) ∧
    rbTree_Len s' = Ok (length keyed_store, s') ∧
    (∀ q, eqv KeyedItem_Less q (1, 11) →
          rbTree_Find KeyedItem_Less 50 q s' = Ok (Some (1, 11), s')).
Proof.
  apply (C5_insert_equal_replaces KeyedItem_Less keyed_store keyed_tree (1, 11) (1, 10) 50).
  - inv_by_compute.
  - apply (bool_decide_unpack _). vm_compute. exact I.
  - split; reflexivity.
  - vm_compute. lia.
Defined.

Lemma C6_witness :
  ∃ s l,
    insert_all IntItem_Less 50 seq6 store1 = Ok (tt, s) ∧
    rbTree_items IntItem_Less 50 s = Ok (l, s) ∧
    l ≡ₚ seq6 ∧ ascending IntItem_Less l ∧ List.length l = List.length seq6 ∧
    rbTree_Len s = Ok (Z.of_nat (List.length seq6), s).
Proof.
  apply (C6_insert_iterate_roundtrip IntItem_Less store1 seq6 50).
  - inv_by_compute.
  - repeat constructor; intros [H1 H2]; discriminate.
  - vm_compute. lia.
  - vm_compute. reflexivity.
Defined.

Lemma C7_witness :
  subTree_Max IntItem_Less 50 view_5_31 (world_of seq18)
    = Ok (last (List.filter (λ y, negb (IntItem_Less (toKey view_5_31) y)) (inorder tree18)),
          world_of seq18) ∧
  (∀ k, k ∈ inorder tree18 → eqv IntItem_Less (toKey view_5_31) k →
        subTree_Max IntItem_Less 50 view_5_31 (world_of seq18)
          = Ok (Some k, world_of seq18)).
Proof.
  apply (C7_view_max_is_floor IntItem_Less view_5_31 (world_of seq18)
           (store_of seq18) tree18 50).
  - vm_compute. reflexivity.
  - inv_by_compute.
  - vm_compute. lia.
Defined.

(** [Max] of the view [SubTree(5, 31)] is 31, the upper bound itself. *)
Example view_5_31_Max :
  subTree_Max IntItem_Less 50 view_5_31 (world_of seq18) = Ok (Some 31, world_of seq18).
Proof. vm_compute. reflexivity. Qed.

Lemma C9_witness :
  rbTree_Remove IntItem_Less 50 7 (store_of seq18) = Ok ((false, None), store_of seq18) ∧
  rbTree_Find IntItem_Less 50 7 (store_of seq18) = Ok (None, store_of seq18).
Proof.
  apply (C9_remove_find_missing IntItem_Less (store_of seq18) tree18 7 50).
  - inv_by_compute.
  - repeat constructor; intros [H1 H2]; discriminate.
  - vm_compute. lia.
Defined.

Lemma C10_witness :
  (∃ s0,
     insert_all IntItem_Less 10 seq_panic store1 = Ok (tt, s0) ∧
     Inv IntItem_Less s0 tree_panic ∧
     rbTree_Remove IntItem_Less 5 1 s0 = Panic) ∧
  ∃ b s', rbTree_Insert IntItem_Less 50 7 (store_of seq18) = Ok ((b, None), s').
Proof.
  destruct (C10_remove_panics_on_plain_tree IntItem_Less)
    as ((s0 & Hrun & HI & _ & Hpanic) & _ & _ & Hins & _).
  split.
  - exists s0. split; [exact Hrun|]. split; [exact HI|]. exact (Hpanic 0%nat).
  - apply (Hins 50%nat 7 (store_of seq18) tree18).
    + inv_by_compute.
    + vm_compute. lia.
Defined.

Section Narrow.
Context {Item : Type} (less : Item → Item → bool).

(** C8: narrowing a view.  [SubTree(from, to)] on a view fails with
    [ErrorOutOfSubTreeRange] when [from] or [to] is below [fromKey] or above
    [toKey] of the view; whenever it returns a tree, that tree is a view of
    the backing [rbTree] object itself, [st.tree], with exactly the bounds
    asked for.  On the view [SubTree(11, 1000)] of the tests,
    [SubTree(10, 90)] fails with that error, and [SubTree(31, 999)] returns
    a view that iterates 31, 32, 38, 41, 57, 100. *)
Theorem C8_narrowing_a_view :
  (∀ (st : subTree Item) (from to : Item),
     less from (fromKey st) = true ∨ less (toKey st) from = true ∨
     less to (fromKey st) = true ∨ less (toKey st) to = true →
     subTree_SubTree less st from to = (None, Some ErrorOutOfSubTreeRange)) ∧
  (∀ (st : subTree Item) (from to : Item) (v : Tree Item),
     (subTree_SubTree less st from to).1 = Some v →
     v = TreeSub (mkSubTree (st_tree st) from to) ∧
     (subTree_SubTree less st from to).2 = None) ∧
  rbTree_SubTree IntItem_Less rb1 11 1000 = (Some (TreeSub view_11_1000), None) ∧
  subTree_SubTree IntItem_Less view_11_1000 10 90 = (None, Some ErrorOutOfSubTreeRange) ∧
  subTree_SubTree IntItem_Less view_11_1000 31 999
    = (Some (TreeSub (mkSubTree rb1 31 999)), None) ∧
  subTree_items IntItem_Less 50 (mkSubTree rb1 31 999) (world_of seq18)
    = Ok ([31; 32; 38; 41; 57; 100], world_of seq18).
Proof.
  split_and!.
  - intros st from to H. unfold subTree_SubTree, subTree_inRange.
    destruct H as [H|[H|[H|H]]]; rewrite H; simpl;
      rewrite ?andb_false_r, ?orb_true_r; done.
  - intros st from to v. unfold subTree_SubTree, rbTree_SubTree.
    destruct (_ || _); [done|]. destruct (less to from); [done|].
    simpl. by intros [= <-].
  - reflexivity.
  - reflexivity.
  - reflexivity.
  - vm_compute. reflexivity.
Qed.

End Narrow.

Lemma C8_witness :
  (IntItem_Less 10 (fromKey view_11_1000) = true ∨
   IntItem_Less (toKey view_11_1000) 10 = true ∨
   IntItem_Less 90 (fromKey view_11_1000) = true ∨
   IntItem_Less (toKey view_11_1000) 90 = true) ∧
  subTree_SubTree IntItem_Less view_11_1000 10 90 = (None, Some ErrorOutOfSubTreeRange).
Proof.
  assert (IntItem_Less 10 (fromKey view_11_1000) = true ∨
          IntItem_Less (toKey view_11_1000) 10 = true ∨
          IntItem_Less 90 (fromKey view_11_1000) = true ∨
          IntItem_Less (toKey view_11_1000) 90 = true) as H by (left; reflexivity).
  split; [exact H|].
  exact (proj1 (C8_narrowing_a_view IntItem_Less) view_11_1000 10 90 H).
Defined.

(** ** Further properties of the code: Insert, Find and the iteration *)

Section Lookup.
Context {Item : Type} (less : Item → Item → bool) `{!LessOrder less}.
Implicit Types (t : tree (Item:=Item)) (l : list Item).

(** An ascending list holds at most one item equal to a given one. *)
Lemma ascending_eqv_unique (x : Item) l a b :
  ascending less l → a ∈ l → b ∈ l → eqv less x a → eqv less x b → a = b.
Proof.
  induction l as [|y l IH]; intros Hs Ha Hb Hxa Hxb; [by apply elem_of_nil in Ha|].
  apply StronglySorted_cons in Hs as [Hy Hs]. rewrite Forall_forall in Hy.
  apply elem_of_cons in Ha as [->|Ha]; apply elem_of_cons in Hb as [->|Hb].
  - done.
  - exfalso. apply (lt_not_eqv less x b); [|done].
    apply (lt_eqv_l less x y b Hxa). by apply Hy.
  - exfalso. apply (lt_not_eqv less x a); [|done].
    apply (lt_eqv_l less x y a Hxb). by apply Hy.
  - by apply IH.
Qed.

(** The first stored item equal to [x], as [Find] decides equality. *)
Lemma find_eqv (x : Item) l k :
  ascending less l → k ∈ l → eqv less x k →
  List.find (eqvb less x) l = Some k.
Proof.
  induction l as [|y l IH]; intros Hs Hk Hxk; [by apply elem_of_nil in Hk|].
  simpl. destruct (eqvb less x y) eqn:E.
  - f_equal. apply (ascending_eqv_unique x (y :: l)); try done; [apply in_here|].
    unfold eqvb in E. apply andb_true_iff in E as [E1 E2].
    by apply negb_true_iff in E1, E2.
  - apply StronglySorted_cons in Hs as [_ Hs].
    apply elem_of_cons in Hk as [->|Hk]; [|by apply IH].
    destruct Hxk as [E1 E2]. unfold eqvb in E. by rewrite E1, E2 in E.
Qed.

Lemma find_eqv_none (x : Item) l :
  Forall (λ k, ¬ eqv less x k) l → List.find (eqvb less x) l = None.
Proof.
  induction l as [|y l IH]; intros H; [done|].
  apply Forall_cons in H as [Hy H]. simpl.
  destruct (eqvb less x y) eqn:E; [|by apply IH].
  exfalso. apply Hy. unfold eqvb in E. apply andb_true_iff in E as [E1 E2].
  by apply negb_true_iff in E1, E2.
Qed.

(** [find] needs one step for each node on the path it takes. *)
Lemma find_loop_height h key t : ∀ cs fuel,
  sentinel h → rep h tNil (plug cs t) → (height t < fuel)%nat →
  find_loop less fuel (ptr t) (cpar cs) (Some key) h
  = Ok (ptr (descend less key cs t).2, cpar (descend less key cs t).1).
Proof.
  induction t as [|c l IHl a k r IHr]; intros cs fuel Hs Hrep Hf;
    (destruct fuel as [|fuel]; [lia|]); simpl.
  - destruct (decide (tNil ≠ tNil)); done.
  - assert (a ≠ tNil) as Ha.
    { apply rep_plug in Hrep. eapply (ptr_not_tNil _ _ (Nd c l a k r)); eauto. }
    destruct (decide (a ≠ tNil)); [|done].
    unfold deref. rewrite (rep_lookup _ _ _ _ _ _ _ Hrep). simpl.
    destruct (less key k) eqn:E1.
    { apply (IHl (FL c a k r :: cs)); [done|done|simpl in Hf; lia]. }
    destruct (less k key) eqn:E2.
    { apply (IHr (FR c l a k :: cs)); [done|done|simpl in Hf; lia]. }
    done.
Qed.

Lemma height_le_size t : (height t ≤ size t)%nat.
Proof. induction t as [|c l IHl a k r IHr]; simpl; lia. Qed.

(** [Find] on the position [find] stops at. *)
Lemma Find_descend (s : store Item) t item fuel :
  Rh s t → (height t < fuel)%nat →
  rbTree_Find less fuel item s
  = Ok (match (descend less item [] t).2 with
        | Leaf => None
        | Nd _ _ _ k _ => Some k
        end, s).
Proof.
  intros HR Hfuel.
  pose proof (find_loop_height (cells s) item t [] fuel
                (Rh_sentinel _ _ HR) (Rh_rep _ _ HR) Hfuel) as Hfind.
  pose proof (descend_plug less item t []) as Hplug. simpl in Hplug.
  cbn [cpar] in Hfind.
  unfold rbTree_Find, find, bind, get_root, liftR.
  rewrite (Rh_root _ _ HR), Hfind. simpl.
  destruct (descend less item [] t) as [cs [|c l a k r]]; simpl in *.
  - destruct (decide (tNil = tNil)); done.
  - subst t.
    assert (a ≠ tNil) as Ha.
    { eapply Rh_addr_ne_tNil; [exact HR|]. rewrite addrs_plug. simpl. in_tac. }
    destruct (decide (a = tNil)); [done|].
    unfold load. by rewrite (Rh_lookup _ _ _ _ _ _ _ HR).
Qed.

(** What [find] stops at, in terms of the items. *)
Lemma descend_find t item :
  ascending less (inorder t) →
  match (descend less item [] t).2 with
  | Leaf => None
  | Nd _ _ _ k _ => Some k
  end = List.find (eqvb less item) (inorder t).
Proof.
  intros Hbst.
  pose proof (descend_plug less item t []) as Hplug. simpl in Hplug.
  pose proof (descend_found less item t []) as Hfound.
  pose proof (descend_missing less item t Hbst) as Hmiss.
  destruct (descend less item [] t) as [cs [|c l a k r]]; simpl in *.
  - symmetry. by apply find_eqv_none, Hmiss.
  - symmetry. apply find_eqv; [done| |done].
    rewrite <- Hplug, inorder_plug. simpl. in_tac.
Qed.

(** The items after [insert]: the new one, and the old ones but an equal
    one. *)
Lemma ins_tree_items key (z : addr) t :
  ascending less (inorder t) →
  key ∈ inorder (ins_tree less key z t) ∧
  (∀ x, x ∈ inorder (ins_tree less key z t) → x = key ∨ x ∈ inorder t) ∧
  (∀ x, x ∈ inorder t → x ∈ inorder (ins_tree less key z t) ∨ eqv less key x).
Proof.
  intros Hbst.
  destruct (descend less key [] t) as [cs sub] eqn:Hd.
  destruct sub as [|c l a k r].
  - destruct (ins_tree_fresh less key z t Hbst) as (Hperm & _ & _); [by rewrite Hd|].
    split_and!.
    + rewrite Hperm. apply in_here.
    + intros x Hx. rewrite Hperm in Hx. by apply elem_of_cons in Hx.
    + intros x Hx. left. rewrite Hperm. by apply in_further.
  - destruct (ins_tree_found less key z t _ _ _ _ _ _ Hbst Hd)
      as (Ht & Heqv & _ & Hins & _ & _ & _).
    rewrite Hins, Ht, !inorder_plug. simpl.
    split_and!.
    + in_tac.
    + intros x. rewrite ?elem_of_app, ?elem_of_cons, ?elem_of_app. tauto.
    + intros x. rewrite ?elem_of_app, ?elem_of_cons, ?elem_of_app.
      intros [Hx|[[Hx|[->|Hx]]|Hx]]; tauto.
Qed.

(** X1: [Insert] of an item that is equal to no stored item adds it: it
    returns [true] with a nil error, the tree holds the new item and the old
    ones, in order, and [Len] is one more. *)
Theorem X1_insert_new_item (s : store Item) t (item : Item) (fuel : nat) :
  Inv less s t → Forall (λ k, ¬ eqv less item k) (inorder t) →
  (size t < fuel)%nat → length s + 1 < 2 ^ 63 →
  ∃ s' t',
    rbTree_Insert less fuel item s = Ok ((true, None), s') ∧
    Inv less s' t' ∧
    inorder t' ≡ₚ item :: inorder t ∧
    rbTree_Len s' = Ok (length s + 1, s').
Proof.
  intros HI Hnew Hfuel Hlen.
  destruct (Insert_spec less s t item fuel HI Hfuel) as (s' & Hrun & HI' & Hlen').
  pose proof (descend_absent less item t Hnew) as Hleaf.
  assert (ins_fresh less item t = true) as Hfresh by (unfold ins_fresh; by rewrite Hleaf).
  rewrite Hfresh in Hrun, Hlen'.
  destruct (ins_tree_fresh less item (next s) t (Inv_bst _ _ _ HI) Hleaf) as (Hperm & _ & _).
  exists s', (ins_tree less item (next s) t). split_and!; try done.
  unfold rbTree_Len, get_length. rewrite Hlen', wrap_int_small; [done|].
  pose proof (Inv_length _ _ _ HI) as Hl. unfold wrap_int in Hl.
  pose proof (Z.mod_pos_bound (Z.of_nat (size t) + 2 ^ 63) (2 ^ 64)). lia.
Qed.

(** X2: [Insert] keeps the red-black properties: on a tree whose root is
    black, which has no red node with a red child, the same number of black
    nodes on every path down and its items in ascending order, [Insert]
    returns and leaves such a tree. *)
Theorem X2_insert_keeps_red_black (s : store Item) t (item : Item) (fuel : nat) :
  Inv less s t → red_black less t → (size t < fuel)%nat →
  ∃ b s' t',
    rbTree_Insert less fuel item s = Ok ((b, None), s') ∧
    Inv less s' t' ∧ red_black less t'.
Proof.
  intros HI (Hblack & Hn & Hb & Hasc) Hfuel.
  destruct (Insert_spec less s t item fuel HI Hfuel) as (s' & Hrun & HI' & _).
  destruct (ins_tree_rb less item (next s) t Hblack Hn Hb) as [Hn' Hb'].
  exists (ins_fresh less item t), s', (ins_tree less item (next s) t).
  split; [done|]. split; [done|].
  split_and!; [apply HI'|done|done|apply HI'].
Qed.

(** X3: after [Insert] of an item, [Find] of it returns that very item, be
    it new or put in the place of an equal one. *)
Theorem X3_find_after_insert (s : store Item) t (item : Item) (fuel : nat) :
  Inv less s t → (S (size t) < fuel)%nat →
  ∃ b s',
    rbTree_Insert less fuel item s = Ok ((b, None), s') ∧
    rbTree_Find less fuel item s' = Ok (Some item, s').
Proof.
  intros HI Hfuel.
  destruct (Insert_spec less s t item fuel HI) as (s' & Hrun & HI' & _); [lia|].
  exists (ins_fresh less item t), s'. split; [done|].
  destruct (ins_tree_items item (next s) t (Inv_bst _ _ _ HI)) as (Hin & _ & _).
  rewrite (Find_descend s' _ item fuel (Inv_Rh _ _ _ HI')).
  - rewrite (descend_find _ item (Inv_bst _ _ _ HI')).
    rewrite (find_eqv item _ item (Inv_bst _ _ _ HI') Hin (eqv_refl less item)). done.
  - pose proof (height_le_size (ins_tree less item (next s) t)).
    rewrite (size_ins_tree less) in * by apply HI.
    destruct (ins_fresh less item t); lia.
Qed.

(** X4: [Find] returns the stored item that is equal to the given one (there
    is at most one), and nil when there is none; it changes nothing. *)
Theorem X4_find_stored_item (s : store Item) t (item : Item) (fuel : nat) :
  Inv less s t → (size t < fuel)%nat →
  rbTree_Find less fuel item s = Ok (List.find (eqvb less item) (inorder t), s) ∧
  (∀ k, k ∈ inorder t → eqv less item k →
        rbTree_Find less fuel item s = Ok (Some k, s)).
Proof.
  intros HI Hfuel.
  assert (rbTree_Find less fuel item s
          = Ok (List.find (eqvb less item) (inorder t), s)) as Hrun.
  { rewrite (Find_descend s t item fuel (Inv_Rh _ _ _ HI)).
    - by rewrite (descend_find t item (Inv_bst _ _ _ HI)).
    - pose proof (height_le_size t). lia. }
  split; [done|]. intros k Hk He.
  by rewrite Hrun, (find_eqv item _ k (Inv_bst _ _ _ HI) Hk He).
Qed.

End Lookup.

Section Height.
Context {Item : Type}.
Implicit Types (t : tree (Item:=Item)).

Lemma black_height_size t : ∀ n, black_height n t → (2 ^ n ≤ size t + 1)%nat.
Proof.
  induction t as [|c l IHl a k r IHr]; intros n Hb; simpl in *.
  - subst n. simpl. lia.
  - destruct c.
    + destruct Hb as [Hl Hr]. specialize (IHl _ Hl). lia.
    + destruct n as [|m]; [done|]. destruct Hb as [Hl Hr].
      specialize (IHl _ Hl). specialize (IHr _ Hr).
      rewrite Nat.pow_succ_r'. lia.
Qed.

Lemma black_height_height t : ∀ n,
  no_red_red t → black_height n t →
  (height t ≤ 2 * n + match tcolor t with red => 1 | black => 0 end)%nat.
Proof.
  induction t as [|c l IHl a k r IHr]; intros n Hn Hb; simpl in *.
  - lia.
  - destruct Hn as (Hc & Hnl & Hnr). destruct c.
    + destruct Hb as [Hl Hr]. destruct (Hc eq_refl) as [Hcl Hcr].
      specialize (IHl _ Hnl Hl). specialize (IHr _ Hnr Hr).
      rewrite Hcl in IHl. rewrite Hcr in IHr. lia.
    + destruct n as [|m]; [done|]. destruct Hb as [Hl Hr].
      specialize (IHl _ Hnl Hl). specialize (IHr _ Hnr Hr).
      destruct (tcolor l), (tcolor r); lia.
Qed.

End Height.

Section Logarithmic.
Context {Item : Type} (less : Item → Item → bool) `{!LessOrder less}.
Implicit Types (t : tree (Item:=Item)).

(** X5: a red-black tree of [n] items has no path from the root longer than
    [2 * log2 (n + 1)] nodes, and that many steps of the loop of [find],
    and one more, are enough for [Find]. *)
Theorem X5_find_logarithmic (s : store Item) t :
  Inv less s t → red_black less t →
  (height t ≤ 2 * Nat.log2 (size t + 1))%nat ∧
  ∀ (fuel : nat) (item : Item),
    (2 * Nat.log2 (size t + 1) < fuel)%nat →
    rbTree_Find less fuel item s = Ok (List.find (eqvb less item) (inorder t), s).
Proof.
  intros HI (Hblack & Hn & [n Hb] & Hasc).
  assert (height t ≤ 2 * Nat.log2 (size t + 1))%nat as Hh.
  { pose proof (black_height_height t n Hn Hb) as H1. rewrite Hblack in H1.
    pose proof (black_height_size t n Hb) as H2.
    apply Nat.log2_le_mono in H2. rewrite Nat.log2_pow2 in H2 by lia. lia. }
  split; [done|]. intros fuel item Hfuel.
  rewrite (Find_descend less s t item fuel (Inv_Rh _ _ _ HI)) by lia.
  by rewrite (descend_find less t item Hasc).
Qed.

End Logarithmic.

(** ** Further properties of the code: least and greatest items *)

Section MinMax.
Context {Item : Type}.
Implicit Types (t : tree (Item:=Item)) (cs : list (frame (Item:=Item))).

Lemma rightmost_spec t : ∀ cs, t ≠ Leaf →
  ∃ cs' c l a k, rightmost cs t = (cs', Nd c l a k Leaf) ∧
    plug cs' (Nd c l a k Leaf) = plug cs t ∧
    ctx_before cs' ++ inorder l ++ [k] = ctx_before cs ++ inorder t.
Proof.
  induction t as [|c l _ a k r IHr]; intros cs Ht; [done|].
  destruct r as [|cr lr ar kr rr].
  - exists cs, c, l, a, k. done.
  - destruct (IHr (FR c l a k :: cs)) as (cs' & c' & l' & a' & k' & Hr & Hp & Hi); [done|].
    exists cs', c', l', a', k'. split_and!; try done.
    rewrite Hi. simpl. by rewrite <- !app_assoc.
Qed.

Lemma node_max_spec (h : gmap addr (node Item)) t : ∀ cs fuel,
  sentinel h → rep h tNil (plug cs t) → t ≠ Leaf → (size t < fuel)%nat →
  node_max fuel (ptr t) h = Ok (ptr (rightmost cs t).2).
Proof.
  induction t as [|c l _ a k r IHr]; intros cs fuel Hs Hrep Ht Hf; [done|].
  destruct fuel as [|fuel]; [lia|]. simpl.
  unfold deref. rewrite (rep_lookup _ _ _ _ _ _ _ Hrep). simpl.
  destruct r as [|cr lr ar kr rr]; simpl.
  - destruct (decide (tNil ≠ tNil)); done.
  - assert (ar ≠ tNil) as Har.
    { apply (rep_plug _ _ (FR c l a k :: cs)) in Hrep.
      eapply (ptr_not_tNil _ _ (Nd cr lr ar kr rr)); eauto. }
    destruct (decide (ar ≠ tNil)); [|done].
    apply (IHr (FR c l a k :: cs)); [done|done|done|simpl in *; lia].
Qed.

End MinMax.

Section MinMaxOrder.
Context {Item : Type} (less : Item → Item → bool) `{!LessOrder less}.
Implicit Types (t : tree (Item:=Item)) (cs : list (frame (Item:=Item))).

(** X6: on a tree that is not empty, [Min] returns the first and [Max] the
    last of the items in ascending order: no stored item is less than what
    [Min] returns, and what [Max] returns is less than no stored item. *)
Theorem X6_min_max_of_tree (s : store Item) t (fuel : nat) :
  Inv less s t → t ≠ Leaf → (size t < fuel)%nat →
  ∃ lo hi,
    rbTree_Min fuel s = Ok (Some lo, s) ∧ rbTree_Max fuel s = Ok (Some hi, s) ∧
    head (inorder t) = Some lo ∧ last (inorder t) = Some hi ∧
    ∀ k, k ∈ inorder t → less k lo = false ∧ less hi k = false.
Proof.
  intros [HR Hlen Hbst Hblack] Ht Hfuel.
  destruct (leftmost_spec t [] Ht) as (cs1 & c1 & a1 & k1 & r1 & Hl & Hp1 & Hi1 & _).
  destruct (rightmost_spec t [] Ht) as (cs2 & c2 & l2 & a2 & k2 & Hr & Hp2 & Hi2).
  simpl in Hp1, Hp2, Hi1, Hi2. rewrite app_nil_r in Hi1.
  pose proof (node_min_spec (cells s) t [] fuel (Rh_sentinel _ _ HR) (Rh_rep _ _ HR) Ht Hfuel)
    as Hmin.
  pose proof (node_max_spec (cells s) t [] fuel (Rh_sentinel _ _ HR) (Rh_rep _ _ HR) Ht Hfuel)
    as Hmax.
  rewrite Hl in Hmin. rewrite Hr in Hmax. simpl in Hmin, Hmax.
  exists k1, k2. split_and!.
  - unfold rbTree_Min, bind, get_root, liftR, load.
    rewrite (Rh_root _ _ HR), Hmin. rewrite <- Hp1 in HR.
    by rewrite (Rh_lookup _ _ _ _ _ _ _ HR).
  - unfold rbTree_Max, bind, get_root, liftR, load.
    rewrite (Rh_root _ _ HR), Hmax. rewrite <- Hp2 in HR.
    by rewrite (Rh_lookup _ _ _ _ _ _ _ HR).
  - by rewrite <- Hi1.
  - rewrite <- Hi2, app_assoc. apply last_snoc.
  - intros k Hk. split.
    + rewrite <- Hi1 in Hbst, Hk.
      apply StronglySorted_cons in Hbst as [Hall _]. rewrite Forall_forall in Hall.
      apply elem_of_cons in Hk as [->|Hk]; [apply (less_irrefl less)|].
      apply (less_asym k1 k). by apply Hall.
    + rewrite <- Hi2, app_assoc in Hbst, Hk.
      apply elem_of_app in Hk as [Hk|Hk].
      * apply (less_asym k k2). change (lt less k k2).
        eapply StronglySorted_app_1_elem_of; [exact Hbst|done|apply in_here].
      * apply list_elem_of_singleton in Hk as ->. apply (less_irrefl less).
Qed.

End MinMaxOrder.

Section ViewMin.
Context {Item : Type} (less : Item → Item → bool) `{!LessOrder less}.
Implicit Types (t : tree (Item:=Item)) (l pre post : list Item).

(** The items not below [from] are the second part of the split [ceiling]
    makes. *)
Lemma ceiling_filter (from : Item) l pre post :
  ascending less l → l = pre ++ post →
  Forall (λ y, lt less y from) pre →
  match post with [] => True | k' :: _ => less k' from = false end →
  List.filter (λ y, negb (less y from)) l = post.
Proof.
  intros Hs -> Hpre Hhd.
  rewrite List.filter_app.
  rewrite (filter_none _ pre), app_nil_l.
  2:{ eapply Forall_impl; [exact Hpre|]. intros y Hy. simpl. unfold lt in Hy. by rewrite Hy. }
  apply StronglySorted_app_1_r in Hs.
  apply filter_all.
  destruct post as [|k' post]; [done|].
  apply Forall_cons. split; [by rewrite Hhd|].
  apply StronglySorted_cons in Hs as [Hk' _].
  eapply Forall_impl; [exact Hk'|]. intros y Hy. simpl in Hy.
  destruct (less y from) eqn:E; [|done].
  by rewrite (lt_trans less k' y from Hy E) in Hhd.
Qed.

(** X7: [Min] of a view returns the least stored item that is not less than
    [fromKey], and nil when there is none; it does not look at [toKey]. *)
Theorem X7_view_min_is_ceiling
    (st : subTree Item) (w : world Item) (s : store Item) t (fuel : nat) :
  view (st_tree st) w = Some s → Inv less s t → (size t < fuel)%nat →
  subTree_Min less fuel st w
  = Ok (head (List.filter (λ y, negb (less y (fromKey st))) (inorder t)), w).
Proof.
  intros Hv [HR Hlen Hbst Hblack] Hfuel.
  destruct (node_ceiling_spec less s t (fromKey st) fuel HR Hbst Hfuel)
    as (z & Hrun & pre & post & Hsplit & Hpre & Hpost).
  unfold subTree_Min. apply (on_tree_ro _ _ _ s); [done|].
  unfold bind, get_root, liftR. rewrite Hrun. simpl.
  rewrite (ceiling_filter (fromKey st) (inorder t) pre post Hbst Hsplit Hpre).
  2:{ destruct post; [done|]. apply Hpost. }
  destruct post as [|k' post].
  - subst z. destruct (decide (tNil = tNil)); done.
  - destruct Hpost as [Hk' (cs & c & l & k & r & Hp & Hitems)].
    injection Hitems as <- _.
    assert (z ≠ tNil) as HzT.
    { eapply Rh_addr_ne_tNil; [exact HR|]. rewrite <- Hp, addrs_plug. simpl. in_tac. }
    destruct (decide (z = tNil)); [done|].
    rewrite <- Hp in HR. unfold load. by rewrite (Rh_lookup _ _ _ _ _ _ _ HR).
Qed.

End ViewMin.

(** ** Further properties of the code: iteration and repeated keys *)

Section Items.
Context {Item : Type} (less : Item → Item → bool) `{!LessOrder less}.
Implicit Types (t : tree (Item:=Item)) (l : list Item).

Lemma eqv_trans (a b c : Item) : eqv less a b → eqv less b c → eqv less a c.
Proof.
  intros Hab Hbc. split.
  - destruct (less a c) eqn:E; [|done]. exfalso.
    apply (lt_not_eqv less a b); [|done].
    apply (lt_eqv_r less a c b E). by apply eqv_sym.
  - destruct (less c a) eqn:E; [|done]. exfalso.
    apply (lt_not_eqv' less c b); [|done].
    apply (lt_eqv_r less c a b E Hab).
Qed.

Lemma ascending_ins_tree key (z : addr) t :
  ascending less (inorder t) → ascending less (inorder (ins_tree less key z t)).
Proof.
  intros Hbst. destruct (descend less key [] t) as [cs sub] eqn:Hd.
  destruct sub as [|c l a k r].
  - apply (ins_tree_fresh less key z t Hbst). by rewrite Hd.
  - destruct (ins_tree_found less key z t _ _ _ _ _ _ Hbst Hd)
      as (_ & _ & _ & Hins & Hasc & _ & _).
    by rewrite Hins.
Qed.

(** The items after a sequence of inserts: every one comes from the sequence
    or was there, and every item of the sequence and every old item has an
    equal one in the tree. *)
Lemma ins_all_items (seq : list Item) : ∀ (z : addr) t,
  ascending less (inorder t) →
  ascending less (inorder (ins_all less seq z t)) ∧
  (∀ x, x ∈ inorder (ins_all less seq z t) → x ∈ seq ∨ x ∈ inorder t) ∧
  (∀ x, x ∈ seq ∨ x ∈ inorder t →
        ∃ x', x' ∈ inorder (ins_all less seq z t) ∧ eqv less x x') ∧
  (size (ins_all less seq z t) ≤ List.length seq + size t)%nat.
Proof.
  induction seq as [|key rest IH]; intros z t Hbst; simpl.
  - split_and!; [done|by right| |lia].
    intros x [Hx|Hx]; [by apply elem_of_nil in Hx|].
    exists x. split; [done|apply (eqv_refl less)].
  - pose proof (ascending_ins_tree key z t Hbst) as Hbst1.
    destruct (ins_tree_items less key z t Hbst) as (Hkey & Hfrom & Hto).
    destruct (IH (S z) _ Hbst1) as (Hasc & Hsub & Hsup & Hsize).
    split_and!.
    + done.
    + intros x Hx. destruct (Hsub x Hx) as [Hr|Ht1]; [left; by apply in_further|].
      destruct (Hfrom x Ht1) as [->|Ht]; [left; apply in_here|by right].
    + assert (∃ x', x' ∈ inorder (ins_all less rest (S z) (ins_tree less key z t))
                    ∧ eqv less key x') as (k' & Hk' & Hek') by (apply Hsup; by right).
      intros x [Hx|Hx].
      * apply elem_of_cons in Hx as [->|Hx]; [by exists k'|].
        apply Hsup. by left.
      * destruct (Hto x Hx) as [Ht1|He]; [apply Hsup; by right|].
        exists k'. split; [done|]. apply (eqv_trans x key k'); [by apply eqv_sym|done].
    + rewrite (size_ins_tree less) in Hsize by done.
      destruct (ins_fresh less key t); lia.
Qed.

(** X8: the loop over [NewIterator] yields the items of the tree, each once,
    in ascending order; their number is [Len], and [Find] finds exactly
    what the loop yields. *)
Theorem X8_iteration_yields_the_items (s : store Item) t (fuel : nat) :
  Inv less s t → (size t < fuel)%nat → Z.of_nat (size t) < 2 ^ 63 →
  ∃ l,
    rbTree_items less fuel s = Ok (l, s) ∧
    l = inorder t ∧ ascending less l ∧
    rbTree_Len s = Ok (Z.of_nat (List.length l), s) ∧
    ∀ item, rbTree_Find less fuel item s = Ok (List.find (eqvb less item) l, s).
Proof.
  intros HI Hfuel Hsmall.
  destruct (NewIterator_iterate less s t fuel HI Hfuel Hsmall) as (it & Hit & Hiter).
  exists (inorder t). split_and!.
  - unfold rbTree_items, liftR. rewrite (bind_ok _ _ _ _ _ Hit), Hiter. done.
  - done.
  - apply HI.
  - unfold rbTree_Len, get_length. rewrite (Inv_length _ _ _ HI).
    rewrite wrap_int_small by lia. by rewrite size_inorder.
  - intros item.
    rewrite (Find_descend less s t item fuel (Inv_Rh _ _ _ HI)).
    + by rewrite (descend_find less t item (Inv_bst _ _ _ HI)).
    + pose proof (height_le_size t). lia.
Qed.

(** X9: after the [Insert]s of any sequence, with or without repeated keys,
    into a new tree, the tree holds one item for each key of the sequence:
    the loop over [NewIterator] yields items of the sequence, in ascending
    order, one equal to each item of the sequence, and [Len] is their
    number. *)
Theorem X9_insert_repeated_keys (s0 : store Item) (seq : list Item) (fuel : nat) :
  Inv less s0 Leaf →
  (List.length seq < fuel)%nat → Z.of_nat (List.length seq) < 2 ^ 63 →
  ∃ s l,
    insert_all less fuel seq s0 = Ok (tt, s) ∧
    rbTree_items less fuel s = Ok (l, s) ∧
    ascending less l ∧
    (∀ x, x ∈ l → x ∈ seq) ∧
    (∀ x, x ∈ seq → ∃ x', x' ∈ l ∧ eqv less x x') ∧
    (List.length l ≤ List.length seq)%nat ∧
    rbTree_Len s = Ok (Z.of_nat (List.length l), s).
Proof.
  intros HI0 Hfuel Hsmall.
  destruct (insert_all_spec less seq s0 Leaf fuel HI0) as (s & Hrun & HI); [simpl; lia|].
  destruct (ins_all_items seq (next s0) Leaf) as (Hasc & Hsub & Hsup & Hsize);
    [constructor|].
  simpl in Hsize. rewrite Nat.add_0_r in Hsize.
  destruct (NewIterator_iterate less s _ fuel HI) as (it & Hit & Hiter); [lia..|].
  exists s, (inorder (ins_all less seq (next s0) Leaf)). split_and!; try done.
  - unfold rbTree_items, liftR. rewrite (bind_ok _ _ _ _ _ Hit), Hiter. done.
  - intros x Hx. destruct (Hsub x Hx) as [H|H]; [done|by apply elem_of_nil in H].
  - intros x Hx. apply Hsup. by left.
  - by rewrite <- size_inorder.
  - unfold rbTree_Len, get_length. rewrite (Inv_length _ _ _ HI).
    rewrite wrap_int_small by lia. by rewrite size_inorder.
Qed.

End Items.

(** ** Further properties of the code: the protocol of the iterators *)

Section Protocol.
Context {Item : Type}.
Implicit Types (t : tree (Item:=Item)) (cs : list (frame (Item:=Item))).
Implicit Types (h : gmap addr (node Item)).

(** When [Next] of a plain iterator returns an item, [Get] returns it. *)
Lemma Next_Get (it it' : iterator) h (fuel : nat) (i : Item) :
  iterator_Next fuel it h = Ok (Some i, it') →
  iterator_IsValid it' = true ∧ iterator_Get it' h = Ok (Some i).
Proof.
  unfold iterator_Next, iterator_Get, iterator_IsValid.
  destruct it as [nd st]. simpl.
  destruct (bool_decide (st = pastRear) || bool_decide (nd = tNil)) eqn:E; [done|].
  apply orb_false_iff in E as [E1 _]. apply bool_decide_eq_false in E1.
  destruct (decide (st = beforeFirst)) as [->|E2].
  - destruct (deref h nd) as [n| |] eqn:Hn; [|done..]. simpl.
    intros [= Hi <-]. simpl. rewrite Hn. simpl. by rewrite Hi.
  - assert (st = deferencable) as -> by (by destruct st).
    destruct (deref h nd) as [n| |] eqn:Hn; [|done..]. simpl.
    destruct (decide (n_right n ≠ tNil)).
    + destruct (node_min fuel (n_right n) h) as [m| |]; [|done..]. simpl.
      destruct (deref h m) as [mn| |] eqn:Hm; [|done..]. simpl.
      intros [= Hi <-]. simpl. rewrite Hm. simpl. by rewrite Hi.
    + destruct (next_climb fuel nd (n_parent n) h) as [[x' y]| |]; [|done..]. simpl.
      destruct (deref h y) as [yn| |] eqn:Hy; [|done..]. simpl.
      destruct (decide (n_right yn = x')); [done|].
      intros [= Hi <-]. simpl. rewrite Hy. simpl. by rewrite Hi.
Qed.

(** At its end an iterator stays there: [Next] returns nil and changes
    nothing. *)
Lemma ended_Next (it : iterator) h fuel :
  ended it → iterator_Next (Item:=Item) fuel it h = Ok (None, it).
Proof.
  intros [E|E]; unfold iterator_Next; rewrite E; simpl; [done|].
  by rewrite orb_true_r.
Qed.

Lemma next_climb_end (s : store Item) whole :
  Rh s whole → ∀ cs sub fuel, plug cs sub = whole → sub ≠ Leaf →
  ctx_after cs = [] → (List.length cs < fuel)%nat →
  ∃ x' y' yn, next_climb fuel (ptr sub) (cpar cs) (cells s) = Ok (x', y') ∧
    cells s !! y' = Some yn ∧ (n_right yn = x' ∨ (y' = tNil ∧ n_item yn = None)).
Proof.
  intros HR. induction cs as [|f cs IH]; intros sub fuel Hp Hsub Hafter Hf;
    (destruct fuel as [|fuel]; [simpl in Hf; lia|]); subst whole.
  - destruct (Rh_sentinel _ _ HR) as [p0 Hnt]. simpl.
    unfold deref. rewrite Hnt. simpl.
    assert (goNil ≠ ptr sub) as Hne.
    { apply not_eq_sym. eapply Rh_addr_ne_goNil; [exact HR|]. by apply ptr_in_addrs. }
    exists (ptr sub), tNil. eexists. split; [|split; [exact Hnt|by right]].
    destruct (decide (p0 ≠ tNil)); [|done].
    destruct (decide (goNil = ptr sub)); done.
  - destruct f as [c a k r|c l a k]; [done|]. simpl in *.
    pose proof (Rh_lookup _ cs _ _ _ _ _ HR) as Ha.
    unfold deref. rewrite Ha. simpl.
    destruct (decide (cpar cs ≠ tNil)) as [Hc|Hc].
    + destruct (decide (ptr sub = ptr sub)); [|done].
      destruct (IH (Nd c l a k sub) fuel) as (x' & y' & yn & Hrun & Hy & Hpost);
        [done|done|done|lia|].
      exists x', y', yn. done.
    + exists (ptr sub), a. eexists. split; [done|split; [exact Ha|]]. simpl. by left.
Qed.

(** The step of a plain iterator that stands on the last item. *)
Lemma iterator_Next_last (s : store Item) whole z fuel :
  Rh s whole → at_pos whole z [] → (size whole < fuel)%nat →
  ∃ it', iterator_Next fuel (mkIterator z deferencable) (cells s) = Ok (None, it') ∧
         ended it'.
Proof.
  intros HR Hpos Hfuel.
  pose proof (at_pos_ne_tNil _ _ _ _ HR Hpos) as HzT.
  destruct Hpos as (cs & c & l & k & r & <- & Hrest).
  symmetry in Hrest. apply app_eq_nil in Hrest as [Hr Hafter].
  assert (r = Leaf) as -> by (destruct r; [done|]; simpl in Hr; by destruct (inorder r1)).
  unfold iterator_Next. simpl.
  rewrite (bool_decide_eq_false_2 (z = tNil)) by done. simpl.
  unfold deref at 1. rewrite (Rh_lookup _ _ _ _ _ _ _ HR). simpl.
  rewrite size_plug in Hfuel. simpl in Hfuel.
  destruct (decide (tNil ≠ tNil)); [done|].
  destruct (next_climb_end s _ HR cs (Nd c l z k Leaf) fuel)
    as (x' & y' & yn & Hrun & Hy & Hpost);
    [done|done|done|pose proof (ctx_size_length cs); lia|].
  simpl in Hrun. rewrite Hrun. simpl. unfold deref. rewrite Hy. simpl.
  destruct (decide (n_right yn = x')) as [E|E].
  - eexists. split; [done|]. by left.
  - destruct Hpost as [Hpost|[-> Hpost]]; [done|].
    rewrite Hpost. eexists. split; [done|]. by right.
Qed.

End Protocol.

Section Calls.
Context {Item : Type} (less : Item → Item → bool) `{!LessOrder less}.
Implicit Types (t : tree (Item:=Item)) (cs : list (frame (Item:=Item))).
Implicit Types (h : gmap addr (node Item)).

Lemma nth_Next_ended (it : iterator) h fuel :
  ended it → ∀ n, nth_Next less fuel n (IterPlain it) h = Ok (None, IterPlain it).
Proof.
  intros He. induction n as [|n IH]; simpl; rewrite (ended_Next it h fuel He); simpl; done.
Qed.

Lemma nth_Next_plain (s : store Item) whole fuel :
  Rh s whole → (size whole < fuel)%nat →
  ∀ rest z, at_pos whole z rest →
  ∀ n, ∃ it', nth_Next less fuel n (IterPlain (mkIterator z deferencable)) (cells s)
              = Ok (rest !! n, it').
Proof.
  intros HR Hf. induction rest as [|k rest IH]; intros z Hpos n.
  - destruct (iterator_Next_last s whole z fuel HR Hpos Hf) as (it' & Hrun & He).
    destruct n as [|n]; simpl; rewrite Hrun; simpl; [by eexists|].
    rewrite (nth_Next_ended it' (cells s) fuel He n). by eexists.
  - destruct (iterator_Next_spec s whole z _ fuel HR Hpos Hf) as (it' & Hrun & z' & -> & Hpos').
    destruct n as [|n]; simpl; rewrite Hrun; simpl; [by eexists|].
    apply (IH z' Hpos' n).
Qed.

(** X11: the calls of [Next] on a new iterator of a tree return the items in
    ascending order, one after the other, and nil from then on, however
    often [Next] is called at the end. *)
Theorem X11_next_returns_nth_item (s : store Item) t (fuel : nat) :
  Inv less s t → (size t < fuel)%nat → Z.of_nat (size t) < 2 ^ 63 →
  ∃ it, rbTree_NewIterator fuel s = Ok (it, s) ∧
        ∀ n, ∃ it', nth_Next less fuel n it (cells s) = Ok (inorder t !! n, it').
Proof.
  intros [HR Hlen Hbst Hblack] Hfuel Hsmall.
  unfold rbTree_NewIterator, rbTree_Len, bind, get_length, get_root, liftR, ret.
  rewrite Hlen, wrap_int_small by lia.
  destruct (decide (t = Leaf)) as [->|Hne].
  - simpl. eexists. split; [done|]. intros n.
    rewrite nth_Next_ended by (by right). by eexists.
  - destruct (decide (Z.of_nat (size t) = 0)) as [E|_].
    { destruct t; [done|]. simpl in E. lia. }
    destruct (leftmost_spec t [] Hne) as (cs' & c & a & k & r & Hl & Hp & Hi & Hb).
    rewrite (Rh_root _ _ HR).
    rewrite (node_min_spec (cells s) t [] fuel); [|apply HR|apply HR|done|done].
    rewrite Hl. simpl. eexists. split; [done|].
    simpl in Hi. rewrite app_nil_r in Hi. rewrite <- Hi.
    assert (before_pos t a (k :: inorder r ++ ctx_after cs')) as Hpos.
    { exists cs', c, Leaf, k, r. done. }
    destruct (iterator_Next_first s t a _ fuel HR Hpos) as [Hrun Hat].
    intros n. destruct n as [|n]; simpl; rewrite Hrun; simpl; [by eexists|].
    apply (nth_Next_plain s t fuel HR Hfuel _ a Hat n).
Qed.

End Calls.

Section ViewProtocol.
Context {Item : Type} (less : Item → Item → bool) `{!LessOrder less}.
Implicit Types (t : tree (Item:=Item)) (cs : list (frame (Item:=Item))).
Implicit Types (h : gmap addr (node Item)).

(** X10: when [Next] returns an item, the iterator is valid and [Get]
    returns that item, until the next call of [Next].  For the iterator of
    a view, moreover, [toKey] is not less than the item, and [Next] never
    changes [toKey]. *)
Theorem X10_get_after_next h (fuel : nat) (i : Item) :
  (∀ it it' : iterator,
     iterator_Next fuel it h = Ok (Some i, it') →
     iterator_IsValid it' = true ∧ iterator_Get it' h = Ok (Some i)) ∧
  (∀ sit sit' : subIterator Item,
     h !! goNil = None →
     subIterator_Next less fuel sit h = Ok (Some i, sit') →
     less (si_toKey sit) i = false ∧ si_toKey sit' = si_toKey sit ∧
     subIterator_IsValid less sit' h = Ok true ∧
     subIterator_Get less sit' h = Ok (Some i)).
Proof.
  split; [intros it it'; apply Next_Get|].
  intros sit sit' HnG. unfold subIterator_Next.
  destruct (decide (it_state (si_iterator sit) = pastRear)); [done|].
  destruct (iterator_Next fuel (si_iterator sit) h) as [[item it']| |] eqn:Hnext; [|done..].
  simpl. destruct item as [i'|]; [|done].
  destruct (less (si_toKey sit) i') eqn:Hto; [done|].
  intros [= -> <-].
  destruct (Next_Get (si_iterator sit) it' h fuel i Hnext) as (Hv & Hg).
  assert (it_node it' ≠ goNil) as Hne.
  { intros E. unfold iterator_Get in Hg. rewrite Hv in Hg. simpl in Hg.
    unfold deref in Hg. by rewrite E, HnG in Hg. }
  assert (subIterator_IsValid less (mkSubIterator it' (si_toKey sit)) h = Ok true) as Hsv.
  { unfold subIterator_IsValid. simpl. rewrite Hv.
    rewrite (bool_decide_eq_true_2 _ Hne). simpl.
    unfold iterator_Get in Hg. rewrite Hv in Hg. simpl in Hg.
    destruct (deref h (it_node it')) as [nd| |]; [|done..]. simpl in *.
    injection Hg as ->. by rewrite Hto. }
  split_and!; try done.
  unfold subIterator_Get. rewrite Hsv. simpl.
  unfold iterator_Get in Hg. by rewrite Hv in Hg.
Qed.

End ViewProtocol.

(** ** Further properties of the code: the sub-tree view *)

Section ViewCalls.
Context {Item : Type} (less : Item → Item → bool) `{!LessOrder less}.
Implicit Types (t : tree (Item:=Item)) (cs : list (frame (Item:=Item))).
Implicit Types (h : gmap addr (node Item)).

Lemma view_cells (rb : addr) (w : world Item) s :
  view rb w = Some s → w_cells w = cells s.
Proof.
  unfold view. destruct (trees w !! rb); [|done]. simpl. by intros [= <-].
Qed.

Lemma nth_Next_sub_ended (it : iterator) (to : Item) h fuel :
  ended it →
  ∀ n, nth_Next less fuel n (IterSub (mkSubIterator it to)) h
       = Ok (None, IterSub (mkSubIterator it to)).
Proof.
  intros He.
  assert (subIterator_Next less fuel (mkSubIterator it to) h
          = Ok (None, mkSubIterator it to)) as Hstep.
  { unfold subIterator_Next. simpl.
    destruct (decide (it_state it = pastRear)); [done|].
    by rewrite (ended_Next it h fuel He). }
  induction n as [|n IH]; simpl; rewrite Hstep; simpl; done.
Qed.

Lemma nth_Next_sub (s : store Item) whole fuel (to : Item) :
  Rh s whole → (size whole < fuel)%nat →
  ∀ rest z, at_pos whole z rest →
  ∀ n, ∃ it', nth_Next less fuel n
                (IterSub (mkSubIterator (mkIterator z deferencable) to)) (cells s)
              = Ok (take_while (λ k, negb (less to k)) rest !! n, it').
Proof.
  intros HR Hf. induction rest as [|k rest IH]; intros z Hpos n.
  - destruct (iterator_Next_last s whole z fuel HR Hpos Hf) as (it' & Hrun & He).
    destruct n as [|n]; simpl; unfold subIterator_Next; simpl; rewrite Hrun; simpl;
      [by eexists|].
    rewrite (nth_Next_sub_ended it' to (cells s) fuel He n). by eexists.
  - destruct (iterator_Next_spec s whole z _ fuel HR Hpos Hf) as (it' & Hrun & z' & -> & Hpos').
    destruct n as [|n]; simpl; unfold subIterator_Next; simpl; rewrite Hrun; simpl;
      destruct (less to k); simpl; try (by eexists).
    + rewrite nth_Next_sub_ended by (by left). by eexists.
    + apply (IH z' Hpos' n).
Qed.

(** X12: the calls of [Next] on a new iterator of a view return the stored
    items from [fromKey] to [toKey], both included, in ascending order, one
    after the other, and nil from then on. *)
Theorem X12_view_next_returns_nth_item
    (st : subTree Item) (w : world Item) (s : store Item) t (fuel : nat) :
  view (st_tree st) w = Some s → Inv less s t → (size t < fuel)%nat →
  ∃ it, subTree_NewIterator less fuel st w = Ok (it, w) ∧
        ∀ n, ∃ it', nth_Next less fuel n it (w_cells w)
                    = Ok (List.filter (subTree_inRange less st) (inorder t) !! n, it').
Proof.
  intros Hv [HR Hlen Hbst Hblack] Hfuel.
  destruct (node_ceiling_spec less s t (fromKey st) fuel HR Hbst Hfuel)
    as (z & Hrun & pre & post & Hsplit & Hpre & Hpost).
  eexists. split.
  - unfold subTree_NewIterator. apply (on_tree_ro _ _ _ s); [done|].
    unfold bind, get_root, liftR, ret. rewrite Hrun. done.
  - rewrite (view_cells _ _ _ Hv). unfold subTree_inRange.
    rewrite <- (range_filter less (fromKey st) (toKey st) (inorder t) pre post Hbst Hsplit Hpre).
    2:{ destruct post; [done|]. apply Hpost. }
    destruct post as [|k' post].
    + subst z. intros n. rewrite nth_Next_sub_ended by (by right). by eexists.
    + destruct Hpost as [Hk' Hpos].
      destruct (iterator_Next_first s t z _ fuel HR Hpos) as [Hnext Hat].
      intros n. destruct n as [|n]; simpl; unfold subIterator_Next; simpl;
        rewrite Hnext; simpl; destruct (less (toKey st) k'); simpl; try (by eexists).
      * rewrite nth_Next_sub_ended by (by left). by eexists.
      * apply (nth_Next_sub s t fuel (toKey st) HR Hfuel _ z Hat n).
Qed.

(** The loop of [subTree.Len] counts what the loop of the tests collects. *)
Lemma Len_loop_iterate (fuel0 : nat) h : ∀ fuel (it : Iterator Item) l (n : Z),
  iterate_loop less fuel0 fuel it h = Ok l →
  - 2 ^ 63 ≤ n → n + Z.of_nat (List.length l) < 2 ^ 63 →
  Len_loop less fuel0 fuel it n h = Ok (n + Z.of_nat (List.length l)).
Proof.
  induction fuel as [|fuel IH]; intros it l n Hrun Hlo Hhi; [done|].
  simpl in *. destruct (Iterator_Next less fuel0 it h) as [[item it']| |]; [|done..].
  simpl in *. destruct item as [i|].
  - destruct (iterate_loop less fuel0 fuel it' h) as [l'| |] eqn:Hl'; [|done..].
    simpl in Hrun. injection Hrun as <-. simpl in Hhi.
    rewrite wrap_int_small by lia.
    rewrite (IH it' l' (n + 1) Hl') by lia. f_equal. simpl. lia.
  - injection Hrun as <-. simpl. f_equal. lia.
Qed.

(** X13: [Len] of a view is the number of stored items from [fromKey] to
    [toKey], both included; it leaves the memory as it is. *)
Theorem X13_view_len_counts_range
    (st : subTree Item) (w : world Item) (s : store Item) t (fuel : nat) :
  view (st_tree st) w = Some s → Inv less s t → (size t < fuel)%nat →
  Z.of_nat (size t) < 2 ^ 63 →
  subTree_Len less fuel st w
  = Ok (Z.of_nat (List.length (List.filter (subTree_inRange less st) (inorder t))), w).
Proof.
  intros Hv HI Hfuel Hsmall.
  destruct (subTree_iterate_spec less st w s t fuel Hv HI Hfuel) as (it & Hit & Hiter).
  unfold subTree_Len. rewrite Hit. simpl. unfold iterate in Hiter.
  rewrite (Len_loop_iterate fuel (w_cells w) fuel it _ 0 Hiter); [done|lia|].
  pose proof (List.filter_length_le (subTree_inRange less st) (inorder t)) as Hle.
  rewrite <- size_inorder in Hle. lia.
Qed.

(** Within a narrower range, within the wider one. *)
Lemma inRange_narrow (st : subTree Item) (from to x : Item) :
  subTree_inRange less st from = true → subTree_inRange less st to = true →
  negb (less x from) && negb (less to x) = true →
  subTree_inRange less st x = true.
Proof.
  unfold subTree_inRange. rewrite !andb_true_iff, !negb_true_iff.
  intros [Hf1 Hf2] [Ht1 Ht2] [Hx1 Hx2]. split.
  - destruct (less x (fromKey st)) eqn:E; [|done].
    destruct (less_cotrans x from (fromKey st) E); congruence.
  - destruct (less (toKey st) x) eqn:E; [|done].
    destruct (less_cotrans (toKey st) to x E); congruence.
Qed.

Lemma filter_filter_narrow (p q : Item → bool) (l : list Item) :
  (∀ x, q x = true → p x = true) →
  List.filter q (List.filter p l) = List.filter q l.
Proof.
  intros Hqp. induction l as [|x l IH]; [done|]. simpl.
  destruct (p x) eqn:Ep; simpl.
  - destruct (q x); [by f_equal|done].
  - destruct (q x) eqn:Eq; [|done]. by rewrite (Hqp x Eq) in Ep.
Qed.

(** X14: a view that [SubTree] makes from a view iterates exactly the items
    of that view that lie from the new [fromKey] to the new [toKey], both
    included; it yields nothing the view it was made from does not
    yield. *)
Theorem X14_narrowed_view_iterates_sublist
    (st : subTree Item) (from to : Item) (v : Tree Item)
    (w : world Item) (s : store Item) t (fuel : nat) :
  view (st_tree st) w = Some s → Inv less s t → (size t < fuel)%nat →
  subTree_SubTree less st from to = (Some v, None) →
  ∃ st' l l',
    v = TreeSub st' ∧ fromKey st' = from ∧ toKey st' = to ∧
    subTree_items less fuel st w = Ok (l, w) ∧
    subTree_items less fuel st' w = Ok (l', w) ∧
    l' = List.filter (subTree_inRange less st') l ∧
    ∀ x, x ∈ l' → x ∈ l.
Proof.
  intros Hv HI Hfuel Hsub.
  unfold subTree_SubTree, rbTree_SubTree in Hsub.
  destruct (negb (subTree_inRange less st from) || negb (subTree_inRange less st to))
    eqn:Hin; [done|].
  apply orb_false_iff in Hin as [Hin1 Hin2]. apply negb_false_iff in Hin1, Hin2.
  destruct (less to from); [done|]. injection Hsub as <-.
  set (st' := mkSubTree (st_tree st) from to).
  destruct (subTree_iterate_spec less st w s t fuel Hv HI Hfuel) as (it & Hit & Hiter).
  destruct (subTree_iterate_spec less st' w s t fuel Hv HI Hfuel) as (it' & Hit' & Hiter').
  assert (List.filter (subTree_inRange less st') (inorder t)
          = List.filter (subTree_inRange less st')
              (List.filter (subTree_inRange less st) (inorder t))) as Heq.
  { symmetry. apply filter_filter_narrow. intros x Hx.
    by apply (inRange_narrow st from to x). }
  exists st', (List.filter (subTree_inRange less st) (inorder t)),
         (List.filter (subTree_inRange less st') (inorder t)).
  split_and!; try done.
  - unfold subTree_items. rewrite Hit. simpl. by rewrite Hiter.
  - unfold subTree_items. rewrite Hit'. simpl. by rewrite Hiter'.
  - intros x. rewrite Heq, !list_elem_of_In, List.filter_In. tauto.
Qed.

Lemma view_on_tree {A} (rb : addr) (m : M Item A) (w : world Item) s a s' :
  view rb w = Some s → m s = Ok (a, s') →
  ∃ w', on_tree rb m w = Ok (a, w') ∧ view rb w' = Some s'.
Proof.
  intros Hv Hm. eexists. split; [by apply (on_tree_ok _ _ _ s)|].
  unfold view. simpl. rewrite lookup_insert_eq. simpl. by destruct s'.
Qed.

(** X15: [Insert] through a view of an item within its bounds is the
    [Insert] of the backing tree: afterwards [Find] finds the item, through
    the view and on the tree itself, and the view iterates it. *)
Theorem X15_view_insert_writes_through
    (st : subTree Item) (item : Item) (w : world Item) (s : store Item) t (fuel : nat) :
  view (st_tree st) w = Some s → Inv less s t → (S (size t) < fuel)%nat →
  subTree_inRange less st item = true →
  ∃ b w' l,
    subTree_Insert less fuel st item w = Ok ((b, None), w') ∧
    subTree_Find less fuel st item w' = Ok (Some item, w') ∧
    on_tree (st_tree st) (rbTree_Find less fuel item) w' = Ok (Some item, w') ∧
    subTree_items less fuel st w' = Ok (l, w') ∧ item ∈ l.
Proof.
  intros Hv HI Hfuel Hin.
  destruct (Insert_spec less s t item fuel HI) as (s' & Hrun & HI' & _); [lia|].
  destruct (view_on_tree _ _ _ _ _ _ Hv Hrun) as (w' & Hrun' & Hv').
  destruct (ins_tree_items less item (next s) t (Inv_bst _ _ _ HI)) as (Hitem & _ & _).
  assert (size (ins_tree less item (next s) t) < fuel)%nat as Hfuel'.
  { rewrite (size_ins_tree less) by apply HI. destruct (ins_fresh less item t); lia. }
  assert (rbTree_Find less fuel item s' = Ok (Some item, s')) as Hfind.
  { rewrite (Find_descend less s' _ item fuel (Inv_Rh _ _ _ HI')).
    - rewrite (descend_find less _ item (Inv_bst _ _ _ HI')).
      by rewrite (find_eqv less item _ item (Inv_bst _ _ _ HI') Hitem (eqv_refl less item)).
    - pose proof (height_le_size (ins_tree less item (next s) t)). lia. }
  pose proof (on_tree_ro _ _ _ _ _ Hv' Hfind) as Hfind'.
  destruct (subTree_iterate_spec less st w' s' _ fuel Hv' HI' Hfuel') as (it & Hit & Hiter).
  exists (ins_fresh less item t), w',
    (List.filter (subTree_inRange less st) (inorder (ins_tree less item (next s) t))).
  split_and!.
  - unfold subTree_Insert. by rewrite Hin.
  - unfold subTree_Find. by rewrite Hin.
  - done.
  - unfold subTree_items. rewrite Hit. simpl. by rewrite Hiter.
  - apply list_elem_of_In, List.filter_In. split; [by apply list_elem_of_In|done].
Qed.

End ViewCalls.

(** ** Further properties of the code: rotations *)

Section Rotations.
Context {Item : Type}.
Implicit Types (t l r : tree (Item:=Item)) (cs : list (frame (Item:=Item))).

(** X16: [leftRotate] of a node [x] with a right child [y], anywhere in a
    tree, puts [y] in the place of [x] and [x] to the left of [y]; it keeps
    the items in their order, the length and the colours, and
    [rightRotate] of [y] then gives the tree back. *)
Theorem X16_rotations_keep_order_and_undo
    (s : store Item) cs cx a (x : addr) kx cy b (y : addr) ky c :
  Rh s (plug cs (Nd cx a x kx (Nd cy b y ky c))) →
  ∃ s1 s2,
    leftRotate x s = Ok (tt, s1) ∧
    Rh s1 (plug cs (Nd cy (Nd cx a x kx b) y ky c)) ∧
    inorder (plug cs (Nd cy (Nd cx a x kx b) y ky c))
      = inorder (plug cs (Nd cx a x kx (Nd cy b y ky c))) ∧
    length s1 = length s ∧
    rightRotate y s1 = Ok (tt, s2) ∧
    Rh s2 (plug cs (Nd cx a x kx (Nd cy b y ky c))) ∧
    length s2 = length s.
Proof.
  intros HR.
  destruct (leftRotate_spec s cs cx a x kx cy b y ky c HR) as (s1 & Hrun1 & HR1 & Hl1 & _).
  destruct (rightRotate_spec s1 cs cx a x kx cy b y ky c HR1) as (s2 & Hrun2 & HR2 & Hl2 & _).
  exists s1, s2.
  split; [done|]. split; [done|]. split.
  { rewrite !inorder_plug. simpl. norm_app. done. }
  split; [done|]. split; [done|]. split; [done|]. by rewrite Hl2.
Qed.

(** X17: [leftRotate] of a node without a right child, and [rightRotate] of
    a node without a left child, panic: the child is the sentinel, whose
    links are the nil pointer, and the rotation writes the parent link of
    the node behind that link. *)
Theorem X17_rotation_without_child_panics (s : store Item) cs c l (x : addr) k r :
  (Rh s (plug cs (Nd c l x k Leaf)) → leftRotate x s = Panic) ∧
  (Rh s (plug cs (Nd c Leaf x k r)) → rightRotate x s = Panic).
Proof.
  split; intros HR.
  - pose proof (Rh_lookup _ _ _ _ _ _ _ HR) as Hx. simpl in Hx.
    destruct (Rh_sentinel _ _ HR) as [p0 Hnt].
    pose proof (Rh_goNil _ _ HR) as HnG.
    assert (x ≠ goNil) as HxG by (intros ->; congruence).
    assert (x ≠ tNil) as HxT by (intros ->; congruence).
    unfold leftRotate, bind, load, set_right, set_parent, modify. rewrite Hx. simpl.
    rewrite Hnt. simpl. rewrite Hx. simpl.
    rewrite lookup_insert_ne by done. rewrite Hnt. simpl.
    destruct (decide (goNil ≠ tNil)) as [_|E]; [|by destruct E].
    rewrite lookup_insert_ne by done. rewrite Hnt. simpl.
    rewrite lookup_insert_ne by done. by rewrite HnG.
  - pose proof (Rh_lookup _ _ _ _ _ _ _ HR) as Hx. simpl in Hx.
    destruct (Rh_sentinel _ _ HR) as [p0 Hnt].
    pose proof (Rh_goNil _ _ HR) as HnG.
    assert (x ≠ goNil) as HxG by (intros ->; congruence).
    assert (x ≠ tNil) as HxT by (intros ->; congruence).
    unfold rightRotate, bind, load, set_left, set_parent, modify. rewrite Hx. simpl.
    rewrite Hnt. simpl. rewrite Hx. simpl.
    rewrite lookup_insert_ne by done. rewrite Hnt. simpl.
    destruct (decide (goNil ≠ tNil)) as [_|E]; [|by destruct E].
    rewrite lookup_insert_ne by done. rewrite Hnt. simpl.
    rewrite lookup_insert_ne by done. by rewrite HnG.
Qed.

End Rotations.

(** ** Further properties of the code: Remove of a node with one child at most *)

(** The side conditions of [Rh_replace] when the sentinel was written too. *)
Ltac sentinel_tac' :=
  first [ sentinel_tac | unfold sentinel; eexists; heap_lookup; reflexivity ].
Ltac rh_tac' :=
  [> sentinel_tac' | goNil_tac | alloc_tac | agree_tac | first [done | rep_tac] | done | | ].

Section Transplant.
Context {Item : Type}.
Implicit Types (t l r : tree (Item:=Item)) (cs : list (frame (Item:=Item))).
Implicit Types (h : gmap addr (node Item)).

Lemma sentinel_update h (n : node Item) :
  n_color n = black → n_item n = None → n_left n = goNil → n_right n = goNil →
  sentinel (<[tNil := n]> h).
Proof.
  destruct n as [c i l r p]. simpl. intros -> -> -> ->.
  exists p. by rewrite lookup_insert_eq.
Qed.

(** [transplant(z, z.right)] for a node without a left child. *)
Lemma transplant_right_spec (s : store Item) cs c (z : addr) k r :
  Rh s (plug cs (Nd c Leaf z k r)) →
  ∃ s', transplant z (ptr r) s = Ok (tt, s') ∧
        Rh s' (plug cs r) ∧
        length s' = length s ∧ next s' = next s ∧
        cells s' !! z = cells s !! z.
Proof.
  intros HR.
  pose proof (Rh_nodup_plug _ _ _ HR) as Hnd.
  destruct (Rh_ranges _ _ _ HR) as (HnT & HnG & Hlt).
  assert (hide (NoDup (addrs (plug cs r)))) as Hnd0.
  { unfold hide. rewrite addrs_plug. simpl in Hnd. by apply NoDup_cons in Hnd as [_ Hnd]. }
  destruct s as [rt n h nx].
  pose proof HR as [Hs Hg Hal Hrt Hrep _]. simpl in Hs, Hg, Hal, Hrt, Hrep, Hlt.
  pose proof Hs as [p0 Hnt].
  assert (tNil ≠ goNil) as HTG by done.
  assert (tNil < nx)%nat as HTlt by (by eapply alloc_lt).
  destruct r as [|cr rl pr kr rr]; destruct cs as [|[cf pf kf rf|cf lf pf kf] cs];
    simpl in Hnd, HnT, HnG, Hlt; nodup_split;
    (apply (rep_plug _ _ cs) in Hrep as Hrepf || pose proof Hrep as Hrepf);
    simpl in Hrepf; destruct_and?;
    (eexists; split; [unfold transplant; mgo; reflexivity|]; split;
     [|split_and!; [done|done|simpl; rewrite ?lookup_insert_ne by neq_tac; done]]).
  - eapply (Rh_replace _ [] _ Leaf); [exact HR|..]; rh_tac'.
    + done.
    + exact Hnd0.
  - eapply (Rh_replace _ cs _ (Nd cf Leaf pf kf rf)); [exact HR|..]; rh_tac'.
    + rewrite Hrt. exact (ptr_plug_cons (FL cf pf kf rf) cs _ Leaf).
    + exact Hnd0.
  - eapply (Rh_replace _ cs _ (Nd cf lf pf kf Leaf)); [exact HR|..]; rh_tac'.
    + rewrite Hrt. exact (ptr_plug_cons (FR cf lf pf kf) cs _ Leaf).
    + exact Hnd0.
  - eapply (Rh_replace _ [] _ (Nd cr rl pr kr rr)); [exact HR|..]; rh_tac'.
    + done.
    + exact Hnd0.
  - eapply (Rh_replace _ cs _ (Nd cf (Nd cr rl pr kr rr) pf kf rf)); [exact HR|..]; rh_tac'.
    + rewrite Hrt. exact (ptr_plug_cons (FL cf pf kf rf) cs _ (Nd cr rl pr kr rr)).
    + exact Hnd0.
  - eapply (Rh_replace _ cs _ (Nd cf lf pf kf (Nd cr rl pr kr rr))); [exact HR|..]; rh_tac'.
    + rewrite Hrt. exact (ptr_plug_cons (FR cf lf pf kf) cs _ (Nd cr rl pr kr rr)).
    + exact Hnd0.
Qed.

(** [transplant(z, z.left)] for a node without a right child. *)
Lemma transplant_left_spec (s : store Item) cs c l (z : addr) k :
  Rh s (plug cs (Nd c l z k Leaf)) →
  ∃ s', transplant z (ptr l) s = Ok (tt, s') ∧
        Rh s' (plug cs l) ∧
        length s' = length s ∧ next s' = next s.
Proof.
  intros HR.
  pose proof (Rh_nodup_plug _ _ _ HR) as Hnd.
  destruct (Rh_ranges _ _ _ HR) as (HnT & HnG & Hlt).
  assert (hide (NoDup (addrs (plug cs l)))) as Hnd0.
  { unfold hide. rewrite addrs_plug. simpl in Hnd.
    rewrite <- app_assoc in Hnd. simpl in Hnd.
    apply NoDup_app in Hnd as (H1 & H2 & H3). apply NoDup_cons in H3 as [_ H3].
    apply NoDup_app. split_and!; [done| |done].
    intros e He Hin. apply (H2 e He). by apply in_further. }
  destruct s as [rt n h nx].
  pose proof HR as [Hs Hg Hal Hrt Hrep _]. simpl in Hs, Hg, Hal, Hrt, Hrep, Hlt.
  pose proof Hs as [p0 Hnt].
  assert (tNil ≠ goNil) as HTG by done.
  assert (tNil < nx)%nat as HTlt by (by eapply alloc_lt).
  destruct l as [|cl ll pl kl lr]; destruct cs as [|[cf pf kf rf|cf lf pf kf] cs];
    simpl in Hnd, HnT, HnG, Hlt; nodup_split;
    (apply (rep_plug _ _ cs) in Hrep as Hrepf || pose proof Hrep as Hrepf);
    simpl in Hrepf; destruct_and?;
    (eexists; split; [unfold transplant; mgo; reflexivity|]; split; [|done]).
  - eapply (Rh_replace _ [] _ Leaf); [exact HR|..]; rh_tac'.
    + done.
    + exact Hnd0.
  - eapply (Rh_replace _ cs _ (Nd cf Leaf pf kf rf)); [exact HR|..]; rh_tac'.
    + rewrite Hrt. exact (ptr_plug_cons (FL cf pf kf rf) cs _ Leaf).
    + exact Hnd0.
  - eapply (Rh_replace _ cs _ (Nd cf lf pf kf Leaf)); [exact HR|..]; rh_tac'.
    + rewrite Hrt. exact (ptr_plug_cons (FR cf lf pf kf) cs _ Leaf).
    + exact Hnd0.
  - eapply (Rh_replace _ [] _ (Nd cl ll pl kl lr)); [exact HR|..]; rh_tac'.
    + done.
    + exact Hnd0.
  - eapply (Rh_replace _ cs _ (Nd cf (Nd cl ll pl kl lr) pf kf rf)); [exact HR|..]; rh_tac'.
    + rewrite Hrt. exact (ptr_plug_cons (FL cf pf kf rf) cs _ (Nd cl ll pl kl lr)).
    + exact Hnd0.
  - eapply (Rh_replace _ cs _ (Nd cf lf pf kf (Nd cl ll pl kl lr))); [exact HR|..]; rh_tac'.
    + rewrite Hrt. exact (ptr_plug_cons (FR cf lf pf kf) cs _ (Nd cl ll pl kl lr)).
    + exact Hnd0.
Qed.

(** [removeFixup] on the root only makes it black. *)
Lemma removeFixup_root (s : store Item) t fuel :
  Rh s t → (0 < fuel)%nat →
  ∃ s', removeFixup fuel (ptr t) s = Ok (tt, s') ∧
        Rh s' (blacken t) ∧
        length s' = length s ∧ next s' = next s.
Proof.
  intros HR Hfuel. destruct fuel as [|fuel]; [lia|].
  destruct t as [|c l a k r].
  - destruct s as [rt n h nx].
    pose proof HR as [Hs Hg Hal Hrt Hrep Hnd]. simpl in Hs, Hg, Hal, Hrt, Hrep.
    pose proof Hs as [p0 Hnt].
    assert (tNil ≠ goNil) as HTG by done.
    assert (tNil < nx)%nat as HTlt by (by eapply alloc_lt).
    simpl in Hrt. subst rt.
    eexists. split; [simpl; mgo; reflexivity|]. split; [|done].
    eapply (Rh_replace _ [] _ Leaf); [exact HR|..];
      [sentinel_tac'|goNil_tac|alloc_tac| |done|done|done|constructor].
    intros e He. by apply elem_of_nil in He.
  - destruct (set_color_spec s [] c l a k r black HR) as (s' & Hrun & HR' & Hl & Hn).
    exists s'. split; [|done].
    simpl. unfold bind, get_root, ret. rewrite (Rh_root _ _ HR). simpl.
    destruct (decide (a ≠ a)); [done|]. exact Hrun.
Qed.

(** [removeFixup] on a red node only makes it black. *)
Lemma removeFixup_red (s : store Item) cs l (x : addr) k r fuel :
  Rh s (plug cs (Nd red l x k r)) → (0 < fuel)%nat →
  ∃ s', removeFixup fuel x s = Ok (tt, s') ∧
        Rh s' (plug cs (Nd black l x k r)) ∧
        length s' = length s ∧ next s' = next s.
Proof.
  intros HR Hfuel. destruct fuel as [|fuel]; [lia|].
  destruct (set_color_spec s cs red l x k r black HR) as (s' & Hrun & HR' & Hl & Hn).
  exists s'. split; [|done].
  pose proof (Rh_lookup _ _ _ _ _ _ _ HR) as Hx.
  simpl. unfold bind, get_root, ret. simpl.
  destruct (decide (x ≠ root s)); [|exact Hrun].
  unfold load. rewrite Hx. simpl. exact Hrun.
Qed.

(** [remove] of a node without a left child, when [removeFixup] is not
    called or leaves its loop at once. *)
Lemma remove_no_left (s : store Item) cs c (z : addr) k r fuel :
  Rh s (plug cs (Nd c Leaf z k r)) →
  c = red ∨ cs = [] ∨ tcolor r = red → (0 < fuel)%nat →
  ∃ s', remove fuel z s = Ok (tt, s') ∧
        Rh s' (plug cs (match c with red => r | black => blacken r end)) ∧
        length s' = length s.
Proof.
  intros HR Hcase Hfuel.
  pose proof (Rh_lookup _ _ _ _ _ _ _ HR) as Hz. simpl in Hz.
  destruct (transplant_right_spec s cs c z k r HR) as (s1 & Hrun1 & HR1 & Hl1 & _).
  unfold remove, bind, load, ret. rewrite Hz. simpl.
  destruct (decide (tNil = tNil)); [|done].
  repeat (rewrite Hz; simpl). rewrite Hrun1. simpl.
  destruct c.
  - destruct (decide (red = black)); [done|]. by exists s1.
  - destruct (decide (black = black)); [|done].
    destruct Hcase as [Hc|[->|Hr]]; [done| |].
    + destruct (removeFixup_root s1 r fuel HR1 Hfuel) as (s2 & Hrun2 & HR2 & Hl2 & _).
      exists s2. split; [done|]. split; [done|]. by rewrite Hl2.
    + destruct r as [|cr rl x rk rr]; [done|]. simpl in Hr. subst cr.
      destruct (removeFixup_red s1 cs rl x rk rr fuel HR1 Hfuel)
        as (s2 & Hrun2 & HR2 & Hl2 & _).
      exists s2. split; [done|]. split; [done|]. by rewrite Hl2.
Qed.

(** [remove] of a node with a left child and without a right child. *)
Lemma remove_no_right (s : store Item) cs c l (z : addr) k fuel :
  Rh s (plug cs (Nd c l z k Leaf)) → l ≠ Leaf →
  c = red ∨ cs = [] ∨ tcolor l = red → (0 < fuel)%nat →
  ∃ s', remove fuel z s = Ok (tt, s') ∧
        Rh s' (plug cs (match c with red => l | black => blacken l end)) ∧
        length s' = length s.
Proof.
  intros HR Hl Hcase Hfuel.
  pose proof (Rh_lookup _ _ _ _ _ _ _ HR) as Hz. simpl in Hz.
  assert (ptr l ≠ tNil) as HlT.
  { eapply Rh_addr_ne_tNil; [exact HR|]. rewrite addrs_plug. simpl.
    apply in_app_l, in_app_l. by apply ptr_in_addrs. }
  destruct (transplant_left_spec s cs c l z k HR) as (s1 & Hrun1 & HR1 & Hl1 & _).
  unfold remove, bind, load, ret. repeat (rewrite Hz; simpl).
  destruct (decide (ptr l = tNil)); [done|].
  repeat (rewrite Hz; simpl). destruct (decide (tNil = tNil)); [|done].
  repeat (rewrite Hz; simpl). rewrite Hrun1. simpl.
  destruct c.
  - destruct (decide (red = black)); [done|]. by exists s1.
  - destruct (decide (black = black)); [|done].
    destruct Hcase as [Hc|[->|Hr]]; [done| |].
    + destruct (removeFixup_root s1 l fuel HR1 Hfuel) as (s2 & Hrun2 & HR2 & Hl2 & _).
      exists s2. split; [done|]. split; [done|]. by rewrite Hl2.
    + destruct l as [|cl ll x lk lr]; [done|]. simpl in Hr. subst cl.
      destruct (removeFixup_red s1 cs ll x lk lr fuel HR1 Hfuel)
        as (s2 & Hrun2 & HR2 & Hl2 & _).
      exists s2. split; [done|]. split; [done|]. by rewrite Hl2.
Qed.

End Transplant.

Section RemoveOneColors.
Context {Item : Type}.
Implicit Types (t l r : tree (Item:=Item)) (cs : list (frame (Item:=Item))).

(** Taking out a node with one child at most that is red, or the root, or
    has a red child keeps the colours and the black heights right. *)
Lemma remove_one_child_rb cs c l (z : addr) (k : Item) r m :
  l = Leaf ∨ r = Leaf →
  c = red ∨ cs = [] ∨ tcolor l = red ∨ tcolor r = red →
  no_red_red (plug cs (Nd c l z k r)) → black_height m (plug cs (Nd c l z k r)) →
  let child := match l with Leaf => r | _ => l end in
  let t' := plug cs (match c with red => child | black => blacken child end) in
  no_red_red t' ∧ ∃ m', black_height m' t'.
Proof.
  intros Hone Hcase Hn Hb.
  destruct (plug_rb_inv cs _ _ Hn Hb) as (n & Hctx & Hnu & Hbu & Hhead).
  cbv zeta. set (child := match l with Leaf => r | _ => l end).
  assert (child = l ∨ child = r) as Hchild by (unfold child; destruct l; auto).
  destruct c; simpl in Hnu, Hbu.
  - destruct Hnu as (Hc & Hnl & Hnr). destruct (Hc eq_refl) as [Hcl Hcr].
    destruct Hbu as [Hbl Hbr].
    apply (plug_rb cs child n); [done|..]; destruct Hchild as [-> | ->]; try done;
      intros; congruence.
  - destruct n as [|j]; [done|]. destruct Hnu as (_ & Hnl & Hnr). destruct Hbu as [Hbl Hbr].
    assert (no_red_red child ∧ black_height j child) as [Hnc Hbc].
    { destruct Hchild as [-> | ->]; done. }
    destruct Hcase as [?|[-> | Hred]]; [done| |].
    + simpl. by apply (blacken_rb child j).
    + assert (tcolor child = red) as Hcr.
      { unfold child. destruct Hred as [Hred|Hred].
        - destruct l; [done|exact Hred].
        - destruct Hone as [-> | ->]; [exact Hred|done]. }
      destruct (blacken_red child j Hcr Hnc Hbc) as [Hn' Hb'].
      apply (plug_rb cs (blacken child) (S j)); [done|done|done|].
      rewrite tcolor_blacken. intros; congruence.
Qed.

End RemoveOneColors.

Section Remove.
Context {Item : Type} (less : Item → Item → bool) `{!LessOrder less}.
Implicit Types (t l r : tree (Item:=Item)) (cs : list (frame (Item:=Item))).

Lemma ascending_remove (l1 l2 : list Item) x :
  ascending less (l1 ++ x :: l2) → ascending less (l1 ++ l2).
Proof.
  unfold ascending. rewrite !StronglySorted_app, StronglySorted_cons.
  intros (H3 & H1 & [_ H2]). split_and!; [|done|done].
  intros x1 x2 Hx1 Hx2. apply H3; [done|by apply in_further].
Qed.

Lemma Rh_set_length (s : store Item) t (n : Z) :
  Rh s t → Rh (mkStore (root s) n (cells s) (next s)) t.
Proof. intros [H1 H2 H3 H4 H5 H6]. by split. Qed.

(** The removed item is not found any more. *)
Lemma Find_removed (s : store Item) t (item k : Item) pre post fuel :
  Rh s t → inorder t = pre ++ post → ascending less (pre ++ k :: post) →
  eqv less item k → (size t < fuel)%nat →
  rbTree_Find less fuel item s = Ok (None, s).
Proof.
  intros HR Hin Hasc Hik Hfuel.
  assert (ascending less (inorder t)) as Hasc'.
  { rewrite Hin. by eapply ascending_remove. }
  rewrite (Find_descend less s t item fuel HR).
  2:{ pose proof (height_le_size t). lia. }
  rewrite (descend_find less t item Hasc'), Hin.
  rewrite (find_eqv_none less); [done|].
  apply Forall_forall. intros x Hx Hix.
  assert (x = k) as ->.
  { apply (ascending_eqv_unique less item (pre ++ k :: post)); try done.
    - apply elem_of_app in Hx as [Hx|Hx]; apply elem_of_app; [by left|right].
      by apply in_further.
    - apply elem_of_app. right. apply in_here. }
  unfold ascending in Hasc. apply StronglySorted_app in Hasc as (Hcross & _ & Hpost).
  apply StronglySorted_cons in Hpost as [Hpost _]. rewrite Forall_forall in Hpost.
  pose proof (less_irrefl less k) as Hirr.
  apply elem_of_app in Hx as [Hx|Hx].
  - specialize (Hcross k k Hx (in_here _ _)). unfold lt in Hcross. congruence.
  - specialize (Hpost k Hx). unfold lt in Hpost. congruence.
Qed.

(** X18: [Remove] of an item stored in a node that has one child at most
    and is red, or is the root, or has a red child, takes the node out of
    the tree and puts its child, made black unless the node was red, in its
    place: it returns [true] with a nil error, the items are the items
    before but the removed one, in order, the root stays black, [Len] is
    one less, [Find] does not find the item any more, and a red-black tree
    stays red-black.  (The least and the
    greatest item are in such nodes unless their node is a black leaf.) *)
Theorem X18_remove_node_with_one_child
    (s : store Item) t (item : Item) (fuel : nat) cs c l (z : addr) k r :
  Inv less s t → descend less item [] t = (cs, Nd c l z k r) →
  l = Leaf ∨ r = Leaf →
  c = red ∨ cs = [] ∨ tcolor l = red ∨ tcolor r = red →
  (size t < fuel)%nat → Z.of_nat (size t) < 2 ^ 63 →
  ∃ s' t' pre post,
    rbTree_Remove less fuel item s = Ok ((true, None), s') ∧
    Inv less s' t' ∧
    eqv less item k ∧
    inorder t = pre ++ k :: post ∧ inorder t' = pre ++ post ∧
    (red_black less t → red_black less t') ∧
    rbTree_Len s' = Ok (length s - 1, s') ∧
    rbTree_Find less fuel item s' = Ok (None, s').
Proof.
  intros HI Hd Hone Hcase Hfuel Hsmall.
  pose proof HI as [HR Hlen Hbst Hblack].
  pose proof (descend_plug less item t []) as Hplug.
  pose proof (descend_found less item t []) as Hfound.
  pose proof (find_loop_descend less (cells s) item t [] fuel
                (Rh_sentinel _ _ HR) (Rh_rep _ _ HR) Hfuel) as Hfind.
  rewrite Hd in Hplug, Hfound, Hfind. simpl in Hplug, Hfound, Hfind. subst t.
  assert (z ≠ tNil) as HzT.
  { eapply Rh_addr_ne_tNil; [exact HR|]. rewrite addrs_plug. simpl. in_tac. }
  assert (0 < fuel)%nat as Hpos by lia.
  set (child := match l with Leaf => r | _ => l end).
  assert (inorder child = inorder l ++ inorder r ∧ size (Nd c l z k r) = S (size child)
          ∧ ∃ s1, remove fuel z s = Ok (tt, s1)
               ∧ Rh s1 (plug cs (match c with red => child | black => blacken child end))
               ∧ length s1 = length s) as (Hin & Hsz & s1 & Hrun & HR1 & Hl1).
  { destruct l as [|cl ll al kl lr].
    - split; [done|]. split; [done|].
      apply (remove_no_left s cs c z k r fuel HR); [|done].
      destruct Hcase as [?|[?|[?|?]]]; auto. done.
    - destruct Hone as [?| ->]; [done|]. split; [by rewrite app_nil_r|].
      split; [simpl; lia|].
      apply (remove_no_right s cs c _ z k fuel HR); [done| |done].
      destruct Hcase as [?|[?|[?|?]]]; auto. done. }
  set (t' := plug cs (match c with red => child | black => blacken child end)) in *.
  assert (inorder t' = ctx_before cs ++ (inorder l ++ inorder r) ++ ctx_after cs) as Hin'.
  { unfold t'. rewrite inorder_plug. destruct c; by rewrite ?inorder_blacken, Hin. }
  assert (size (plug cs (Nd c l z k r)) = S (size t')) as Hsz'.
  { unfold t'. rewrite !size_plug, Hsz. destruct c; rewrite ?size_blacken; lia. }
  exists (mkStore (root s1) (wrap_int (length s1 - 1)) (cells s1) (next s1)), t',
         (ctx_before cs ++ inorder l), (inorder r ++ ctx_after cs).
  assert (Inv less (mkStore (root s1) (wrap_int (length s1 - 1)) (cells s1) (next s1)) t')
    as HI'.
  { split.
    - by apply Rh_set_length.
    - simpl. rewrite Hl1, Hlen, Hsz'.
      rewrite <- Z.add_opp_r, wrap_int_add. f_equal. lia.
    - rewrite Hin'. rewrite inorder_plug in Hbst. simpl in Hbst.
      rewrite <- !app_assoc in *. simpl in Hbst.
      rewrite !app_assoc in Hbst. apply ascending_remove in Hbst.
      by rewrite <- !app_assoc in Hbst.
    - unfold t'. rewrite tcolor_plug in *. destruct (last cs); [done|].
      destruct c; [done|apply tcolor_blacken]. }
  split_and!.
  - unfold rbTree_Remove, find, bind, get_root, liftR.
    rewrite (Rh_root _ _ HR), Hfind. simpl.
    destruct (decide (z = tNil)); [done|].
    unfold bind. rewrite Hrun. done.
  - exact HI'.
  - done.
  - rewrite inorder_plug. simpl. by rewrite <- !app_assoc.
  - rewrite Hin'. by rewrite <- !app_assoc.
  - intros (_ & Hn & [m Hb] & _).
    destruct (remove_one_child_rb cs c l z k r m Hone Hcase Hn Hb) as [Hn' Hb'].
    split_and!; [apply HI'|exact Hn'|exact Hb'|apply HI'].
  - unfold rbTree_Len, get_length. simpl. rewrite Hl1, Hlen.
    rewrite !wrap_int_small; [done|lia|].
    rewrite wrap_int_small by lia. rewrite Hsz'. lia.
  - apply (Find_removed _ t' item k (ctx_before cs ++ inorder l) (inorder r ++ ctx_after cs)).
    + apply HI'.
    + rewrite Hin'. by rewrite <- !app_assoc.
    + rewrite inorder_plug in Hbst. simpl in Hbst. by rewrite <- !app_assoc in *.
    + done.
    + lia.
Qed.

End Remove.

(** ** Further properties of the code: the empty tree, and New *)

Section Empty.
Context {Item : Type} (less : Item → Item → bool).

(** X19: on an empty tree [Len] is 0, [Find] returns nil, [Remove] returns
    [false] with a nil error, and the loop over [NewIterator] ends at once;
    through a view of an empty tree, [Min] and [Max] return nil, the
    iteration yields nothing and [Len] is 0.  None of them changes
    anything. *)
Theorem X19_empty_tree (s : store Item) (fuel : nat) :
  Inv less s Leaf → (0 < fuel)%nat →
  rbTree_Len s = Ok (0, s) ∧
  rbTree_items less fuel s = Ok ([], s) ∧
  (∀ item, rbTree_Find less fuel item s = Ok (None, s) ∧
           rbTree_Remove less fuel item s = Ok ((false, None), s)) ∧
  (∀ (st : subTree Item) (w : world Item),
     view (st_tree st) w = Some s →
     subTree_Min less fuel st w = Ok (None, w) ∧
     subTree_Max less fuel st w = Ok (None, w) ∧
     subTree_items less fuel st w = Ok ([], w) ∧
     subTree_Len less fuel st w = Ok (0, w)).
Proof.
  intros [HR Hlen _ _] Hfuel. destruct fuel as [|fuel]; [lia|].
  pose proof (Rh_root _ _ HR) as Hroot. simpl in Hroot, Hlen.
  assert (∀ item, find less (S fuel) (Some item) s = Ok ((tNil, tNil), s)) as Hfind.
  { intros item. unfold find, bind, get_root, liftR. rewrite Hroot. simpl.
    destruct (decide (tNil ≠ tNil)); done. }
  assert (∀ item, node_ceiling less (S fuel) tNil item (cells s) = Ok tNil) as Hceil.
  { intros item. unfold node_ceiling. simpl. destruct (decide (tNil ≠ tNil)); done. }
  assert (∀ item, node_floor less (S fuel) tNil item (cells s) = Ok tNil) as Hfloor.
  { intros item. unfold node_floor. simpl. destruct (decide (tNil ≠ tNil)); done. }
  split_and!.
  - unfold rbTree_Len, get_length. by rewrite Hlen.
  - unfold rbTree_items, rbTree_NewIterator, rbTree_Len, bind, get_length, liftR, ret.
    rewrite Hlen. simpl. unfold iterate. simpl. unfold iterator_Next. simpl. done.
  - intros item. split.
    + unfold rbTree_Find, bind. rewrite Hfind. simpl. destruct (decide (tNil = tNil)); done.
    + unfold rbTree_Remove, bind. rewrite Hfind. simpl. destruct (decide (tNil = tNil)); done.
  - intros st w Hv.
    assert (subTree_NewIterator less (S fuel) st w
            = Ok (IterSub (mkSubIterator (mkIterator tNil beforeFirst) (toKey st)), w)) as Hit.
    { unfold subTree_NewIterator. apply (on_tree_ro _ _ _ s); [done|].
      unfold bind, get_root, liftR, ret. rewrite Hroot, Hceil. done. }
    split_and!.
    + unfold subTree_Min. apply (on_tree_ro _ _ _ s); [done|].
      unfold bind, get_root, liftR, ret. rewrite Hroot, Hceil. simpl.
      destruct (decide (tNil = tNil)); done.
    + unfold subTree_Max. apply (on_tree_ro _ _ _ s); [done|].
      unfold bind, get_root, liftR, ret. rewrite Hroot, Hfloor. simpl.
      destruct (decide (tNil = tNil)); done.
    + unfold subTree_items. rewrite Hit. simpl. unfold iterate. simpl.
      unfold subIterator_Next, iterator_Next. simpl. done.
    + unfold subTree_Len. rewrite Hit. simpl.
      unfold subIterator_Next, iterator_Next. simpl. done.
Qed.

End Empty.

(** ** Further properties of the code: trees do not disturb each other *)

Section Local.
Context {Item : Type}.
Implicit Types (h : gmap addr (node Item)) (s : store Item).

Lemma local_ret {A} (a : A) : local (ret (Item:=Item) a).
Proof. intros s h2 a' s' Hap [= <- <-]. done. Qed.

Lemma local_bind {A B} (m : M Item A) (k : A → M Item B) :
  local m → (∀ a, local (k a)) → local (bind m k).
Proof.
  intros Hm Hk s h2 b s' Hap. unfold bind.
  destruct (m s) as [[a s1]| |] eqn:E; [|done..]. intros Hrun.
  destruct (Hm s h2 a s1 Hap E) as [-> Hap1].
  by apply Hk.
Qed.

Lemma local_panic {A} : local (panic (Item:=Item) (A:=A)).
Proof. by intros s h2 a s' _. Qed.

Lemma local_out_of_fuel {A} : local (out_of_fuel (Item:=Item) (A:=A)).
Proof. by intros s h2 a s' _. Qed.

Lemma local_load {A} (f : node Item → A) (p : addr) : local (load f p).
Proof.
  intros s h2 a s' [Hd Hb]. unfold load.
  destruct (cells s !! p) as [n|] eqn:E; [|done]. intros [= <- <-].
  simpl. by rewrite (lookup_union_Some_l _ _ _ _ E).
Qed.

Lemma local_modify (f : node Item → node Item) (p : addr) : local (modify f p).
Proof.
  intros s h2 a s' [Hd Hb]. unfold modify.
  destruct (cells s !! p) as [n|] eqn:E; [|done]. intros [= <- <-].
  simpl. rewrite (lookup_union_Some_l _ _ _ _ E). split.
  - unfold with_cells. simpl. by rewrite insert_union_l.
  - split; simpl; [|done]. apply map_disjoint_insert_l_2; [|done].
    by eapply map_disjoint_Some_l.
Qed.

Lemma local_get_root : local (get_root (Item:=Item)).
Proof. by intros s h2 a s' Hap [= <- <-]. Qed.

Lemma local_set_root (v : addr) : local (set_root (Item:=Item) v).
Proof. by intros s h2 a s' Hap [= <- <-]. Qed.

Lemma local_get_length : local (get_length (Item:=Item)).
Proof. by intros s h2 a s' Hap [= <- <-]. Qed.

Lemma local_set_length (v : Z) : local (set_length (Item:=Item) v).
Proof. by intros s h2 a s' Hap [= <- <-]. Qed.

Lemma local_alloc (n : node Item) : local (alloc n).
Proof.
  intros s h2 a s' [Hd Hb] [= <- <-]. split.
  - unfold alloc, with_cells. simpl. by rewrite insert_union_l.
  - split; simpl.
    + apply map_disjoint_insert_l_2; [|done].
      destruct (h2 !! next s) eqn:E; [|done].
      pose proof (Hb _ _ E). simpl in *. lia.
    + eapply map_Forall_impl; [exact Hb|]. simpl. intros; lia.
Qed.

Lemma local_liftR {A} (r : R Item A) : mono r → local (liftR r).
Proof.
  intros Hr s h2 a s' [Hd Hb]. unfold liftR.
  destruct (r (cells s)) as [a'| |] eqn:E; [|done..]. intros [= <- <-].
  simpl. by rewrite (Hr _ _ _ Hd E).
Qed.

Lemma mono_deref h h2 (p : addr) n :
  h ##ₘ h2 → deref h p = Ok n → deref (h ∪ h2) p = Ok n.
Proof.
  intros Hd. unfold deref. destruct (h !! p) eqn:E; [|done].
  by rewrite (lookup_union_Some_l _ _ _ _ E).
Qed.

End Local.

(** Locality of code put together from the statements above. *)
Ltac local_step :=
  first
    [ apply local_ret | apply local_panic | apply local_out_of_fuel
    | apply local_load | apply local_modify | apply local_alloc
    | apply local_get_root | apply local_set_root
    | apply local_get_length | apply local_set_length
    | assumption
    | apply local_bind; [|intros ?]
    | match goal with
      | |- local (if decide ?P then _ else _) => destruct (decide P)
      | |- local (if ?b then _ else _) => destruct b
      | |- local (match ?x with _ => _ end) => destruct x
      end ].
Ltac local_tac :=
  unfold set_color, set_item, set_left, set_right, set_parent, grandparent;
  repeat local_step.

Section LocalCode.
Context {Item : Type} (less : Item → Item → bool).

Lemma mono_find_loop (fuel : nat) : ∀ (x y : addr) (item : option Item),
  mono (find_loop less fuel x y item).
Proof.
  induction fuel as [|fuel IH]; intros x y item h h2 a Hd; simpl; [done|].
  destruct (decide (x ≠ tNil)); [|done].
  destruct (deref h x) as [xn| |] eqn:E; [|done..].
  rewrite (mono_deref _ _ _ _ Hd E). simpl.
  destruct (Less less item (n_item xn)) as [[]| |]; simpl; try done.
  { by apply IH. }
  destruct (Less less (n_item xn) item) as [[]| |]; simpl; try done.
  by apply IH.
Qed.

Lemma local_find (fuel : nat) (item : option Item) : local (find less fuel item).
Proof.
  unfold find. apply local_bind; [apply local_get_root|].
  intros r. apply local_liftR, mono_find_loop.
Qed.

Lemma local_leftRotate (x : addr) : local (leftRotate (Item:=Item) x).
Proof. unfold leftRotate. local_tac. Qed.

Lemma local_rightRotate (y : addr) : local (rightRotate (Item:=Item) y).
Proof. unfold rightRotate. local_tac. Qed.

Lemma local_insertFixup (fuel : nat) : ∀ z : addr, local (insertFixup (Item:=Item) fuel z).
Proof.
  pose proof (@local_leftRotate) as HL. pose proof (@local_rightRotate) as HR.
  induction fuel as [|fuel IH]; intros z; simpl; [apply local_out_of_fuel|].
  local_tac; first [apply IH | apply HL | apply HR].
Qed.

End LocalCode.

Section Beside.
Context {Item : Type} (less : Item → Item → bool) `{!LessOrder less}.
Implicit Types (t u : tree (Item:=Item)) (s : store Item).

Lemma local_insert (fuel : nat) (z : addr) : local (insert less fuel z).
Proof.
  pose proof (local_find less fuel) as HF.
  pose proof (@local_insertFixup Item fuel) as HX.
  unfold insert. apply local_bind.
  { apply local_bind; [apply local_load|]. intros zi. apply HF. }
  intros xy. cbv zeta.
  destruct (decide (xy.1 ≠ tNil)); [local_tac|].
  apply local_bind; [local_tac|]. intros _.
  apply local_bind.
  { destruct (decide (xy.2 = tNil)); [local_tac|].
    apply local_bind.
    - apply local_bind; [apply local_load|]. intros zi.
      apply local_bind; [apply local_load|]. intros yi.
      apply local_liftR. by intros h h2 a Hd.
    - intros []; local_tac. }
  intros _. local_tac. apply HX.
Qed.

Lemma local_Insert (fuel : nat) (item : Item) : local (rbTree_Insert less fuel item).
Proof.
  unfold rbTree_Insert.
  apply local_bind; [apply local_alloc|]. intros z.
  apply local_bind; [apply local_insert|]. intros res. local_tac.
Qed.

(** [Insert] beside another tree in the same memory. *)
Lemma Insert_beside s t u (item : Item) (fuel : nat) :
  Inv less s t → rep (cells s) tNil u →
  (∀ a, a ∈ addrs t → a ∉ addrs u) → (size t < fuel)%nat →
  ∃ s', rbTree_Insert less fuel item s = Ok ((ins_fresh less item t, None), s') ∧
        Inv less s' (ins_tree less item (next s) t) ∧
        rep (cells s') tNil u ∧
        (∀ a, a ∈ addrs (ins_tree less item (next s) t) → a ∉ addrs u).
Proof.
  intros HI Hu Hdisj Hfuel. pose proof HI as [HR Hlen Hbst Hblack].
  destruct (Insert_spec less s t item fuel HI Hfuel) as (s' & Hrun & HI' & _).
  exists s'. split; [done|]. split; [done|].
  set (P := λ kv : addr * node Item, kv.1 ∈ addrs t ∨ kv.1 = tNil).
  set (h1 := filter P (cells s)).
  set (h2 := filter (λ kv, ¬ P kv) (cells s)).
  set (sr := mkStore (root s) (length s) h1 (next s)).
  assert (∀ a, a ∈ addrs t ∨ a = tNil → h1 !! a = cells s !! a) as Hh1.
  { intros a Ha. unfold h1. rewrite map_lookup_filter.
    destruct (cells s !! a) as [n|]; [|done]. simpl.
    by rewrite option_guard_True. }
  assert (with_cells sr h2 = s) as Hwith.
  { unfold with_cells, sr, h1, h2. simpl.
    rewrite map_filter_union_complement. by destruct s. }
  assert (apart sr h2) as Hap.
  { split; [apply map_disjoint_filter_complement|].
    intros a n Ha. apply map_lookup_filter_Some_1_1 in Ha.
    apply (Rh_alloc _ _ HR _ _ Ha). }
  assert (Inv less sr t) as HIr.
  { split; try done. destruct HR as [H1 H2 H3 H4 H5 H6]. split; simpl; try done.
    - destruct H1 as [p Hp]. exists p. rewrite Hh1; [done|by right].
    - apply map_lookup_filter_None_2. by left.
    - intros a n Ha. apply map_lookup_filter_Some_1_1 in Ha. by apply (H3 a n).
    - eapply rep_ext; [|exact H5]. intros a Ha. apply Hh1. by left. }
  destruct (Insert_spec less sr t item fuel HIr Hfuel) as (sr' & Hrunr & HIr' & _).
  destruct (local_Insert fuel item sr h2 _ sr' Hap Hrunr) as [Hrun' [Hd' Hb']].
  rewrite Hwith, Hrun in Hrun'. injection Hrun' as ->.
  assert (∀ a, a ∈ addrs u → h2 !! a = cells s !! a ∧ is_Some (h2 !! a)) as Hh2.
  { intros a Ha. destruct (rep_in_dom _ _ _ _ Hu Ha) as [n Hn].
    assert (h2 !! a = Some n) as E.
    { apply map_lookup_filter_Some_2; [done|]. unfold P. simpl. intros [Hin| ->].
      - by apply (Hdisj a).
      - destruct (Rh_sentinel _ _ HR) as [p Hp]. rewrite Hp in Hn. injection Hn as <-.
        eapply rep_not_tNil; [apply (Rh_sentinel _ _ HR)|exact Hu|exact Ha]. }
    rewrite E. by split. }
  split.
  - eapply rep_ext; [|exact Hu]. intros a Ha. simpl.
    destruct (Hh2 a Ha) as [Heq [n Hn]].
    rewrite lookup_union_r; [done|]. by eapply map_disjoint_Some_r.
  - intros a Ha Hau.
    destruct (Hh2 a Hau) as [_ [n Hn]].
    destruct (rep_in_dom _ _ _ _ (Rh_rep _ _ (Inv_Rh _ _ _ HIr')) Ha) as [n' Hn'].
    eapply map_disjoint_spec; [exact Hd'|exact Hn'|exact Hn].
Qed.

End Beside.

Section Isolation.
Context {Item : Type} (less : Item → Item → bool) `{!LessOrder less}.
Implicit Types (t u : tree (Item:=Item)) (s : store Item).

(** X21: two trees of a program share the sentinel and nothing else, and
    [Insert] on one of them leaves the other as it is: the other tree has
    the same nodes, with the same items, colours and links, as before, and
    the two trees still have no node in common. *)
Theorem X21_insert_leaves_other_trees
    (w : world Item) (rb1 rb2 : addr) s1 t1 s2 t2 (item : Item) (fuel : nat) :
  view rb1 w = Some s1 → Inv less s1 t1 →
  view rb2 w = Some s2 → Inv less s2 t2 →
  rb1 ≠ rb2 → (∀ a, a ∈ addrs t1 → a ∉ addrs t2) → (size t1 < fuel)%nat →
  ∃ b w' s1' t1' s2',
    on_tree rb1 (rbTree_Insert less fuel item) w = Ok ((b, None), w') ∧
    view rb1 w' = Some s1' ∧ Inv less s1' t1' ∧
    view rb2 w' = Some s2' ∧ Inv less s2' t2 ∧
    (∀ a, a ∈ addrs t1' → a ∉ addrs t2).
Proof.
  intros Hv1 HI1 Hv2 HI2 Hne Hdisj Hfuel.
  pose proof HI2 as [HR2 Hlen2 Hbst2 Hblack2].
  assert (cells s2 = cells s1 ∧ next s2 = next s1) as [Hc Hn].
  { unfold view in Hv1, Hv2.
    destruct (trees w !! rb1); [|done]. destruct (trees w !! rb2); [|done].
    simpl in *. injection Hv1 as <-. injection Hv2 as <-. done. }
  destruct (Insert_beside less s1 t1 t2 item fuel HI1) as (s1' & Hrun & HI1' & Hrep & Hdisj');
    [by rewrite <- Hc; apply HR2|done|done|].
  pose proof (on_tree_ok _ _ _ _ _ _ Hv1 Hrun) as Hrun'.
  exists (ins_fresh less item t1),
         (mkWorld (<[rb1 := mkRbTree (root s1') (length s1')]> (trees w))
                  (cells s1') (next s1')),
         s1', (ins_tree less item (next s1) t1),
         (mkStore (root s2) (length s2) (cells s1') (next s1')).
  split; [exact Hrun'|]. split_and!; try done.
  - unfold view. simpl. rewrite lookup_insert_eq. simpl. by destruct s1'.
  - unfold view in Hv2 |- *. simpl. rewrite lookup_insert_ne by done.
    destruct (trees w !! rb2); [|done]. simpl in *. by injection Hv2 as <-.
  - pose proof (Inv_Rh _ _ _ HI1') as [H1 H2 H3 _ _ _].
    split; try done. split; simpl; try done; apply HR2.
Qed.

End Isolation.

(** ** Further properties of the code: Remove of a node with two children *)

(** [Rh_replace] at the parent of the hole, whose cell was written. *)
Ltac replace_tac HR Hnd0 Hrt :=
  match goal with
  | |- Rh _ (plug [] ?t) =>
    eapply (Rh_replace _ [] _ t); [exact HR|..]; rh_tac'; [done | exact Hnd0]
  | |- Rh _ (plug (?f :: ?cs) ?t) =>
    eapply (Rh_replace _ cs _ (fill f t)); [exact HR|..]; rh_tac';
    [rewrite Hrt; exact (ptr_plug_cons f cs _ _) | exact Hnd0]
  end.

Section Successor.
Context {Item : Type}.
Implicit Types (t l r : tree (Item:=Item)) (cs ds : list (frame (Item:=Item))).
Implicit Types (h : gmap addr (node Item)).

(** The successor is the right child of the node: the lines of [remove] up
    to the call of [removeFixup]. *)
Lemma remove_succ_child (s : store Item) cs c l (z : addr) k cy (y : addr) ky ry fuel :
  Rh s (plug cs (Nd c l z k (Nd cy Leaf y ky ry))) → l ≠ Leaf → (0 < fuel)%nat →
  ∃ s1, remove fuel z s
        = match cy with
          | black => removeFixup fuel (ptr ry) s1
          | red => Ok (tt, s1)
          end ∧
        Rh s1 (plug cs (Nd c l y ky ry)) ∧
        length s1 = length s ∧ next s1 = next s.
Proof.
  intros HR Hl Hfuel.
  pose proof (Rh_nodup_plug _ _ _ HR) as Hnd.
  destruct (Rh_ranges _ _ _ HR) as (HnT & HnG & Hlt).
  assert (hide (NoDup (addrs (plug cs (Nd c l y ky ry))))) as Hnd0.
  { unfold hide. rewrite addrs_plug. simpl in Hnd. simpl.
    rewrite <- !app_assoc in *. simpl in *.
    apply NoDup_app in Hnd as (H1 & H2 & H3). apply NoDup_cons in H3 as [_ H3].
    apply NoDup_app. split_and!; [done| |done].
    intros e He Hin. apply (H2 e He). by apply in_further. }
  assert (node_min fuel y (cells s) = Ok y) as Hmin.
  { destruct fuel as [|fuel]; [lia|]. simpl. unfold deref.
    rewrite (Rh_lookup _ (FR c l z k :: cs) _ _ _ _ _ HR). simpl.
    by destruct (decide (tNil ≠ tNil)). }
  destruct s as [rt n h nx]. simpl in Hmin.
  pose proof HR as [Hs Hg Hal Hrt Hrep _]. simpl in Hs, Hg, Hal, Hrt, Hrep, Hlt.
  pose proof Hs as [p0 Hnt].
  assert (tNil ≠ goNil) as HTG by done.
  assert (tNil < nx)%nat as HTlt by (by eapply alloc_lt).
  destruct l as [|cl ll al kl lr]; [done|].
  destruct cy; destruct ry as [|cr rl x kr rr];
    destruct cs as [|[cf pf kf rf|cf lf pf kf] cs];
    simpl in Hnd, HnT, HnG, Hlt; nodup_split;
    (apply (rep_plug _ _ cs) in Hrep as Hrepf || pose proof Hrep as Hrepf);
    simpl in Hrepf; destruct_and?;
    (eexists; split; [unfold remove, transplant, liftR; mgo; rewrite Hmin; mgo; reflexivity|]; split; [|done]).
  all: replace_tac HR Hnd0 Hrt.
Qed.

Lemma leftmost_app t : ∀ cs,
  leftmost cs t = ((leftmost [] t).1 ++ cs, (leftmost [] t).2).
Proof.
  induction t as [|c l IHl a k r _]; intros cs; [done|].
  destruct l as [|cl ll al kl lr]; [done|].
  change (leftmost cs (Nd c (Nd cl ll al kl lr) a k r))
    with (leftmost (FL c a k r :: cs) (Nd cl ll al kl lr)).
  change (leftmost [] (Nd c (Nd cl ll al kl lr) a k r))
    with (leftmost [FL c a k r] (Nd cl ll al kl lr)).
  rewrite (IHl (FL c a k r :: cs)), (IHl [FL c a k r]). simpl.
  by rewrite <- app_assoc.
Qed.

Lemma plug_cons_not_Leaf f cs t : plug (f :: cs) t ≠ Leaf.
Proof.
  simpl. assert (fill f t ≠ Leaf) as Ht by (by destruct f).
  revert Ht. generalize (fill f t). clear t.
  induction cs as [|g cs IH]; intros t Ht; simpl; [done|].
  apply IH. by destruct g.
Qed.

Lemma nodup_swap_root cs c c' l (z y : addr) k k' r :
  NoDup (addrs (plug cs (Nd c l z k r))) →
  y ∉ addrs (plug cs (Nd c l z k r)) →
  NoDup (addrs (plug cs (Nd c' l y k' r))).
Proof.
  rewrite !addrs_plug. simpl. rewrite <- !app_assoc. simpl.
  rewrite <- !Permutation_middle. rewrite !NoDup_cons.
  intros [_ Hnd] Hy. split; [|done].
  intros Hin. apply Hy. by apply in_further.
Qed.

(** The successor lies deeper in the right subtree: the lines of [remove]
    up to the call of [removeFixup]. *)
Lemma remove_succ_below (s : store Item) cs c l (z : addr) k r f ds cy (y : addr) ky ry fuel :
  Rh s (plug cs (Nd c l z k r)) → l ≠ Leaf →
  leftmost [] r = (f :: ds, Nd cy Leaf y ky ry) → (size r < fuel)%nat →
  ∃ s1, remove fuel z s
        = match cy with
          | black => removeFixup fuel (ptr ry) s1
          | red => Ok (tt, s1)
          end ∧
        Rh s1 (plug cs (Nd c l y ky (plug (f :: ds) ry))) ∧
        length s1 = length s ∧ next s1 = next s.
Proof.
  intros HR Hl Hlm Hfuel.
  assert (r ≠ Leaf) as Hr by (intros ->; done).
  destruct (leftmost_spec r [] Hr) as (ds' & c' & a' & k' & r' & Hlm' & Hplug & _).
  rewrite Hlm in Hlm'. symmetry in Hlm'. inversion Hlm'. subst ds' c' a' k' r'. clear Hlm'.
  simpl in Hplug.
  assert (node_min fuel (ptr r) (cells s) = Ok y) as Hmin.
  { rewrite (node_min_spec (cells s) r (FR c l z k :: cs) fuel); try done.
    - by rewrite leftmost_app, Hlm.
    - apply HR.
    - apply HR. }
  pose proof HR as HR0.
  rewrite <- Hplug in HR0.
  change (plug cs (Nd c l z k (plug ds (fill f (Nd cy Leaf y ky ry)))))
    with (plug (FR c l z k :: cs) (plug (f :: ds) (Nd cy Leaf y ky ry))) in HR0.
  rewrite <- plug_app in HR0.
  pose proof (Rh_lookup _ _ _ _ _ _ _ HR0) as Hy. simpl in Hy.
  destruct (Rh_ranges _ _ _ HR0) as (HyT & HyG & Hylt).
  pose proof (Rh_nodup_plug _ _ _ HR0) as Hynd. simpl in Hynd.
  apply NoDup_cons in Hynd as [Hynd _].
  destruct (transplant_right_spec s _ cy y ky ry HR0)
    as (s1 & Hrun1 & HR1 & Hl1 & Hn1 & Hy1).
  rewrite Hy in Hy1.
  assert (y ∉ addrs (plug ((f :: ds) ++ FR c l z k :: cs) ry)) as Hyout.
  { by rewrite addrs_plug. }
  rewrite plug_app in HR1, Hyout.
  pose proof (plug_cons_not_Leaf f ds ry) as HRne.
  pose proof (Rh_lookup _ _ _ _ _ _ _ HR) as Hz.
  assert (faddr f ≠ z) as Hfz.
  { pose proof (Rh_nodup_plug _ _ _ HR) as Hnd. simpl in Hnd.
    rewrite <- !app_assoc in Hnd. apply NoDup_app in Hnd as (_ & _ & Hnd).
    apply NoDup_cons in Hnd as [Hnd _].
    intros E. apply Hnd. apply elem_of_app. left.
    rewrite <- E, <- Hplug. simpl. rewrite addrs_plug.
    apply elem_of_app. left. destruct f; simpl; set_solver. }
  assert (ptr r ≠ tNil) as HrT.
  { eapply Rh_addr_ne_tNil; [exact HR|]. rewrite addrs_plug. simpl.
    apply in_app_l, in_app_r, in_further. by apply ptr_in_addrs. }
  assert (y ≠ tNil ∧ y ≠ goNil ∧ (y < next s)%nat) as (HyT' & HyG' & Hylt').
  { split_and!; [apply HyT|apply HyG|apply Hylt]; apply elem_of_app; left; simpl; set_solver. }
  clear HyT HyG Hylt Hynd HR0.
  assert (hide (NoDup (addrs (plug cs (Nd c l y ky (plug (f :: ds) ry)))))) as Hnd0.
  { unfold hide. eapply nodup_swap_root; [|exact Hyout]. apply HR1. }
  remember (plug (f :: ds) ry) as R eqn:ER. clear ER Hplug Hlm.
  pose proof (Rh_nodup_plug _ _ _ HR1) as Hnd.
  destruct (Rh_ranges _ _ _ HR1) as (HnT & HnG & Hlt).
  rewrite addrs_plug in Hyout.
  destruct s as [rt n h nx]. destruct s1 as [rt1 n1 h1 nx1].
  simpl in Hmin, Hy, Hy1, Hz, Hl1, Hn1, Hylt'. subst n1 nx1.
  pose proof HR1 as [Hs Hg Hal Hrt Hrep _]. simpl in Hs, Hg, Hal, Hrt, Hrep, Hlt.
  pose proof Hs as [p0 Hnt].
  assert (tNil ≠ goNil) as HTG by done.
  assert (tNil < nx)%nat as HTlt by (by eapply alloc_lt).
  destruct l as [|cl ll al kl lr]; [done|].
  destruct R as [|cR Rl aR kR Rr]; [done|].
  destruct cy; 
    destruct cs as [|[cf pf kf rf|cf lf pf kf] cs];
    simpl in Hnd, HnT, HnG, Hlt, Hyout; nodup_split;
    (apply (rep_plug _ _ cs) in Hrep as Hrepf || pose proof Hrep as Hrepf);
    simpl in Hrepf; destruct_and?;
    (eexists; split;
     [unfold remove, liftR; mgo; rewrite Hmin; mgo; rewrite Hrun1; unfold transplant; mgo; reflexivity|];
     split; [|done]).
  all: replace_tac HR1 Hnd0 Hrt.
Qed.

End Successor.

Section RemoveSuccessor.
Context {Item : Type}.
Implicit Types (t l r : tree (Item:=Item)) (cs ds : list (frame (Item:=Item))).

(** [remove] of a node with two children, when [removeFixup] is not called
    or leaves its loop at once: the node of the next item takes the place
    and the colour of the node, and its right child its own place. *)
Lemma remove_two_children (s : store Item) cs c l (z : addr) k r ds cy (y : addr) ky ry fuel :
  Rh s (plug cs (Nd c l z k r)) → l ≠ Leaf →
  leftmost [] r = (ds, Nd cy Leaf y ky ry) →
  cy = red ∨ tcolor ry = red → (size r < fuel)%nat →
  ∃ s', remove fuel z s = Ok (tt, s') ∧
        Rh s' (plug cs (Nd c l y ky
                 (plug ds (match cy with red => ry | black => blacken ry end)))) ∧
        length s' = length s.
Proof.
  intros HR Hl Hlm Hcase Hfuel.
  assert (r ≠ Leaf) as Hr by (intros ->; done).
  assert (0 < fuel)%nat as Hpos by lia.
  assert (∃ s1, remove fuel z s
                = match cy with
                  | black => removeFixup fuel (ptr ry) s1
                  | red => Ok (tt, s1)
                  end ∧
                Rh s1 (plug cs (Nd c l y ky (plug ds ry))) ∧
                length s1 = length s ∧ next s1 = next s)
    as (s1 & Hrun & HR1 & Hl1 & _).
  { destruct ds as [|f ds].
    - destruct (leftmost_spec r [] Hr) as (ds' & c' & a' & k' & r' & Hlm' & Hplug & _).
      rewrite Hlm in Hlm'. symmetry in Hlm'. inversion Hlm'. subst ds' c' a' k' r'.
      simpl in Hplug. subst r.
      by apply (remove_succ_child s cs c l z k cy y ky ry fuel).
    - by apply (remove_succ_below s cs c l z k r f ds). }
  rewrite Hrun. destruct cy.
  - by exists s1.
  - destruct Hcase as [?|Hry]; [done|].
    destruct ry as [|cr rl x kr rr]; [done|]. simpl in Hry. subst cr.
    change (plug cs (Nd c l y ky (plug ds (Nd red rl x kr rr))))
      with (plug (FR c l y ky :: cs) (plug ds (Nd red rl x kr rr))) in HR1.
    rewrite <- plug_app in HR1.
    destruct (removeFixup_red s1 _ rl x kr rr fuel HR1 Hpos)
      as (s2 & Hrun2 & HR2 & Hl2 & _).
    rewrite plug_app in HR2.
    exists s2. split; [done|]. split; [done|]. by rewrite Hl2.
Qed.

End RemoveSuccessor.

Section RemoveColors.
Context {Item : Type}.
Implicit Types (t l r : tree (Item:=Item)) (cs ds : list (frame (Item:=Item))).

(** The colours and the sibling subtrees of a path are all [ctx_rb] reads. *)
Lemma ctx_rb_swap ds : ∀ n cs c l (z y : addr) (k ky : Item),
  ctx_rb n (ds ++ FR c l z k :: cs) → ctx_rb n (ds ++ FR c l y ky :: cs).
Proof.
  induction ds as [|f ds IH]; intros n cs c l z y k ky; [done|].
  simpl. intros (H1 & H2 & H3 & H4). split_and!; [done|done| |by eapply IH].
  intros Hf. destruct (H3 Hf) as [H5 H6]. split; [done|].
  by destruct ds.
Qed.

(** The node of the next item, red or with a red right child, leaves a
    subtree of its black height with a black root. *)
Lemma successor_rb n cy (y : addr) (ky : Item) ry :
  cy = red ∨ tcolor ry = red →
  no_red_red (Nd cy Leaf y ky ry) → black_height n (Nd cy Leaf y ky ry) →
  let ry' := match cy with red => ry | black => blacken ry end in
  no_red_red ry' ∧ black_height n ry' ∧ tcolor ry' = black.
Proof.
  intros Hcase Hn Hb. destruct cy; simpl in *.
  - destruct Hn as (Hc & _ & Hn). destruct (Hc eq_refl). tauto.
  - destruct Hcase as [?|Hry]; [done|].
    destruct n as [|m]; [done|]. destruct Hb as [_ Hb]. destruct Hn as (_ & _ & Hn).
    destruct (blacken_red ry m Hry Hn Hb). split_and!; [done|done|apply tcolor_blacken].
Qed.

Lemma remove_two_children_rb cs c l (z : addr) k ds cy (y : addr) ky ry m :
  cy = red ∨ tcolor ry = red →
  no_red_red (plug cs (Nd c l z k (plug ds (Nd cy Leaf y ky ry)))) →
  black_height m (plug cs (Nd c l z k (plug ds (Nd cy Leaf y ky ry)))) →
  let t' := plug cs (Nd c l y ky
              (plug ds (match cy with red => ry | black => blacken ry end))) in
  no_red_red t' ∧ ∃ m', black_height m' t'.
Proof.
  intros Hcase Hn Hb.
  change (plug cs (Nd c l z k (plug ds (Nd cy Leaf y ky ry))))
    with (plug (FR c l z k :: cs) (plug ds (Nd cy Leaf y ky ry))) in Hn, Hb.
  rewrite <- plug_app in Hn, Hb.
  destruct (plug_rb_inv _ _ _ Hn Hb) as (n & Hctx & Hny & Hby & _).
  destruct (successor_rb n cy y ky ry Hcase Hny Hby) as (Hn' & Hb' & Hc').
  cbv zeta.
  change (plug cs (Nd c l y ky (plug ds ?u)))
    with (plug (FR c l y ky :: cs) (plug ds u)).
  rewrite <- plug_app.
  apply (plug_rb _ _ n); [by eapply ctx_rb_swap|done|done|].
  intros Hred. congruence.
Qed.

End RemoveColors.

Section RemoveTwo.
Context {Item : Type} (less : Item → Item → bool) `{!LessOrder less}.
Implicit Types (t l r : tree (Item:=Item)) (cs ds : list (frame (Item:=Item))).

(** X22: [Remove] of an item stored in a node [z] with two children, when
    the node [y] of the next item (the leftmost node of the right subtree of
    [z], at the path [ds] below it) is red or has a red right child.  The
    tree after it is the tree before it with [y], in the colour of [z] and
    with the children of [z], in the place of [z], and with the right child
    of [y], made black unless [y] was red, in the place of [y]; no other
    node changes its place or its colour.  [Remove] returns [true] with a
    nil error, the items are the items before but the removed one, in
    order, [Len] is one less, [Find] does not find the item any more, and a
    red-black tree stays red-black. *)
Theorem X22_remove_node_with_two_children
    (s : store Item) t (item : Item) (fuel : nat)
    cs c l (z : addr) k r ds cy (y : addr) ky ry :
  Inv less s t → descend less item [] t = (cs, Nd c l z k r) →
  l ≠ Leaf → leftmost [] r = (ds, Nd cy Leaf y ky ry) →
  cy = red ∨ tcolor ry = red →
  (size t < fuel)%nat → Z.of_nat (size t) < 2 ^ 63 →
  ∃ s' t' pre post,
    rbTree_Remove less fuel item s = Ok ((true, None), s') ∧
    Inv less s' t' ∧
    t = plug cs (Nd c l z k (plug ds (Nd cy Leaf y ky ry))) ∧
    t' = plug cs (Nd c l y ky
           (plug ds (match cy with red => ry | black => blacken ry end))) ∧
    eqv less item k ∧
    inorder t = pre ++ k :: post ∧ inorder t' = pre ++ post ∧
    head post = Some ky ∧
    (red_black less t → red_black less t') ∧
    rbTree_Len s' = Ok (length s - 1, s') ∧
    rbTree_Find less fuel item s' = Ok (None, s').
Proof.
  intros HI Hd Hl Hlm Hcase Hfuel Hsmall.
  pose proof HI as [HR Hlen Hbst Hblack].
  pose proof (descend_plug less item t []) as Hplug.
  pose proof (descend_found less item t []) as Hfound.
  pose proof (find_loop_descend less (cells s) item t [] fuel
                (Rh_sentinel _ _ HR) (Rh_rep _ _ HR) Hfuel) as Hfind.
  rewrite Hd in Hplug, Hfound, Hfind. simpl in Hplug, Hfound, Hfind. subst t.
  assert (z ≠ tNil) as HzT.
  { eapply Rh_addr_ne_tNil; [exact HR|]. rewrite addrs_plug. simpl. in_tac. }
  assert (r ≠ Leaf) as Hr by (intros ->; done).
  destruct (leftmost_spec r [] Hr) as (ds' & c' & a' & k' & r' & Hlm' & Hpl & Hin & Hbef).
  rewrite Hlm in Hlm'. symmetry in Hlm'. inversion Hlm'. subst ds' c' a' k' r'. clear Hlm'.
  simpl in Hpl, Hin, Hbef. rewrite app_nil_r in Hin.
  assert (size r < fuel)%nat as Hfr.
  { rewrite size_plug in Hfuel. simpl in Hfuel. lia. }
  destruct (remove_two_children s cs c l z k r ds cy y ky ry fuel HR Hl Hlm Hcase Hfr)
    as (s1 & Hrun & HR1 & Hl1).
  set (ry' := match cy with red => ry | black => blacken ry end) in *.
  set (t' := plug cs (Nd c l y ky (plug ds ry'))) in *.
  assert (inorder ry' = inorder ry) as Hry'.
  { unfold ry'. destruct cy; [done|apply inorder_blacken]. }
  assert (size ry' = size ry) as Hsry'.
  { unfold ry'. destruct cy; [done|apply size_blacken]. }
  assert (inorder t' = (ctx_before cs ++ inorder l)
                       ++ ky :: inorder ry ++ ctx_after ds ++ ctx_after cs) as Hin'.
  { unfold t'. rewrite inorder_plug. simpl. rewrite inorder_plug, Hbef, Hry'. simpl.
    norm_app. done. }
  assert (inorder (plug cs (Nd c l z k r))
          = (ctx_before cs ++ inorder l)
            ++ k :: (ky :: inorder ry ++ ctx_after ds ++ ctx_after cs)) as Hin0.
  { rewrite inorder_plug. simpl. rewrite <- Hin. norm_app. done. }
  assert (size (plug cs (Nd c l z k r)) = S (size t')) as Hsz'.
  { unfold t'. rewrite !size_plug. simpl. rewrite <- Hpl, !size_plug, Hsry'. simpl. lia. }
  exists (mkStore (root s1) (wrap_int (length s1 - 1)) (cells s1) (next s1)), t',
         (ctx_before cs ++ inorder l),
         (ky :: inorder ry ++ ctx_after ds ++ ctx_after cs).
  assert (Inv less (mkStore (root s1) (wrap_int (length s1 - 1)) (cells s1) (next s1)) t')
    as HI'.
  { split.
    - by apply Rh_set_length.
    - simpl. rewrite Hl1, Hlen, Hsz'.
      rewrite <- Z.add_opp_r, wrap_int_add. f_equal. lia.
    - rewrite Hin'. rewrite Hin0 in Hbst. by apply ascending_remove in Hbst.
    - unfold t'. rewrite tcolor_plug in *. by destruct (last cs). }
  split_and!.
  - unfold rbTree_Remove, find, bind, get_root, liftR.
    rewrite (Rh_root _ _ HR), Hfind. simpl.
    destruct (decide (z = tNil)); [done|].
    unfold bind. rewrite Hrun. done.
  - exact HI'.
  - by rewrite Hpl.
  - done.
  - done.
  - exact Hin0.
  - exact Hin'.
  - done.
  - intros (_ & Hn & [m Hb] & _). rewrite <- Hpl in Hn, Hb.
    destruct (remove_two_children_rb cs c l z k ds cy y ky ry m Hcase Hn Hb) as [Hn' Hb'].
    split_and!; [apply HI'|exact Hn'|exact Hb'|apply HI'].
  - unfold rbTree_Len, get_length. simpl. rewrite Hl1, Hlen.
    rewrite !wrap_int_small; [done|lia|].
    rewrite wrap_int_small by lia. rewrite Hsz'. lia.
  - apply (Find_removed less _ t' item k (ctx_before cs ++ inorder l)
             (ky :: inorder ry ++ ctx_after ds ++ ctx_after cs)).
    + apply HI'.
    + exact Hin'.
    + by rewrite <- Hin0.
    + done.
    + lia.
Qed.

End RemoveTwo.

(** ** Further properties of the code: a new tree beside the others *)

Section NewTree.
Context {Item : Type} (less : Item → Item → bool) `{!LessOrder less}.
Implicit Types (t u : tree (Item:=Item)) (s : store Item) (w : world Item).

Lemma world_ok_New w : world_ok w → world_ok (New w).2.
Proof.
  intros (Hs & Hg & Hc & Ht). unfold New. split_and!; simpl; try done.
  - eapply map_Forall_impl; [exact Hc|]. simpl. intros; lia.
  - apply map_Forall_insert_2; [lia|].
    eapply map_Forall_impl; [exact Ht|]. simpl. intros; lia.
Qed.

Lemma Inv_New w : world_ok w →
  Inv less (mkStore tNil 0 (w_cells w) (S (w_next w))) Leaf.
Proof.
  intros (Hs & Hg & Hc & Ht).
  split; [split|..]; simpl; try done.
  - eapply map_Forall_impl; [exact Hc|]. simpl. intros; lia.
  - constructor.
  - constructor.
Qed.

(** X20: [New] returns a tree that was not there before and is empty, and
    leaves every tree of the program as it is; and the first [Insert] into
    the new tree returns [true] with a nil error, makes it the tree of that
    one item, and leaves every tree that was there before [New] as it is
    still: a tree made by [New] is filled without a write to another. *)
Theorem X20_new_tree_is_empty (w : world Item) :
  world_ok w →
  view (New w).1 w = None ∧
  world_ok (New w).2 ∧
  (∃ s, view (New w).1 (New w).2 = Some s ∧ Inv less s Leaf ∧
        rbTree_Len s = Ok (0, s)) ∧
  (∀ rb s t, view rb w = Some s → Inv less s t →
     rb ≠ (New w).1 ∧
     (∃ s', view rb (New w).2 = Some s' ∧ Inv less s' t ∧
            root s' = root s ∧ length s' = length s ∧ cells s' = cells s) ∧
     (∀ (item : Item) (fuel : nat), (0 < fuel)%nat →
        ∃ w2 s2 s',
          on_tree (New w).1 (rbTree_Insert less fuel item) (New w).2
            = Ok ((true, None), w2) ∧
          view (New w).1 w2 = Some s2 ∧
          Inv less s2 (Nd black Leaf (S (w_next w)) item Leaf) ∧
          view rb w2 = Some s' ∧ Inv less s' t ∧
          root s' = root s ∧ length s' = length s ∧
          S (w_next w) ∉ addrs t)).
Proof.
  intros Hok. pose proof Hok as (Hs & Hg & Hc & Ht).
  pose proof (Inv_New w Hok) as HIn.
  assert (view (New w).1 (New w).2
          = Some (mkStore tNil 0 (w_cells w) (S (w_next w)))) as Hvn.
  { unfold view, New. simpl. by rewrite lookup_insert_eq. }
  split_and!.
  - unfold view, New. simpl.
    destruct (trees w !! w_next w) as [o|] eqn:E; [|done].
    pose proof (Ht _ _ E). simpl in *. lia.
  - by apply world_ok_New.
  - eexists. split; [exact Hvn|]. split; [exact HIn|]. done.
  - intros rb s t Hv HI. pose proof HI as [HR Hlen Hbst Hblack].
    unfold view in Hv. destruct (trees w !! rb) as [o|] eqn:Hrb; [|done].
    simpl in Hv. injection Hv as <-.
    assert (rb ≠ w_next w) as Hne.
    { intros ->. pose proof (Ht _ _ Hrb). simpl in *. lia. }
    assert (view rb (New w).2
            = Some (mkStore (t_root o) (t_length o) (w_cells w) (S (w_next w)))) as Hvo.
    { unfold view, New. simpl. rewrite lookup_insert_ne by done. by rewrite Hrb. }
    split_and!.
    + done.
    + eexists. split; [exact Hvo|].
      destruct HR as [H1 H2 H3 H4 H5 H6]. simpl in *.
      split_and!; try done. split; [split|..]; simpl; try done.
      eapply map_Forall_impl; [exact H3|]. simpl. intros; lia.
    + intros item fuel Hfuel.
      destruct (Insert_beside less _ Leaf t item fuel HIn) as (s2 & Hrun & HI2 & Hrep & Hdisj).
      { apply HR. }
      { intros a Ha. by apply elem_of_nil in Ha. }
      { simpl. lia. }
      change (ins_fresh less item Leaf) with true in Hrun.
      change (ins_tree less item _ Leaf)
        with (Nd black Leaf (S (w_next w)) item Leaf) in HI2, Hdisj.
      pose proof (on_tree_ok _ _ _ _ _ _ Hvn Hrun) as Hrun'.
      eexists _, s2, (mkStore (t_root o) (t_length o) (cells s2) (next s2)).
      split; [exact Hrun'|]. split_and!.
      * unfold view. simpl. rewrite lookup_insert_eq. simpl. by destruct s2.
      * done.
      * unfold view. simpl. rewrite lookup_insert_ne by (simpl; done).
        rewrite lookup_insert_ne by done. by rewrite Hrb.
      * pose proof (Inv_Rh _ _ _ HI2) as [H1 H2 H3 _ _ _].
        split; try done. split; simpl; try done; apply HR.
      * done.
      * done.
      * apply (Hdisj (S (w_next w))). simpl. apply in_here.
Qed.

End NewTree.

(** ** The further properties on the scenarios of the tests *)

Lemma red_black_tree18 : red_black IntItem_Less tree18.
Proof.
  split_and!; [reflexivity|simpl; intuition congruence|exists 3%nat; simpl; tauto|].
  repeat constructor.
Qed.

Lemma X1_witness :
  ∃ s' t',
    rbTree_Insert IntItem_Less 50 7 (store_of seq18) = Ok ((true, None), s') ∧
    Inv IntItem_Less s' t' ∧
    inorder t' ≡ₚ 7 :: inorder tree18 ∧
    rbTree_Len s' = Ok (length (store_of seq18) + 1, s').
Proof.
  apply (X1_insert_new_item IntItem_Less (store_of seq18) tree18 7 50).
  - inv_by_compute.
  - repeat constructor; intros [H1 H2]; discriminate.
  - vm_compute. lia.
  - vm_compute. reflexivity.
Defined.

Lemma X2_witness :
  ∃ b s' t',
    rbTree_Insert IntItem_Less 50 7 (store_of seq18) = Ok ((b, None), s') ∧
    Inv IntItem_Less s' t' ∧ red_black IntItem_Less t'.
Proof.
  apply (X2_insert_keeps_red_black IntItem_Less (store_of seq18) tree18 7 50).
  - inv_by_compute.
  - exact red_black_tree18.
  - vm_compute. lia.
Defined.

Lemma X3_witness :
  ∃ b s',
    rbTree_Insert IntItem_Less 50 7 (store_of seq18) = Ok ((b, None), s') ∧
    rbTree_Find IntItem_Less 50 7 s' = Ok (Some 7, s').
Proof.
  apply (X3_find_after_insert IntItem_Less (store_of seq18) tree18 7 50).
  - inv_by_compute.
  - vm_compute. lia.
Defined.

Lemma X4_witness :
  rbTree_Find IntItem_Less 50 23 (store_of seq18)
    = Ok (List.find (eqvb IntItem_Less 23) (inorder tree18), store_of seq18) ∧
  (∀ k, k ∈ inorder tree18 → eqv IntItem_Less 23 k →
        rbTree_Find IntItem_Less 50 23 (store_of seq18) = Ok (Some k, store_of seq18)).
Proof.
  apply (X4_find_stored_item IntItem_Less (store_of seq18) tree18 23 50).
  - inv_by_compute.
  - vm_compute. lia.
Defined.

Lemma X5_witness :
  (height tree18 ≤ 2 * Nat.log2 (size tree18 + 1))%nat ∧
  ∀ (fuel : nat) (item : IntItem),
    (2 * Nat.log2 (size tree18 + 1) < fuel)%nat →
    rbTree_Find IntItem_Less fuel item (store_of seq18)
    = Ok (List.find (eqvb IntItem_Less item) (inorder tree18), store_of seq18).
Proof.
  apply (X5_find_logarithmic IntItem_Less (store_of seq18) tree18).
  - inv_by_compute.
  - exact red_black_tree18.
Defined.

Lemma X6_witness :
  ∃ lo hi,
    rbTree_Min 50 (store_of seq18) = Ok (Some lo, store_of seq18) ∧
    rbTree_Max 50 (store_of seq18) = Ok (Some hi, store_of seq18) ∧
    head (inorder tree18) = Some lo ∧ last (inorder tree18) = Some hi ∧
    ∀ k, k ∈ inorder tree18 → IntItem_Less k lo = false ∧ IntItem_Less hi k = false.
Proof.
  apply (X6_min_max_of_tree IntItem_Less (store_of seq18) tree18 50).
  - inv_by_compute.
  - unfold tree18. discriminate.
  - vm_compute. lia.
Defined.

Lemma X7_witness :
  subTree_Min IntItem_Less 50 view_5_31 (world_of seq18)
  = Ok (head (List.filter (λ y, negb (IntItem_Less y (fromKey view_5_31))) (inorder tree18)),
        world_of seq18).
Proof.
  apply (X7_view_min_is_ceiling IntItem_Less view_5_31 (world_of seq18)
           (store_of seq18) tree18 50).
  - vm_compute. reflexivity.
  - inv_by_compute.
  - vm_compute. lia.
Defined.

Lemma X8_witness :
  ∃ l,
    rbTree_items IntItem_Less 50 (store_of seq18) = Ok (l, store_of seq18) ∧
    l = inorder tree18 ∧ ascending IntItem_Less l ∧
    rbTree_Len (store_of seq18) = Ok (Z.of_nat (List.length l), store_of seq18) ∧
    ∀ item, rbTree_Find IntItem_Less 50 item (store_of seq18)
            = Ok (List.find (eqvb IntItem_Less item) l, store_of seq18).
Proof.
  apply (X8_iteration_yields_the_items IntItem_Less (store_of seq18) tree18 50).
  - inv_by_compute.
  - vm_compute. lia.
  - vm_compute. reflexivity.
Defined.

Lemma X9_witness :
  ∃ s l,
    insert_all IntItem_Less 50 seq18 store1 = Ok (tt, s) ∧
    rbTree_items IntItem_Less 50 s = Ok (l, s) ∧
    ascending IntItem_Less l ∧
    (∀ x, x ∈ l → x ∈ seq18) ∧
    (∀ x, x ∈ seq18 → ∃ x', x' ∈ l ∧ eqv IntItem_Less x x') ∧
    (List.length l ≤ List.length seq18)%nat ∧
    rbTree_Len s = Ok (Z.of_nat (List.length l), s).
Proof.
  apply (X9_insert_repeated_keys IntItem_Less store1 seq18 50).
  - inv_by_compute.
  - vm_compute. lia.
  - vm_compute. reflexivity.
Defined.

Lemma X10_witness :
  iterator_IsValid (mkIterator 8%nat deferencable) = true ∧
  iterator_Get (mkIterator 8%nat deferencable) (cells (store_of seq6)) = Ok (Some 8).
Proof.
  apply (proj1 (X10_get_after_next IntItem_Less (cells (store_of seq6)) 50 8)
           (mkIterator 8%nat beforeFirst) (mkIterator 8%nat deferencable)).
  vm_compute. reflexivity.
Defined.

Lemma X11_witness :
  ∃ it, rbTree_NewIterator 50 (store_of seq18) = Ok (it, store_of seq18) ∧
        ∀ n, ∃ it', nth_Next IntItem_Less 50 n it (cells (store_of seq18))
                    = Ok (inorder tree18 !! n, it').
Proof.
  apply (X11_next_returns_nth_item IntItem_Less (store_of seq18) tree18 50).
  - inv_by_compute.
  - vm_compute. lia.
  - vm_compute. reflexivity.
Defined.

Lemma X12_witness :
  ∃ it, subTree_NewIterator IntItem_Less 50 view_5_31 (world_of seq18)
        = Ok (it, world_of seq18) ∧
        ∀ n, ∃ it', nth_Next IntItem_Less 50 n it (w_cells (world_of seq18))
                    = Ok (List.filter (subTree_inRange IntItem_Less view_5_31)
                            (inorder tree18) !! n, it').
Proof.
  apply (X12_view_next_returns_nth_item IntItem_Less view_5_31 (world_of seq18)
           (store_of seq18) tree18 50).
  - vm_compute. reflexivity.
  - inv_by_compute.
  - vm_compute. lia.
Defined.

Lemma X13_witness :
  subTree_Len IntItem_Less 50 view_5_31 (world_of seq18)
  = Ok (Z.of_nat (List.length (List.filter (subTree_inRange IntItem_Less view_5_31)
                                 (inorder tree18))), world_of seq18).
Proof.
  apply (X13_view_len_counts_range IntItem_Less view_5_31 (world_of seq18)
           (store_of seq18) tree18 50).
  - vm_compute. reflexivity.
  - inv_by_compute.
  - vm_compute. lia.
  - vm_compute. reflexivity.
Defined.

Lemma X14_witness :
  ∃ st' l l',
    TreeSub (mkSubTree rb1 31 999) = TreeSub st' ∧ fromKey st' = 31 ∧ toKey st' = 999 ∧
    subTree_items IntItem_Less 50 view_11_1000 (world_of seq18) = Ok (l, world_of seq18) ∧
    subTree_items IntItem_Less 50 st' (world_of seq18) = Ok (l', world_of seq18) ∧
    l' = List.filter (subTree_inRange IntItem_Less st') l ∧
    ∀ x, x ∈ l' → x ∈ l.
Proof.
  apply (X14_narrowed_view_iterates_sublist IntItem_Less view_11_1000 31 999
           (TreeSub (mkSubTree rb1 31 999)) (world_of seq18) (store_of seq18) tree18 50).
  - vm_compute. reflexivity.
  - inv_by_compute.
  - vm_compute. lia.
  - reflexivity.
Defined.

Lemma X15_witness :
  ∃ b w' l,
    subTree_Insert IntItem_Less 50 view_5_31 7 (world_of seq18) = Ok ((b, None), w') ∧
    subTree_Find IntItem_Less 50 view_5_31 7 w' = Ok (Some 7, w') ∧
    on_tree (st_tree view_5_31) (rbTree_Find IntItem_Less 50 7) w' = Ok (Some 7, w') ∧
    subTree_items IntItem_Less 50 view_5_31 w' = Ok (l, w') ∧ 7 ∈ l.
Proof.
  apply (X15_view_insert_writes_through IntItem_Less view_5_31 7 (world_of seq18)
           (store_of seq18) tree18 50).
  - vm_compute. reflexivity.
  - inv_by_compute.
  - vm_compute. lia.
  - reflexivity.
Defined.

Lemma Rh_store3 : Rh (store_of seq3) tree3.
Proof. rh_by_compute. Qed.

Lemma X16_witness :
  ∃ s1 s2,
    leftRotate 4%nat (store_of seq3) = Ok (tt, s1) ∧
    Rh s1 (Nd red (Nd black (Nd red Leaf 3%nat 1 Leaf) 4%nat 2 Leaf) 5%nat 3 Leaf) ∧
    inorder (Nd red (Nd black (Nd red Leaf 3%nat 1 Leaf) 4%nat 2 Leaf) 5%nat 3 Leaf)
      = inorder tree3 ∧
    length s1 = length (store_of seq3) ∧
    rightRotate 5%nat s1 = Ok (tt, s2) ∧
    Rh s2 tree3 ∧
    length s2 = length (store_of seq3).
Proof.
  apply (X16_rotations_keep_order_and_undo (store_of seq3) []
           black (Nd red Leaf 3%nat 1 Leaf) 4%nat 2 red Leaf 5%nat 3 Leaf).
  exact Rh_store3.
Defined.

Lemma X17_witness : leftRotate 5%nat (store_of seq3) = Panic.
Proof.
  apply (proj1 (X17_rotation_without_child_panics (store_of seq3)
                  [FR black (Nd red Leaf 3%nat 1 Leaf) 4%nat 2] red Leaf 5%nat 3 Leaf)).
  exact Rh_store3.
Defined.

Lemma X18_witness :
  ∃ s' t' pre post,
    rbTree_Remove IntItem_Less 50 8 (store_of seq6) = Ok ((true, None), s') ∧
    Inv IntItem_Less s' t' ∧
    eqv IntItem_Less 8 8 ∧
    inorder tree6 = pre ++ 8 :: post ∧ inorder t' = pre ++ post ∧
    (red_black IntItem_Less tree6 → red_black IntItem_Less t') ∧
    rbTree_Len s' = Ok (length (store_of seq6) - 1, s') ∧
    rbTree_Find IntItem_Less 50 8 s' = Ok (None, s').
Proof.
  eapply (X18_remove_node_with_one_child IntItem_Less (store_of seq6) tree6 8 50).
  - inv_by_compute.
  - vm_compute. reflexivity.
  - by left.
  - by left.
  - vm_compute. lia.
  - vm_compute. reflexivity.
Defined.

Lemma X19_witness :
  rbTree_Len store1 = Ok (0, store1) ∧
  rbTree_items IntItem_Less 50 store1 = Ok ([], store1) ∧
  (∀ item, rbTree_Find IntItem_Less 50 item store1 = Ok (None, store1) ∧
           rbTree_Remove IntItem_Less 50 item store1 = Ok ((false, None), store1)) ∧
  (∀ (st : subTree IntItem) (w : world IntItem),
     view (st_tree st) w = Some store1 →
     subTree_Min IntItem_Less 50 st w = Ok (None, w) ∧
     subTree_Max IntItem_Less 50 st w = Ok (None, w) ∧
     subTree_items IntItem_Less 50 st w = Ok ([], w) ∧
     subTree_Len IntItem_Less 50 st w = Ok (0, w)).
Proof.
  apply (X19_empty_tree IntItem_Less store1 50).
  - inv_by_compute.
  - lia.
Defined.

Lemma world_ok_world18 : world_ok (world_of seq18).
Proof.
  split_and!.
  - eexists. vm_compute. reflexivity.
  - vm_compute. reflexivity.
  - apply (bool_decide_unpack _). vm_compute. exact I.
  - apply (bool_decide_unpack _). vm_compute. exact I.
Qed.

Lemma X20_witness :
  view (New (world_of seq18)).1 (world_of seq18) = None ∧
  (∃ s, view (New (world_of seq18)).1 (New (world_of seq18)).2 = Some s ∧
        Inv IntItem_Less s Leaf) ∧
  (∃ s', view rb1 (New (world_of seq18)).2 = Some s' ∧ Inv IntItem_Less s' tree18) ∧
  ∃ w2 s2 s',
    on_tree (New (world_of seq18)).1 (rbTree_Insert IntItem_Less 50 7)
      (New (world_of seq18)).2 = Ok ((true, None), w2) ∧
    view (New (world_of seq18)).1 w2 = Some s2 ∧
    Inv IntItem_Less s2 (Nd black Leaf (S (w_next (world_of seq18))) 7 Leaf) ∧
    view rb1 w2 = Some s' ∧ Inv IntItem_Less s' tree18.
Proof.
  destruct (X20_new_tree_is_empty IntItem_Less (world_of seq18) world_ok_world18)
    as (Hfresh & _ & (s & Hs & HIs & _) & Hold).
  destruct (Hold rb1 (store_of seq18) tree18) as (_ & (s' & Hv' & HI' & _) & Hins).
  { vm_compute. reflexivity. }
  { inv_by_compute. }
  destruct (Hins 7 50%nat) as (w2 & s2 & s0 & Hrun & Hv2 & HI2 & Hv0 & HI0 & _); [lia|].
  split; [exact Hfresh|].
  split; [exists s; split; [exact Hs|exact HIs]|].
  split; [exists s'; split; [exact Hv'|exact HI']|].
  exists w2, s2, s0.
  split; [exact Hrun|]. split; [exact Hv2|]. split; [exact HI2|].
  split; [exact Hv0|exact HI0].
Defined.

Lemma X21_witness :
  ∃ b w' s1' t1' s2',
    on_tree rb1 (rbTree_Insert IntItem_Less 50 4) world2 = Ok ((b, None), w') ∧
    view rb1 w' = Some s1' ∧ Inv IntItem_Less s1' t1' ∧
    view rb2 w' = Some s2' ∧ Inv IntItem_Less s2' tree2b ∧
    (∀ a, a ∈ addrs t1' → a ∉ addrs tree2b).
Proof.
  apply (X21_insert_leaves_other_trees IntItem_Less world2 rb1 rb2
           store2a tree2a store2b tree2b 4 50).
  - vm_compute. reflexivity.
  - inv_by_compute.
  - vm_compute. reflexivity.
  - inv_by_compute.
  - vm_compute. discriminate.
  - intros a Ha Hb. apply list_elem_of_In in Ha, Hb. simpl in Ha, Hb.
    intuition congruence.
  - vm_compute. lia.
Defined.

Lemma X22_witness :
  ∃ cs c l z k r ds cy y ky ry,
    descend IntItem_Less 19 [] tree18 = (cs, Nd c l z k r) ∧
    leftmost [] r = (ds, Nd cy Leaf y ky ry) ∧
    List.length ds = 3%nat ∧
    ∃ s' t' pre post,
      rbTree_Remove IntItem_Less 50 19 (store_of seq18) = Ok ((true, None), s') ∧
      Inv IntItem_Less s' t' ∧
      tree18 = plug cs (Nd c l z k (plug ds (Nd cy Leaf y ky ry))) ∧
      t' = plug cs (Nd c l y ky
             (plug ds (match cy with red => ry | black => blacken ry end))) ∧
      eqv IntItem_Less 19 k ∧
      inorder tree18 = pre ++ k :: post ∧ inorder t' = pre ++ post ∧
      head post = Some ky ∧
      (red_black IntItem_Less tree18 → red_black IntItem_Less t') ∧
      rbTree_Len s' = Ok (length (store_of seq18) - 1, s') ∧
      rbTree_Find IntItem_Less 50 19 s' = Ok (None, s').
Proof.
  do 11 eexists.
  split; [vm_compute; reflexivity|].
  split; [vm_compute; reflexivity|].
  split; [reflexivity|].
  eapply (X22_remove_node_with_two_children IntItem_Less (store_of seq18) tree18 19 50).
  - inv_by_compute.
  - vm_compute. reflexivity.
  - discriminate.
  - vm_compute. reflexivity.
  - by left.
  - vm_compute. lia.
  - vm_compute. reflexivity.
Defined.
